(** * Knowledge graph store: a shallow embedding of
    [scripts/knowledge_graph.py] and [scripts/knowledge_integration.py].

    Conventions of the embedding.
    - A Python [str] is the [string] of its UTF-8 bytes.
    - A Python [float] is a binary64 primitive float.
    - [self.entities] and [self.relations] are insertion-ordered
      dictionaries: association lists with Python's assignment semantics.
    - Property dictionaries are finite maps ([gmap string value]).
    - [datetime.now()] reads a clock oracle carried by the world.
    - Every method is a computation in a state-and-exception monad over the
      world (memory, disk, export directory, clock). *)

From Stdlib Require Import ZArith List Ascii String Floats.
From stdpp Require Import base option list gmap strings.

Set Warnings "-inexact-float,-register-all".
Open Scope string_scope.
Open Scope list_scope.
Open Scope Z_scope.

(** ** hashlib.md5 *)

Module MD5.

Definition mask32 : Z := 4294967295.

Definition add32 (a b : Z) : Z := Z.land (a + b) mask32.

Definition not32 (a : Z) : Z := Z.lxor a mask32.

Definition rotl32 (x c : Z) : Z :=
  Z.land (Z.lor (Z.shiftl x c) (Z.shiftr x (32 - c))) mask32.

Definition K : list Z :=
  [ 3614090360; 3905402710; 606105819; 3250441966; 4118548399; 1200080426;
    2821735955; 4249261313; 1770035416; 2336552879; 4294925233; 2304563134;
    1804603682; 4254626195; 2792965006; 1236535329; 4129170786; 3225465664;
    643717713; 3921069994; 3593408605; 38016083; 3634488961; 3889429448;
    568446438; 3275163606; 4107603335; 1163531501; 2850285829; 4243563512;
    1735328473; 2368359562; 4294588738; 2272392833; 1839030562; 4259657740;
    2763975236; 1272893353; 4139469664; 3200236656; 681279174; 3936430074;
    3572445317; 76029189; 3654602809; 3873151461; 530742520; 3299628645;
    4096336452; 1126891415; 2878612391; 4237533241; 1700485571; 2399980690;
    4293915773; 2240044497; 1873313359; 4264355552; 2734768916; 1309151649;
    4149444226; 3174756917; 718787259; 3951481745 ].

Definition S : list Z :=
  [ 7; 12; 17; 22; 7; 12; 17; 22; 7; 12; 17; 22; 7; 12; 17; 22;
    5; 9; 14; 20; 5; 9; 14; 20; 5; 9; 14; 20; 5; 9; 14; 20;
    4; 11; 16; 23; 4; 11; 16; 23; 4; 11; 16; 23; 4; 11; 16; 23;
    6; 10; 15; 21; 6; 10; 15; 21; 6; 10; 15; 21; 6; 10; 15; 21 ].

Definition bytes_of_string (s : string) : list Z :=
  map (fun c => Z.of_N (N_of_ascii c)) (list_ascii_of_string s).

(** Little-endian bytes of [x], [n] of them. *)
Fixpoint le_bytes (n : nat) (x : Z) : list Z :=
  match n with
  | O => []
  | Datatypes.S n' => Z.land x 255 :: le_bytes n' (Z.shiftr x 8)
  end.

Fixpoint le_word (bs : list Z) : Z :=
  match bs with
  | [] => 0
  | b :: bs' => Z.lor b (Z.shiftl (le_word bs') 8)
  end.

Definition pad (msg : list Z) : list Z :=
  let len := Z.of_nat (length msg) in
  let zeros := Z.to_nat ((55 - len) mod 64) in
  msg ++ 128 :: repeat 0 zeros ++ le_bytes 8 (Z.land (8 * len) 18446744073709551615).

(** Split into chunks of [n] (the input length is a multiple of [n]). *)
Fixpoint chunks (fuel n : nat) (l : list Z) : list (list Z) :=
  match fuel with
  | O => []
  | Datatypes.S f =>
      match l with
      | [] => []
      | _ => firstn n l :: chunks f n (skipn n l)
      end
  end.

Definition words_of_block (blk : list Z) : list Z :=
  map le_word (chunks 16 4 blk).

Record regs := Regs { rA : Z; rB : Z; rC : Z; rD : Z }.

Definition round (M : list Z) (r : regs) (i : Z) : regs :=
  let '(Regs A B C D) := r in
  let '(F, g) :=
    if i <? 16 then (Z.lor (Z.land B C) (Z.land (not32 B) D), i)
    else if i <? 32 then (Z.lor (Z.land D B) (Z.land (not32 D) C), (5 * i + 1) mod 16)
    else if i <? 48 then (Z.lxor (Z.lxor B C) D, (3 * i + 5) mod 16)
    else (Z.lxor C (Z.lor B (not32 D)), (7 * i) mod 16) in
  let F' := add32 (add32 (add32 F A) (nth (Z.to_nat i) K 0)) (nth (Z.to_nat g) M 0) in
  Regs D (add32 B (rotl32 F' (nth (Z.to_nat i) S 0))) B C.

Definition process_block (r : regs) (blk : list Z) : regs :=
  let M := words_of_block blk in
  let r' := fold_left (round M) (map Z.of_nat (seq 0 64)) r in
  Regs (add32 (rA r) (rA r')) (add32 (rB r) (rB r'))
       (add32 (rC r) (rC r')) (add32 (rD r) (rD r')).

Definition init : regs := Regs 1732584193 4023233417 2562383102 271733878.

Definition digest (msg : list Z) : list Z :=
  let p := pad msg in
  let r := fold_left process_block (chunks (length p) 64 p) init in
  le_bytes 4 (rA r) ++ le_bytes 4 (rB r) ++ le_bytes 4 (rC r) ++ le_bytes 4 (rD r).

Definition hex_digit (n : Z) : ascii :=
  ascii_of_N (Z.to_N (if n <? 10 then 48 + n else 87 + n)).

Fixpoint hex (bs : list Z) : string :=
  match bs with
  | [] => EmptyString
  | b :: bs' => String (hex_digit (Z.shiftr b 4)) (String (hex_digit (Z.land b 15)) (hex bs'))
  end.

(** [hashlib.md5(s.encode()).hexdigest()] *)
Definition hexdigest (s : string) : string := hex (digest (bytes_of_string s)).

End MD5.

(** [hashlib.md5(s.encode()).hexdigest()[:16]] *)
Definition md5_16 (s : string) : string := substring 0 16 (MD5.hexdigest s).


(** ** datetime

    A naive [datetime] is the number of microseconds since
    0001-01-01T00:00:00; [datetime.min] is [0] and [datetime.max] is
    [datetime_max].  Timestamps of records are kept as the [datetime] their
    ISO string encodes ([fromisoformat] inverts [isoformat]). *)

Definition datetime := Z.

Definition us_per_day : Z := 86400000000.
Definition max_ordinal : Z := 3652059.
Definition datetime_max : Z := max_ordinal * us_per_day - 1.

Definition _DAYS_IN_MONTH : list Z :=
  [-1; 31; 28; 31; 30; 31; 30; 31; 31; 30; 31; 30; 31].
Definition _DAYS_BEFORE_MONTH : list Z :=
  [-1; 0; 31; 59; 90; 120; 151; 181; 212; 243; 273; 304; 334].

Definition b2z (b : bool) : Z := if b then 1 else 0.

(** [datetime._ord2ymd]: proleptic Gregorian ordinal to (year, month, day). *)
Definition _ord2ymd (n : Z) : Z * Z * Z :=
  let n := n - 1 in
  let n400 := n / 146097 in let n := n mod 146097 in
  let year := n400 * 400 + 1 in
  let n100 := n / 36524 in let n := n mod 36524 in
  let n4 := n / 1461 in let n := n mod 1461 in
  let n1 := n / 365 in let n := n mod 365 in
  let year := year + n100 * 100 + n4 * 4 + n1 in
  if (n1 =? 4) || (n100 =? 4) then (year - 1, 12, 31)
  else
    let leapyear := (n1 =? 3) && (negb (n4 =? 24) || (n100 =? 3)) in
    let month := Z.shiftr (n + 50) 5 in
    let preceding :=
      nth (Z.to_nat month) _DAYS_BEFORE_MONTH 0 + b2z ((2 <? month) && leapyear) in
    if n <? preceding then
      let month := month - 1 in
      let preceding :=
        preceding - (nth (Z.to_nat month) _DAYS_IN_MONTH 0
                     + b2z ((month =? 2) && leapyear)) in
      (year, month, n - preceding + 1)
    else (year, month, n - preceding + 1).

Definition digit (d : Z) : ascii := ascii_of_N (Z.to_N (48 + d mod 10)).

(** ["%0<w>d" % z] for [0 <= z]. *)
Fixpoint zero_padded (w : nat) (z : Z) (acc : string) : string :=
  match w with
  | O => acc
  | S w' => zero_padded w' (z / 10) (String (digit z) acc)
  end.

Definition year_of (t : datetime) : Z := fst (fst (_ord2ymd (t / us_per_day + 1))).
Definition month_of (t : datetime) : Z := snd (fst (_ord2ymd (t / us_per_day + 1))).
Definition day_of (t : datetime) : Z := snd (_ord2ymd (t / us_per_day + 1)).
Definition hour_of (t : datetime) : Z := (t mod us_per_day) / 3600000000.
Definition minute_of (t : datetime) : Z := (t / 60000000) mod 60.
Definition second_of (t : datetime) : Z := (t / 1000000) mod 60.
Definition microsecond_of (t : datetime) : Z := t mod 1000000.

(** [datetime.isoformat()] *)
Definition isoformat (t : datetime) : string :=
  zero_padded 4 (year_of t) "-" ++ zero_padded 2 (month_of t) "-"
  ++ zero_padded 2 (day_of t) "T" ++ zero_padded 2 (hour_of t) ":"
  ++ zero_padded 2 (minute_of t) ":" ++ zero_padded 2 (second_of t)
       (if microsecond_of t =? 0 then "" else "." ++ zero_padded 6 (microsecond_of t) "").

(** [datetime.strftime("%Y%m%d_%H%M%S")] *)
Definition strftime_Ymd_HMS (t : datetime) : string :=
  zero_padded 4 (year_of t) "" ++ zero_padded 2 (month_of t) ""
  ++ zero_padded 2 (day_of t) "_" ++ zero_padded 2 (hour_of t) ""
  ++ zero_padded 2 (minute_of t) "" ++ zero_padded 2 (second_of t) "".

(** ** Values and records *)

(** JSON-like values held in property and parameter dictionaries. *)
Inductive value :=
| VNone
| VBool (b : bool)
| VInt (z : Z)
| VFloat (x : float)
| VStr (s : string)
| VList (l : list value)
| VDict (d : list (string * value)).

(** An f-string that interpolates values other than strings is kept as its
    fragments, in order. *)
Inductive frag :=
| FLit (s : string)                  (* literal text or an interpolated str *)
| FOpt (o : option string)           (* an Optional[str]: [None] prints as None *)
| FInt (z : Z)                       (* an int *)
| FFloat (x : float)                 (* a float, repr *)
| FFixed1 (x : float)                (* a float with format spec .1f *)
| FCounts (d : list (string * nat)). (* a dict of counts, repr *)

Definition text := list frag.

Record KnowledgeEntity := mkEntity {
  ent_id : string;
  ent_name : string;
  ent_type : string;
  ent_properties : gmap string value;
  ent_confidence : float;
  ent_created_at : datetime;
  ent_updated_at : datetime;
  ent_source : string }.

Record KnowledgeRelation := mkRelation {
  rel_id : string;
  rel_source_id : string;
  rel_target_id : string;
  rel_relation_type : string;
  rel_properties : gmap string value;
  rel_confidence : float;
  rel_created_at : datetime;
  rel_updated_at : datetime;
  rel_source : string }.

Record KnowledgeQuery := mkQuery {
  query_id : string;
  query_text : text;
  query_type : string;
  parameters : list (string * value);
  timestamp : datetime }.

Record KnowledgeInsight := mkInsight {
  insight_id : string;
  title : string;
  description : text;
  insight_type : string;
  ins_confidence : float;
  evidence : list text;
  ins_created_at : datetime }.

(** ** Insertion-ordered dictionaries *)

Section odict.
Context {V : Type}.

Fixpoint od_get (k : string) (d : list (string * V)) : option V :=
  match d with
  | [] => None
  | (k', v) :: d' => if String.eqb k k' then Some v else od_get k d'
  end.

(** [d[k] = v]: overwrite in place, or append a new key at the end. *)
Fixpoint od_set (k : string) (v : V) (d : list (string * V)) : list (string * V) :=
  match d with
  | [] => [(k, v)]
  | (k', v') :: d' =>
      if String.eqb k k' then (k', v) :: d' else (k', v') :: od_set k v d'
  end.

Definition od_mem (k : string) (d : list (string * V)) : bool :=
  match od_get k d with Some _ => true | None => false end.

Definition od_keys (d : list (string * V)) : list string := map fst d.
Definition od_values (d : list (string * V)) : list V := map snd d.
End odict.

(** ** The world: memory, disk, export directory, clock *)

(** The four persisted JSON documents; [None] while a file does not exist. *)
Record Disk := mkDisk {
  entities_file : option (list KnowledgeEntity);
  relations_file : option (list KnowledgeRelation);
  queries_file : option (list KnowledgeQuery);
  insights_file : option (list KnowledgeInsight) }.

(** A number as [get_statistics] reports it. *)
Inductive num :=
| NInt (z : Z)
| NRound (ndigits : Z) (x : float).   (* round(x, ndigits) *)

Record Statistics := mkStatistics {
  st_entities_total : nat;
  st_entities_types : list (string * nat);
  st_entities_avg_confidence : num;
  st_relations_total : nat;
  st_relations_types : list (string * nat);
  st_relations_avg_confidence : num;
  st_avg_degree : num;
  st_max_degree : nat;
  st_connected_nodes : nat;
  st_queries_total : nat;
  st_queries_recent_24h : nat;
  st_insights_total : nat;
  st_insights_recent_7d : nat }.

(** What [export_graph] writes. *)
Inductive Document :=
| JsonExport (export_time version : string) (statistics : Statistics)
    (ents : list KnowledgeEntity) (rels : list KnowledgeRelation)
    (ins : list KnowledgeInsight)
| GraphMLExport (lines : list text).

Record World := mkWorld {
  entities : list (string * KnowledgeEntity);
  relations : list (string * KnowledgeRelation);
  queries : list KnowledgeQuery;
  insights : list KnowledgeInsight;
  retention_days : option Z;            (* config.get('retention_days') *)
  disk : Disk;
  outputs : list (string * Document);   (* files under outputs/knowledge *)
  clock : nat -> datetime;              (* the n-th reading of datetime.now() *)
  ticks : nat }.

Definition set_entities (x : list (string * KnowledgeEntity)) (w : World) : World :=
  mkWorld x (relations w) (queries w) (insights w) (retention_days w)
          (disk w) (outputs w) (clock w) (ticks w).
Definition set_relations (x : list (string * KnowledgeRelation)) (w : World) : World :=
  mkWorld (entities w) x (queries w) (insights w) (retention_days w)
          (disk w) (outputs w) (clock w) (ticks w).
Definition set_queries (x : list KnowledgeQuery) (w : World) : World :=
  mkWorld (entities w) (relations w) x (insights w) (retention_days w)
          (disk w) (outputs w) (clock w) (ticks w).
Definition set_insights (x : list KnowledgeInsight) (w : World) : World :=
  mkWorld (entities w) (relations w) (queries w) x (retention_days w)
          (disk w) (outputs w) (clock w) (ticks w).
Definition set_disk (x : Disk) (w : World) : World :=
  mkWorld (entities w) (relations w) (queries w) (insights w) (retention_days w)
          x (outputs w) (clock w) (ticks w).
Definition set_outputs (x : list (string * Document)) (w : World) : World :=
  mkWorld (entities w) (relations w) (queries w) (insights w) (retention_days w)
          (disk w) x (clock w) (ticks w).
Definition set_ticks (x : nat) (w : World) : World :=
  mkWorld (entities w) (relations w) (queries w) (insights w) (retention_days w)
          (disk w) (outputs w) (clock w) x.

(** ** The monad of methods *)

Inductive exn :=
| ValueError (msg : string)
| OverflowError
| ReError.  (* re.error: the pattern does not compile *)

Inductive outcome (A : Type) :=
| Ok (a : A)
| Raise (e : exn).
Arguments Ok {A} a.
Arguments Raise {A} e.

Definition M (A : Type) : Type := World -> outcome A * World.

Definition ret {A} (a : A) : M A := fun w => (Ok a, w).

Definition bind {A B} (m : M A) (k : A -> M B) : M B :=
  fun w => match m w with
           | (Ok a, w') => k a w'
           | (Raise e, w') => (Raise e, w')
           end.

Definition raise {A} (e : exn) : M A := fun w => (Raise e, w).
Definition gets {A} (f : World -> A) : M A := fun w => (Ok (f w), w).
Definition modify (f : World -> World) : M unit := fun w => (Ok tt, f w).
Definition lift {A} (o : outcome A) : M A := fun w => (o, w).

Notation "x <- m ;; k" := (bind m (fun x => k))
  (at level 100, m at next level, right associativity).
Notation "m ;;; k" := (bind m (fun _ => k))
  (at level 100, right associativity).

(** [for x in l: s = body(s, x)] with the loop's local variables in [s]. *)
Fixpoint foldM {A St} (body : St -> A -> M St) (l : list A) (s : St) : M St :=
  match l with
  | [] => ret s
  | x :: l' => s' <- body s x ;; foldM body l' s'
  end.

(** [datetime.now()] *)
Definition now : M datetime :=
  fun w => (Ok (clock w (ticks w)), set_ticks (S (ticks w)) w).

(** [timedelta(days=days)], in microseconds. *)
Definition timedelta_days (days : Z) : outcome Z :=
  if 999999999 <? Z.abs days then Raise OverflowError else Ok (days * us_per_day).

(** [t - delta] on a datetime. *)
Definition datetime_sub (t : datetime) (delta : Z) : outcome datetime :=
  let r := t - delta in
  if (r <? 0) || (datetime_max <? r) then Raise OverflowError else Ok r.

(** [datetime.now() - timedelta(days=days)] *)
Definition now_minus_days (days : Z) : M datetime :=
  t <- now ;; delta <- lift (timedelta_days days) ;; lift (datetime_sub t delta).

(** ** KnowledgeGraphManager *)

(** What [_save_data] writes: all four collections, in full. *)
Definition snapshot (w : World) : Disk :=
  mkDisk (Some (od_values (entities w))) (Some (od_values (relations w)))
         (Some (queries w)) (Some (insights w)).

Definition _save_data : M unit := modify (fun w => set_disk (snapshot w) w).

(** Python's [max(a, b)] on floats: [b] if [b > a], else [a]. *)
Definition py_max (a b : float) : float := if PrimFloat.ltb a b then b else a.

(** [properties or {}] *)
Definition or_empty (properties : option (gmap string value)) : gmap string value :=
  default ∅ properties.

(** [d.update(p)]: keys of [p] overwrite. *)
Definition dict_update (d p : gmap string value) : gmap string value := p ∪ d.

Definition entity_id_of (name entity_type : string) : string :=
  md5_16 (name ++ "_" ++ entity_type).

(** [add_entity].  A property map is the value of the record's dict.  The
    code stores the dict it is given, not a copy, and updates it in place, so
    two records made from the same dict object share it and an upsert of one
    shows in the other; the frame statements about an upsert leave the
    property maps of the other records out for that reason. *)
Definition add_entity (name entity_type : string)
    (properties : option (gmap string value)) (confidence : float)
    (source : string) : M string :=
  let entity_id := entity_id_of name entity_type in
  ents <- gets entities ;;
  match od_get entity_id ents with
  | Some entity =>
      t <- now ;;
      modify (set_entities (od_set entity_id
        (mkEntity (ent_id entity) (ent_name entity) (ent_type entity)
           (dict_update (ent_properties entity) (or_empty properties))
           (py_max (ent_confidence entity) confidence)
           (ent_created_at entity) t (ent_source entity)) ents))
  | None =>
      t1 <- now ;; t2 <- now ;;
      modify (set_entities (od_set entity_id
        (mkEntity entity_id name entity_type (or_empty properties) confidence
           t1 t2 source) ents))
  end ;;;
  _save_data ;;;
  ret entity_id.

Definition relation_id_of (source_id relation_type target_id : string) : string :=
  md5_16 (source_id ++ "_" ++ relation_type ++ "_" ++ target_id).

(** [add_relation]; property maps as in [add_entity]. *)
Definition add_relation (source_id target_id relation_type : string)
    (properties : option (gmap string value)) (confidence : float)
    (source : string) : M string :=
  let relation_id := relation_id_of source_id relation_type target_id in
  rels <- gets relations ;;
  match od_get relation_id rels with
  | Some relation =>
      t <- now ;;
      modify (set_relations (od_set relation_id
        (mkRelation (rel_id relation) (rel_source_id relation)
           (rel_target_id relation) (rel_relation_type relation)
           (dict_update (rel_properties relation) (or_empty properties))
           (py_max (rel_confidence relation) confidence)
           (rel_created_at relation) t (rel_source relation)) rels))
  | None =>
      t1 <- now ;; t2 <- now ;;
      modify (set_relations (od_set relation_id
        (mkRelation relation_id source_id target_id relation_type
           (or_empty properties) confidence t1 t2 source) rels))
  end ;;;
  _save_data ;;;
  ret relation_id.

(** [sorted(l, key=key, reverse=True)] for float keys: stable, descending.
    (With a NaN key Python's order depends on the sort's comparison sequence;
    the two agree on keys that are totally ordered.) *)
Section sorted_desc.
Context {A : Type} (key : A -> float).

Fixpoint insert_desc (x : A) (l : list A) : list A :=
  match l with
  | [] => [x]
  | y :: l' =>
      if PrimFloat.ltb (key x) (key y) then y :: insert_desc x l' else x :: l
  end.

Definition sorted_desc (l : list A) : list A := fold_right insert_desc [] l.
End sorted_desc.

(** Truth value of an [Optional[str]]. *)
Definition truthy (o : option string) : bool :=
  match o with
  | Some s => negb (String.eqb s "")
  | None => false
  end.

(** [o and actual != o] *)
Definition differs (o : option string) (actual : string) : bool :=
  match o with
  | Some s => negb (String.eqb s "") && negb (String.eqb actual s)
  | None => false
  end.

Definition opt_value (o : option string) : value :=
  match o with Some s => VStr s | None => VNone end.

(** One iteration of the loop of [query_entities].  [re_search p s] is the
    outcome of the call [re.search(p, s, re.IGNORECASE)]: [Some found] when
    it returns ([found]: there is a match), [None] when it raises [re.error]
    because [p] does not compile.  The call is made only for an entity of
    the requested type and a pattern that is neither [None] nor empty. *)
Definition query_entities_step (re_search : string -> string -> option bool)
    (entity_type name_pattern : option string) (min_confidence : float)
    (results : list KnowledgeEntity) (entity : KnowledgeEntity)
    : M (list KnowledgeEntity) :=
  if differs entity_type (ent_type entity) then ret results
  else
    no_match <-
      match name_pattern with
      | Some p =>
          if String.eqb p "" then ret false
          else match re_search p (ent_name entity) with
               | Some found => ret (negb found)
               | None => raise ReError
               end
      | None => ret false
      end ;;
    if no_match then ret results
    else if PrimFloat.ltb (ent_confidence entity) min_confidence then ret results
    else ret (results ++ [entity]).

(** [query_entities]: an error of the pattern leaves the method from inside
    the loop, before the clock is read and the query recorded. *)
Definition query_entities (re_search : string -> string -> option bool)
    (entity_type name_pattern : option string) (min_confidence : float)
    : M (list KnowledgeEntity) :=
  ents <- gets entities ;;
  results <-
    foldM (query_entities_step re_search entity_type name_pattern min_confidence)
          (od_values ents) [] ;;
  t1 <- now ;; t2 <- now ;;
  let query :=
    mkQuery (md5_16 ("entities_" ++ isoformat t1))
      [FLit "type="; FOpt entity_type; FLit ", pattern="; FOpt name_pattern;
       FLit ", min_confidence="; FFloat min_confidence]
      "entity"
      [("entity_type", opt_value entity_type);
       ("name_pattern", opt_value name_pattern);
       ("min_confidence", VFloat min_confidence)]
      t2 in
  qs <- gets queries ;;
  modify (set_queries (qs ++ [query])) ;;;
  ret (sorted_desc ent_confidence results).

Definition relation_matches (source_id target_id relation_type : option string)
    (min_confidence : float) (relation : KnowledgeRelation) : bool :=
  negb (differs source_id (rel_source_id relation))
  && negb (differs target_id (rel_target_id relation))
  && negb (differs relation_type (rel_relation_type relation))
  && negb (PrimFloat.ltb (rel_confidence relation) min_confidence).

Definition query_relations (source_id target_id relation_type : option string)
    (min_confidence : float) : M (list KnowledgeRelation) :=
  rels <- gets relations ;;
  let results :=
    List.filter (relation_matches source_id target_id relation_type min_confidence)
           (od_values rels) in
  t1 <- now ;; t2 <- now ;;
  let query :=
    mkQuery (md5_16 ("relations_" ++ isoformat t1))
      [FLit "source="; FOpt source_id; FLit ", target="; FOpt target_id;
       FLit ", type="; FOpt relation_type;
       FLit ", min_confidence="; FFloat min_confidence]
      "relation"
      [("source_id", opt_value source_id);
       ("target_id", opt_value target_id);
       ("relation_type", opt_value relation_type);
       ("min_confidence", VFloat min_confidence)]
      t2 in
  qs <- gets queries ;;
  modify (set_queries (qs ++ [query])) ;;;
  ret (sorted_desc rel_confidence results).

(** The local function [dfs] of [find_path].  Its state is the pair of the
    closure variables [visited] and [paths]; [fuel] bounds the nesting of
    calls, which is at most [max_depth + 2]. *)
Fixpoint dfs (fuel : nat) (rels : list KnowledgeRelation) (target_id : string)
    (max_depth : Z) (current_id : string) (path : list string) (depth : Z)
    (st : gset string * list (list string)) : gset string * list (list string) :=
  match fuel with
  | O => st
  | S fuel' =>
      if max_depth <? depth then st
      else if String.eqb current_id target_id && (1 <? length path)%nat
      then (st.1, st.2 ++ [path])
      else if bool_decide (current_id ∈ st.1) then st
      else
        let st1 := ({[current_id]} ∪ st.1, st.2) in
        let st2 :=
          fold_left (fun st relation =>
            if String.eqb (rel_source_id relation) current_id
            then dfs fuel' rels target_id max_depth (rel_target_id relation)
                   (path ++ [rel_relation_type relation; rel_target_id relation])
                   (depth + 1) st
            else st) rels st1 in
        (st2.1 ∖ {[current_id]}, st2.2)
  end.

Definition dfs_fuel (max_depth : Z) : nat := S (Z.to_nat (max_depth + 1)).

Definition find_path (source_id target_id : string) (max_depth : Z)
    : M (list (list string)) :=
  rels <- gets relations ;;
  let paths :=
    (dfs (dfs_fuel max_depth) (od_values rels) target_id max_depth
         source_id [source_id] 0 (∅, [])).2 in
  t1 <- now ;; t2 <- now ;;
  let query :=
    mkQuery (md5_16 ("path_" ++ isoformat t1))
      [FLit "path from "; FLit source_id; FLit " to "; FLit target_id;
       FLit ", max_depth="; FInt max_depth]
      "path"
      [("source_id", VStr source_id); ("target_id", VStr target_id);
       ("max_depth", VInt max_depth)]
      t2 in
  qs <- gets queries ;;
  modify (set_queries (qs ++ [query])) ;;;
  ret paths.

(** [collections.Counter(l)]: counts by key, keys in order of first
    occurrence. *)
Definition counter_incr (c : list (string * nat)) (k : string) : list (string * nat) :=
  match od_get k c with
  | Some n => od_set k (S n) c
  | None => od_set k 1%nat c
  end.

Definition Counter (l : list string) : list (string * nat) :=
  fold_left counter_incr l [].

(** [max(items, key=lambda x: x[1])]: the first item of maximal count. *)
Definition max_by_count (items : list (string * nat)) : option (string * nat) :=
  match items with
  | [] => None
  | x :: l =>
      Some (fold_left (fun best item =>
              if (snd best <? snd item)%nat then item else best) l x)
  end.

(** [sorted(items, key=lambda x: x[1], reverse=True)] on counts. *)
Fixpoint insert_by_count (x : string * nat) (l : list (string * nat))
    : list (string * nat) :=
  match l with
  | [] => [x]
  | y :: l' => if (snd x <? snd y)%nat then y :: insert_by_count x l' else x :: l
  end.

Definition sorted_by_count (l : list (string * nat)) : list (string * nat) :=
  fold_right insert_by_count [] l.

(** An int as a float (exact below 2^53). *)
Definition float_of_nat (n : nat) : float :=
  PrimFloat.of_uint63 (Uint63.of_Z (Z.of_nat n)).

(** [node_degrees]: each relation counts once for its source and once for
    its target. *)
Definition node_degrees (rels : list KnowledgeRelation) : list (string * nat) :=
  fold_left (fun d relation =>
    counter_incr (counter_incr d (rel_source_id relation)) (rel_target_id relation))
    rels [].

Definition entity_distribution_title : string := "实体类型分布分析".
Definition relation_distribution_title : string := "关系类型分布分析".
Definition connectivity_title : string := "连接度分析".

Definition analyze_patterns : M (list KnowledgeInsight) :=
  ents <- gets entities ;;
  rels <- gets relations ;;
  let entity_types := Counter (map ent_type (od_values ents)) in
  insights1 <-
    match max_by_count entity_types with
    | Some most_common_type =>
        t1 <- now ;; t2 <- now ;;
        ret [mkInsight (md5_16 ("entity_distribution_" ++ isoformat t1))
               entity_distribution_title
               [FLit "最常见的实体类型是 '"; FLit (fst most_common_type);
                FLit "'，占比 ";
                FFixed1 (float_of_nat (snd most_common_type)
                         / float_of_nat (length ents) * 100)%float;
                FLit "%"]
               "pattern" 0.9%float
               [[FLit "实体类型统计: "; FCounts entity_types]] t2]
    | None => ret []
    end ;;
  let relation_types := Counter (map rel_relation_type (od_values rels)) in
  insights2 <-
    match max_by_count relation_types with
    | Some most_common_relation =>
        t1 <- now ;; t2 <- now ;;
        ret (insights1 ++
             [mkInsight (md5_16 ("relation_distribution_" ++ isoformat t1))
               relation_distribution_title
               [FLit "最常见的关系类型是 '"; FLit (fst most_common_relation);
                FLit "'，占比 ";
                FFixed1 (float_of_nat (snd most_common_relation)
                         / float_of_nat (length rels) * 100)%float;
                FLit "%"]
               "pattern" 0.9%float
               [[FLit "关系类型统计: "; FCounts relation_types]] t2])
    | None => ret insights1
    end ;;
  let degrees := node_degrees (od_values rels) in
  insights3 <-
    match max_by_count degrees with
    | Some max_degree_node =>
        match od_get (fst max_degree_node) ents with
        | Some entity =>
            t1 <- now ;; t2 <- now ;;
            ret (insights2 ++
                 [mkInsight (md5_16 ("connectivity_" ++ isoformat t1))
                   connectivity_title
                   [FLit "'"; FLit (ent_name entity);
                    FLit "' 是连接度最高的实体，有 ";
                    FInt (Z.of_nat (snd max_degree_node)); FLit " 个连接"]
                   "pattern" 0.8%float
                   [[FLit "节点连接度: ";
                     FCounts (firstn 5 (sorted_by_count degrees))]] t2])
        | None => ret insights2
        end
    | None => ret insights2
    end ;;
  old <- gets insights ;;
  modify (set_insights (old ++ insights3)) ;;;
  _save_data ;;;
  ret insights3.

(** [sum(xs)] on floats: left to right from 0. *)
Definition float_sum (xs : list float) : float :=
  fold_left PrimFloat.add xs 0%float.

(** [len([x for x in l if stamp(x) > datetime.now() - timedelta(days=days)])]:
    the clock is read once per element. *)
Definition count_recent {A} (stamp : A -> datetime) (days : Z) (l : list A) : M nat :=
  foldM (fun n x =>
           cutoff <- now_minus_days days ;;
           ret (if cutoff <? stamp x then S n else n)) l O.

Definition get_statistics : M Statistics :=
  ents <- gets entities ;;
  rels <- gets relations ;;
  qs <- gets queries ;;
  ins <- gets insights ;;
  let entity_types := Counter (map ent_type (od_values ents)) in
  let relation_types := Counter (map rel_relation_type (od_values rels)) in
  let avg_entity_confidence :=
    match ents with
    | [] => NInt 0
    | _ => NRound 3 (float_sum (map ent_confidence (od_values ents))
                     / float_of_nat (length ents))%float
    end in
  let avg_relation_confidence :=
    match rels with
    | [] => NInt 0
    | _ => NRound 3 (float_sum (map rel_confidence (od_values rels))
                     / float_of_nat (length rels))%float
    end in
  let degrees := node_degrees (od_values rels) in
  let avg_degree :=
    match degrees with
    | [] => NInt 0
    | _ => NRound 2 (float_of_nat (list_sum (od_values degrees))
                     / float_of_nat (length degrees))%float
    end in
  let max_degree := fold_right Nat.max O (od_values degrees) in
  recent_24h <- count_recent timestamp 1 qs ;;
  recent_7d <- count_recent ins_created_at 7 ins ;;
  ret (mkStatistics (length ents) entity_types avg_entity_confidence
         (length rels) relation_types avg_relation_confidence
         avg_degree max_degree (length degrees)
         (length qs) recent_24h (length ins) recent_7d).

(** The double quote character. *)
Definition dq : string := String (ascii_of_nat 34) EmptyString.

Definition graphml_node (entity : KnowledgeEntity) : list text :=
  [ [FLit "<node id="; FLit dq; FLit (ent_id entity); FLit dq; FLit ">"];
    [FLit "<data key="; FLit dq; FLit "name"; FLit dq; FLit ">";
     FLit (ent_name entity); FLit "</data>"];
    [FLit "<data key="; FLit dq; FLit "type"; FLit dq; FLit ">";
     FLit (ent_type entity); FLit "</data>"];
    [FLit "<data key="; FLit dq; FLit "confidence"; FLit dq; FLit ">";
     FFloat (ent_confidence entity); FLit "</data>"];
    [FLit "</node>"] ].

Definition graphml_edge (relation : KnowledgeRelation) : list text :=
  [ [FLit "<edge source="; FLit dq; FLit (rel_source_id relation); FLit dq;
     FLit " target="; FLit dq; FLit (rel_target_id relation); FLit dq; FLit ">"];
    [FLit "<data key="; FLit dq; FLit "type"; FLit dq; FLit ">";
     FLit (rel_relation_type relation); FLit "</data>"];
    [FLit "<data key="; FLit dq; FLit "confidence"; FLit dq; FLit ">";
     FFloat (rel_confidence relation); FLit "</data>"];
    [FLit "</edge>"] ].

Definition graphml_content (ents : list KnowledgeEntity)
    (rels : list KnowledgeRelation) : list text :=
  [ [FLit "<?xml version="; FLit dq; FLit "1.0"; FLit dq; FLit " encoding=";
     FLit dq; FLit "UTF-8"; FLit dq; FLit "?>"];
    [FLit "<graphml xmlns="; FLit dq;
     FLit "http://graphml.graphdrawing.org/xmlns"; FLit dq; FLit ">"];
    [FLit "<graph id="; FLit dq; FLit "knowledge_graph"; FLit dq;
     FLit " edgedefault="; FLit dq; FLit "directed"; FLit dq; FLit ">"] ]
  ++ concat (map graphml_node ents)
  ++ concat (map graphml_edge rels)
  ++ [ [FLit "</graph>"]; [FLit "</graphml>"] ].

(** [open(path, 'w')] followed by a write of [doc]. *)
Definition write_output (path : string) (doc : Document) : M unit :=
  outs <- gets outputs ;; modify (set_outputs (od_set path doc outs)).

Definition export_graph (format_type : string) : M string :=
  t <- now ;;
  let timestamp := strftime_Ymd_HMS t in
  if String.eqb format_type "json" then
    t' <- now ;;
    statistics <- get_statistics ;;
    ents <- gets entities ;;
    rels <- gets relations ;;
    ins <- gets insights ;;
    let export_data :=
      JsonExport (isoformat t') "1.0" statistics
                 (od_values ents) (od_values rels) ins in
    let export_path :=
      ("outputs/knowledge/knowledge_graph_export_" ++ timestamp ++ ".json")%string in
    write_output export_path export_data ;;;
    ret export_path
  else if String.eqb format_type "graphml" then
    ents <- gets entities ;;
    rels <- gets relations ;;
    let export_path :=
      ("outputs/knowledge/knowledge_graph_export_" ++ timestamp ++ ".graphml")%string in
    write_output export_path
      (GraphMLExport (graphml_content (od_values ents) (od_values rels))) ;;;
    ret export_path
  else raise (ValueError ("Unsupported export format: " ++ format_type)).

Record CleanupResult := mkCleanupResult {
  cleaned_queries : nat;
  cleaned_insights : nat;
  remaining_queries : nat;
  remaining_insights : nat }.

(** [days], or [self.config.get('retention_days', 365)] when it is [None]. *)
Definition effective_days (days : option Z) (w : World) : Z :=
  match days with
  | Some d => d
  | None => default 365 (retention_days w)
  end.

Definition cleanup_old_data (days : option Z) : M CleanupResult :=
  days <- gets (effective_days days) ;;
  cutoff_date <- now_minus_days days ;;
  qs <- gets queries ;;
  let old_queries := List.filter (fun q => timestamp q <? cutoff_date) qs in
  modify (set_queries (List.filter (fun q => cutoff_date <=? timestamp q) qs)) ;;;
  ins <- gets insights ;;
  let old_insights := List.filter (fun i => ins_created_at i <? cutoff_date) ins in
  modify (set_insights (List.filter (fun i => cutoff_date <=? ins_created_at i) ins)) ;;;
  _save_data ;;;
  qs' <- gets queries ;;
  ins' <- gets insights ;;
  ret (mkCleanupResult (length old_queries) (length old_insights)
                       (length qs') (length ins')).

(** ** KnowledgeReasoner *)

(** [relation_graph]: source id to the list of its target ids, sources in
    order of first occurrence. *)
Definition graph_add (g : list (string * list string)) (relation : KnowledgeRelation)
    : list (string * list string) :=
  match od_get (rel_source_id relation) g with
  | Some targets =>
      od_set (rel_source_id relation) (targets ++ [rel_target_id relation]) g
  | None => od_set (rel_source_id relation) [rel_target_id relation] g
  end.

Definition relation_graph (rels : list KnowledgeRelation) : list (string * list string) :=
  fold_left graph_add rels [].

Definition inferred_properties : gmap string value :=
  <["inferred" := VBool true]> (<["inference_type" := VStr "transitive"]> ∅).

(** The body of the innermost loop of [infer_transitive_relations]. *)
Definition check_chain (relation_type source : string)
    (new_relations : list (string * string)) (target : string)
    : M (list (string * string)) :=
  if negb (String.eqb target source) then
    existing <- query_relations (Some source) (Some target) (Some relation_type) 0 ;;
    match existing with
    | [] => ret (new_relations ++ [(source, target)])
    | _ => ret new_relations
    end
  else ret new_relations.

Definition infer_transitive_relations (relation_type : string)
    : M (list (string * string)) :=
  rels <- query_relations None None (Some relation_type) 0 ;;
  let g := relation_graph rels in
  new_relations <-
    foldM (fun acc source =>
      foldM (fun acc intermediate =>
        match od_get intermediate g with
        | Some targets => foldM (check_chain relation_type source) targets acc
        | None => ret acc
        end) (default [] (od_get source g)) acc)
      (od_keys g) [] ;;
  foldM (fun _ '(source_id, target_id) =>
           add_relation source_id target_id relation_type
             (Some inferred_properties) 0.6 "reasoning" ;;; ret tt)
        new_relations tt ;;;
  ret new_relations.

(** [str.lower()] and [str.split()], on the ASCII range: letters A-Z are
    lowered, and the separators are the ASCII whitespace characters. *)
Definition lower_char (c : ascii) : ascii :=
  let n := nat_of_ascii c in
  if (65 <=? n)%nat && (n <=? 90)%nat then ascii_of_nat (n + 32) else c.

Fixpoint lower (s : string) : string :=
  match s with
  | EmptyString => EmptyString
  | String c s' => String (lower_char c) (lower s')
  end.

Definition is_space (c : ascii) : bool :=
  let n := nat_of_ascii c in
  ((9 <=? n)%nat && (n <=? 13)%nat) || ((28 <=? n)%nat && (n <=? 32)%nat).

(** [cur] is the word being read, reversed. *)
Fixpoint split_aux (s : string) (cur : list ascii) : list string :=
  let flush := match cur with
               | [] => []
               | _ => [string_of_list_ascii (rev cur)]
               end in
  match s with
  | EmptyString => flush
  | String c s' =>
      if is_space c then flush ++ split_aux s' [] else split_aux s' (c :: cur)
  end.

Definition split (s : string) : list string := split_aux s [].

(** Python's [min(a, b)] on floats: [b] if [b < a], else [a]. *)
Definition py_min (a b : float) : float := if PrimFloat.ltb b a then b else a.

(** [len(a & b) / len(a | b) if len(a | b) > 0 else 0] *)
Definition jaccard (a b : gset string) : float :=
  if (0 <? size (a ∪ b))%nat
  then (float_of_nat (size (a ∩ b)) / float_of_nat (size (a ∪ b)))%float
  else 0%float.

Definition nonempty (a : gset string) : bool := negb (size a =? 0)%nat.

Definition _calculate_similarity (entity1 entity2 : KnowledgeEntity) : float :=
  let similarity := 0%float in
  let similarity :=
    if String.eqb (ent_type entity1) (ent_type entity2)
    then (similarity + 0.3)%float else similarity in
  let name1_words : gset string := list_to_set (split (lower (ent_name entity1))) in
  let name2_words : gset string := list_to_set (split (lower (ent_name entity2))) in
  let similarity :=
    if nonempty name1_words && nonempty name2_words
    then (similarity + jaccard name1_words name2_words * 0.4)%float
    else similarity in
  let props1 : gset string := dom (ent_properties entity1) in
  let props2 : gset string := dom (ent_properties entity2) in
  let similarity :=
    if nonempty props1 && nonempty props2
    then (similarity + jaccard props1 props2 * 0.3)%float
    else similarity in
  py_min similarity 1.

Definition find_similar_entities (entity_id : string) (similarity_threshold : float)
    : M (list string) :=
  ents <- gets entities ;;
  match od_get entity_id ents with
  | None => ret []
  | Some target_entity =>
      similar_entities <-
        foldM (fun acc '(other_id, other_entity) =>
          if String.eqb other_id entity_id then ret acc
          else
            let similarity := _calculate_similarity target_entity other_entity in
            if PrimFloat.leb similarity_threshold similarity then
              existing <- query_relations (Some entity_id) (Some other_id)
                                          (Some "similar_to") 0 ;;
              match existing with
              | [] =>
                  add_relation entity_id other_id "similar_to"
                    (Some (<["similarity_score" := VFloat similarity]>
                             (<["inferred" := VBool true]> ∅)))
                    similarity "reasoning" ;;; ret tt
              | _ => ret tt
              end ;;;
              ret (acc ++ [(other_id, similarity)])
            else ret acc) ents [] ;;
      ret (map fst (sorted_desc snd similar_entities))
  end.

Definition type_based_relations : list (string * list string) :=
  [ ("function", ["uses"; "implements"; "calls"]);
    ("class", ["extends"; "implements"; "contains"]);
    ("library", ["provides"; "depends_on"]);
    ("error", ["caused_by"; "related_to"]);
    ("file", ["contains"; "imports"]) ].

Definition type_compatibility : list ((string * string * string) * float) :=
  [ (("function", "library", "uses"), 0.8%float);
    (("class", "class", "extends"), 0.9%float);
    (("function", "function", "calls"), 0.7%float);
    (("error", "file", "occurs_in"), 0.8%float);
    (("file", "library", "imports"), 0.8%float) ].

Fixpoint compat_get (key : string * string * string)
    (d : list ((string * string * string) * float)) : option float :=
  match d with
  | [] => None
  | (k, v) :: d' => if bool_decide (key = k) then Some v else compat_get key d'
  end.

Definition _calculate_relation_confidence (source target : KnowledgeEntity)
    (relation_type : string) : float :=
  let confidence := 0%float in
  let key := (ent_type source, ent_type target, relation_type) in
  let confidence :=
    match compat_get key type_compatibility with
    | Some c => (confidence + c)%float
    | None => (confidence + 0.3)%float
    end in
  let name_similarity := _calculate_similarity source target in
  let confidence := (confidence + name_similarity * 0.2)%float in
  py_min confidence 1.

Record Recommendation := mkRecommendation {
  rec_source_id : string;
  rec_target_id : string;
  rec_relation_type : string;
  rec_confidence : float;
  rec_reason : string }.

(** [l[:n]] *)
Definition slice_to {A} (n : Z) (l : list A) : list A :=
  if n <? 0 then firstn (length l - Z.to_nat (- n)) l else firstn (Z.to_nat n) l.

Definition recommend_relations (entity_id : string) (max_recommendations : Z)
    : M (list Recommendation) :=
  ents <- gets entities ;;
  match od_get entity_id ents with
  | None => ret []
  | Some entity =>
      let suggested_relations :=
        default ["related_to"] (od_get (ent_type entity) type_based_relations) in
      recommendations <-
        foldM (fun acc '(other_id, other_entity) =>
          if String.eqb other_id entity_id then ret acc
          else
            foldM (fun acc relation_type =>
              existing <- query_relations (Some entity_id) (Some other_id)
                                          (Some relation_type) 0 ;;
              match existing with
              | [] =>
                  let confidence :=
                    _calculate_relation_confidence entity other_entity relation_type in
                  if PrimFloat.ltb 0.5 confidence then
                    ret (acc ++
                         [mkRecommendation entity_id other_id relation_type confidence
                            ("Based on entity types: " ++ ent_type entity
                             ++ " -> " ++ ent_type other_entity)])
                  else ret acc
              | _ => ret acc
              end) suggested_relations acc) ents [] ;;
      ret (slice_to max_recommendations (sorted_desc rec_confidence recommendations))
  end.

(** ** Loading *)

(** [_load_data]: each file that exists is read; entities and relations are
    stored under the id each record carries, in file order, and the query
    and insight lists replace the ones in memory. *)
Definition _load_data : M unit :=
  d <- gets disk ;;
  match entities_file d with
  | Some entities_data =>
      ents <- gets entities ;;
      modify (set_entities
                (fold_left (fun acc entity => od_set (ent_id entity) entity acc)
                           entities_data ents))
  | None => ret tt
  end ;;;
  match relations_file d with
  | Some relations_data =>
      rels <- gets relations ;;
      modify (set_relations
                (fold_left (fun acc relation => od_set (rel_id relation) relation acc)
                           relations_data rels))
  | None => ret tt
  end ;;;
  match queries_file d with
  | Some queries_data => modify (set_queries queries_data)
  | None => ret tt
  end ;;;
  match insights_file d with
  | Some insights_data => modify (set_insights insights_data)
  | None => ret tt
  end.

(** [__init__] on a disk that is already there: the four collections start
    empty and [_load_data] fills them. *)
Definition __init__ : M unit :=
  modify (set_entities []) ;;;
  modify (set_relations []) ;;;
  modify (set_queries []) ;;;
  modify (set_insights []) ;;;
  _load_data.

(** ** Initial worlds *)

Definition no_files : Disk := mkDisk None None None None.

(** A manager constructed where no configuration and no data file exists. *)
Definition fresh_world (clk : nat -> datetime) : World :=
  mkWorld [] [] [] [] (Some 365) no_files [] clk O.

(** A clock that starts at 2026-11-04T10:00:00 and advances by one
    microsecond per reading. *)
Definition ticking_clock (n : nat) : datetime :=
  (739924 - 1) * us_per_day + 10 * 3600000000 + Z.of_nat n.

(** A clock that returns the same instant at every reading (readings
    closer together than the clock's resolution). *)
Definition frozen_clock (n : nat) : datetime := ticking_clock 0.

(** The durability-on-return contract: the four files hold the four
    collections as they are in memory. *)
Definition durable (w : World) : Prop := disk w = snapshot w.

(** ** Vocabulary of the statements *)

(** Number of occurrences of [k] in [l]. *)
Definition count_of (k : string) (l : list string) : nat :=
  length (List.filter (String.eqb k) l).

(** [k] occurs in [l] at least as often as any other string. *)
Definition most_frequent (k : string) (l : list string) : Prop :=
  k ∈ l ∧ ∀ k', (count_of k' l ≤ count_of k l)%nat.

(** The endpoints of the relations, source then target, with repetition: the
    degree of a node is the number of its occurrences. *)
Definition endpoints (rels : list KnowledgeRelation) : list string :=
  flat_map (fun relation => [rel_source_id relation; rel_target_id relation]) rels.

(** The loop [for relation in self.relations.values()] inside [dfs], over
    the relations [l] still to visit. *)
Definition dfs_loop (fuel : nat) (rels : list KnowledgeRelation) (target_id : string)
    (max_depth : Z) (current_id : string) (path : list string) (depth : Z)
    (l : list KnowledgeRelation) (st : gset string * list (list string))
    : gset string * list (list string) :=
  fold_left (fun st relation =>
    if String.eqb (rel_source_id relation) current_id
    then dfs fuel rels target_id max_depth (rel_target_id relation)
           (path ++ [rel_relation_type relation; rel_target_id relation])
           (depth + 1) st
    else st) l st.

(** [relation] goes from [a] to [b] with type [ty]. *)
Definition joins (relation : KnowledgeRelation) (a ty b : string) : Prop :=
  rel_source_id relation = a ∧ rel_relation_type relation = ty
  ∧ rel_target_id relation = b.

(** What [query_relations] returns on the relations [rels]. *)
Definition matching_relations (rels : list KnowledgeRelation)
    (source_id target_id relation_type : option string) : list KnowledgeRelation :=
  sorted_desc rel_confidence
    (List.filter (relation_matches source_id target_id relation_type 0) rels).

(** The (source, target) pairs [infer_transitive_relations] examines, in
    the order of its three nested loops: one entry per chain source ->
    intermediate -> target with target other than source. *)
Definition candidate_pairs (g : list (string * list string)) : list (string * string) :=
  flat_map (fun source =>
    flat_map (fun intermediate =>
      match od_get intermediate g with
      | Some targets =>
          flat_map (fun target =>
                      if negb (String.eqb target source)
                      then [(source, target)] else [])
                   targets
      | None => []
      end)
      (default [] (od_get source g)))
    (od_keys g).

(** No direct relation of the type joins the pair. *)
Definition lacks_direct (rels : list KnowledgeRelation) (relation_type : string)
    (pair : string * string) : bool :=
  match matching_relations rels (Some pair.1) (Some pair.2) (Some relation_type) with
  | [] => true
  | _ => false
  end.



(** A computation that can fail only with [OverflowError]. *)
Definition overflow_only {A} (m : M A) : Prop :=
  ∀ w e, fst (m w) = Raise e → e = OverflowError.

(** A loop body that examines the pairs [cands x] on a store whose
    relations are [RR]: it appends those that lack a direct relation of the
    type, records one query per pair and leaves the relations alone. *)
Definition scans {A} (RR : list (string * KnowledgeRelation)) (relation_type : string)
    (body : list (string * string) → A → M (list (string * string)))
    (cands : A → list (string * string)) : Prop :=
  ∀ acc x w, relations w = RR →
    ∃ w', body acc x w
          = (Ok (acc ++ List.filter (lacks_direct (od_values RR) relation_type) (cands x)),
             w')
          ∧ relations w' = RR
          ∧ length (queries w') = (length (queries w) + length (cands x))%nat.

(** The second loop of [infer_transitive_relations]. *)
Definition add_inferred (relation_type : string) (new_relations : list (string * string))
    : M unit :=
  foldM (fun _ '(source_id, target_id) =>
           add_relation source_id target_id relation_type
             (Some inferred_properties) 0.6 "reasoning" ;;; ret tt)
        new_relations tt.

(** [query_relations] with its default floor of 0.0 returns [relation]:
    its confidence is not below zero. *)
Definition visible (relation : KnowledgeRelation) : Prop :=
  PrimFloat.ltb (rel_confidence relation) 0 = false.

(** A float that is not NaN. *)
Definition is_number (x : float) : Prop := Prim2SF x ≠ S754_nan.

(** Every record is stored under the id it carries, and no key occurs
    twice: what [add_entity] and [add_relation] establish. *)
Definition keyed_by_id {V} (id_of : V -> string) (d : list (string * V)) : Prop :=
  NoDup (od_keys d) ∧ ∀ k v, (k, v) ∈ d → id_of v = k.

Definition store_keyed (w : World) : Prop :=
  keyed_by_id ent_id (entities w) ∧ keyed_by_id rel_id (relations w).

(** The characters of [hexdigest()]. *)
Definition is_hex_char (c : ascii) : bool :=
  let n := nat_of_ascii c in
  ((48 <=? n)%nat && (n <=? 57)%nat) || ((97 <=? n)%nat && (n <=? 102)%nat).

Fixpoint all_chars (P : ascii -> bool) (s : string) : bool :=
  match s with
  | EmptyString => true
  | String c s' => P c && all_chars P s'
  end.

(** [p] is a walk in [rels]: an alternating list node, relation type, node,
    ..., node in which every step is a relation of the store. *)
Fixpoint is_walk (rels : list KnowledgeRelation) (p : list string) : Prop :=
  match p with
  | [] => False
  | [a] => True
  | a :: ty :: rest =>
      match rest with
      | [] => False
      | b :: _ => (∃ r, r ∈ rels ∧ joins r a ty b) ∧ is_walk rels rest
      end
  end.

(** The computation [m] keeps the property [I] of the world, whether it
    returns or raises. *)
Definition preserves (I : World -> Prop) {A} (m : M A) : Prop :=
  ∀ w, I w → I (snd (m w)).

(** [l] is in descending order of [key]: no element is strictly below its
    successor. *)
Fixpoint descending {A} (key : A -> float) (l : list A) : Prop :=
  match l with
  | [] => True
  | x :: l' =>
      match l' with
      | [] => True
      | y :: _ => PrimFloat.ltb (key x) (key y) = false ∧ descending key l'
      end
  end.

(** The filter of [query_relations], clause by clause. *)
Definition passes (filter_value : option string) (actual : string) : Prop :=
  ∀ s, filter_value = Some s → s ≠ "" → actual = s.

(** The path [find_path] writes for the walk that starts at [source_id]
    and follows the relations [steps]. *)
Definition path_of (source_id : string) (steps : list KnowledgeRelation) : list string :=
  source_id :: flat_map (fun r => [rel_relation_type r; rel_target_id r]) steps.

(** [steps] is a chain of relations leaving [start]: each one leaves the node
    the one before it reaches. *)
Fixpoint chain_from (start : string) (steps : list KnowledgeRelation) : Prop :=
  match steps with
  | [] => True
  | r :: steps' => rel_source_id r = start ∧ chain_from (rel_target_id r) steps'
  end.

(** What holds of the [path] argument at every call of [dfs] in a search
    from [source_id]. *)
Definition path_inv (rels : list KnowledgeRelation) (source_id : string)
    (path : list string) (cur : string) (depth : Z) : Prop :=
  head path = Some source_id ∧ last path = Some cur ∧ is_walk rels path
  ∧ Z.of_nat (length path) = 2 * depth + 1.

(** What holds of every path found. *)
Definition path_found (rels : list KnowledgeRelation) (source_id target_id : string)
    (max_depth : Z) (p : list string) : Prop :=
  head p = Some source_id ∧ last p = Some target_id ∧ is_walk rels p
  ∧ 3 ≤ Z.of_nat (length p) ≤ 2 * max_depth + 1
  ∧ Z.odd (Z.of_nat (length p)) = true.

(** Some stored relation passes the existence check for the pair:
    [query_relations(source_id, target_id, relation_type)] returns it. *)
Definition has_direct (rels : list KnowledgeRelation) (relation_type s t : string)
    : Prop :=
  ∃ r, r ∈ rels ∧ relation_matches (Some s) (Some t) (Some relation_type) 0 r = true.

(** [query_relations(relation_type=ty)] lists [relation]: it has the type
    (any type when [ty] is the empty string) and its confidence is not below
    zero. *)
Definition listed (ty : string) (relation : KnowledgeRelation) : Prop :=
  passes (Some ty) (rel_relation_type relation) ∧ visible relation.

(** Two listed relations lead from [s] over an intermediate node to [t]. *)
Definition two_step_chain (rels : list KnowledgeRelation) (ty s t : string) : Prop :=
  ∃ ra rb, ra ∈ rels ∧ rb ∈ rels ∧ listed ty ra ∧ listed ty rb
           ∧ rel_source_id ra = s ∧ rel_target_id ra = rel_source_id rb
           ∧ rel_target_id rb = t.


(** What holds of a recommendation made for [entity_id] on the store [w]. *)
Definition well_founded_recommendation (w : World) (entity_id : string)
    (entity : KnowledgeEntity) (r : Recommendation) : Prop :=
  rec_source_id r = entity_id
  ∧ rec_target_id r ≠ entity_id
  ∧ rec_relation_type r
    ∈ default ["related_to"] (od_get (ent_type entity) type_based_relations)
  ∧ PrimFloat.ltb 0.5 (rec_confidence r) = true
  ∧ ¬ has_direct (od_values (relations w)) (rec_relation_type r)
        entity_id (rec_target_id r)
  ∧ ∃ other, (rec_target_id r, other) ∈ entities w
             ∧ rec_confidence r
               = _calculate_relation_confidence entity other (rec_relation_type r)
             ∧ rec_reason r
               = ("Based on entity types: " ++ ent_type entity
                  ++ " -> " ++ ent_type other)%string.

(** An entity without its property map.  The code holds every property
    map by reference (the caller's dict is stored as it is given and updated
    in place), so records made from one dict share it; the other fields are
    immutable values of the record itself. *)
Definition entity_header (e : KnowledgeEntity)
    : string * string * string * float * datetime * datetime * string :=
  (ent_id e, ent_name e, ent_type e, ent_confidence e,
   ent_created_at e, ent_updated_at e, ent_source e).

(** A relation without its property map. *)
Definition relation_header (r : KnowledgeRelation)
    : string * string * string * string * float * datetime * datetime * string :=
  (rel_id r, rel_source_id r, rel_target_id r, rel_relation_type r,
   rel_confidence r, rel_created_at r, rel_updated_at r, rel_source r).

(** A collection of records, key by key and in order, without the property
    maps. *)
Definition headers {V H} (header : V → H) (d : list (string * V)) : list (string * H) :=
  map (fun kv => (kv.1, header kv.2)) d.

(** The three tests of [query_entities] on one entity, for a pattern that
    compiles: [matcher p s] tells whether [p] has a match in [s]. *)
Definition entity_matches (matcher : string → string → bool)
    (entity_type name_pattern : option string) (min_confidence : float)
    (entity : KnowledgeEntity) : bool :=
  negb (differs entity_type (ent_type entity))
  && negb (match name_pattern with
           | Some p => negb (String.eqb p "") && negb (matcher p (ent_name entity))
           | None => false
           end)
  && negb (PrimFloat.ltb (ent_confidence entity) min_confidence).

(** The calls of [re.search] that [query_entities] can make on the store
    [w] all return: the pattern is absent, empty, or compiles. *)
Definition pattern_compiles (re_search : string → string → option bool)
    (name_pattern : option string) (w : World) : Prop :=
  ∀ p e, name_pattern = Some p → p ≠ "" → e ∈ od_values (entities w) →
         is_Some (re_search p (ent_name e)).

(** Run a method, keep the world. *)
Definition exec {A} (m : M A) (w : World) : World := snd (m w).
Definition result {A} (m : M A) (w : World) : outcome A := fst (m w).

(** * Properties *)

Arguments md5_16 : simpl never.
Arguments isoformat : simpl never.
Arguments strftime_Ymd_HMS : simpl never.

(** ** The hash and the calendar agree with the Python library on samples *)

Example md5_empty : MD5.hexdigest "" = "d41d8cd98f00b204e9800998ecf8427e".
Proof. vm_compute. reflexivity. Qed.

Example md5_abc : MD5.hexdigest "abc" = "900150983cd24fb0d6963f7d28e17f72".
Proof. vm_compute. reflexivity. Qed.

Example md5_two_blocks :
  MD5.hexdigest "entities_2026-11-04T10:00:00.000001_and_a_tail_that_needs_two_blocks_to_hash"
  = "7325df98a15fc2f067bb9b047148538f".
Proof. vm_compute. reflexivity. Qed.

Example isoformat_min : isoformat 0 = "0001-01-01T00:00:00".
Proof. vm_compute. reflexivity. Qed.

Example isoformat_leap_day :
  isoformat ((730179 - 1) * us_per_day + 86399999999) = "2000-02-29T23:59:59.999999".
Proof. vm_compute. reflexivity. Qed.

Example isoformat_max : isoformat datetime_max = "9999-12-31T23:59:59.999999".
Proof. vm_compute. reflexivity. Qed.

Example isoformat_ticking : isoformat (ticking_clock 1) = "2026-11-04T10:00:00.000001".
Proof. vm_compute. reflexivity. Qed.

(** ** Ordered dictionaries *)

Section odict_facts.
Context {V : Type}.
Implicit Types (d : list (string * V)) (k : string) (v : V).

Lemma od_get_set_eq k v d : od_get k (od_set k v d) = Some v.
Proof.
  induction d as [|[k' v'] d IH]; simpl.
  - by rewrite String.eqb_refl.
  - destruct (String.eqb k k') eqn:E; simpl; rewrite E; [done | apply IH].
Qed.

Lemma od_get_set_ne k k' v d : k ≠ k' → od_get k' (od_set k v d) = od_get k' d.
Proof.
  intros Hne. induction d as [|[k0 v0] d IH]; simpl.
  - destruct (String.eqb k' k) eqn:E; [|done].
    apply String.eqb_eq in E. congruence.
  - destruct (String.eqb k k0) eqn:E; simpl.
    + apply String.eqb_eq in E. subst k0.
      destruct (String.eqb k' k) eqn:E'; [|done].
      apply String.eqb_eq in E'. congruence.
    + by rewrite IH.
Qed.

Lemma od_set_absent k v d : od_get k d = None → od_set k v d = d ++ [(k, v)].
Proof.
  induction d as [|[k' v'] d IH]; simpl; [done|].
  destruct (String.eqb k k'); [done|]. intros H. by rewrite IH.
Qed.

Lemma od_set_length_present k v v0 d :
  od_get k d = Some v0 → length (od_set k v d) = length d.
Proof.
  induction d as [|[k' v'] d IH]; simpl; [done|].
  destruct (String.eqb k k'); simpl; [done|]. intros H. by rewrite IH.
Qed.

Lemma od_keys_set_present k v v0 d :
  od_get k d = Some v0 → od_keys (od_set k v d) = od_keys d.
Proof.
  unfold od_keys. induction d as [|[k' v'] d IH]; simpl; [done|].
  destruct (String.eqb k k'); simpl; [done|]. intros H. by rewrite IH.
Qed.

Lemma od_get_None_not_in k d : od_get k d = None ↔ k ∉ od_keys d.
Proof.
  unfold od_keys. induction d as [|[k' v'] d IH]; simpl.
  - split; [intros _; apply not_elem_of_nil | done].
  - destruct (String.eqb k k') eqn:E.
    + apply String.eqb_eq in E. subst. split; [done|].
      intros H. exfalso. apply H. left.
    + apply String.eqb_neq in E. rewrite IH. rewrite not_elem_of_cons. tauto.
Qed.
End odict_facts.

(** ** Entity upsert *)

Lemma add_entity_returns name ty p c s w :
  result (add_entity name ty p c s) w = Ok (entity_id_of name ty).
Proof.
  unfold result, add_entity, bind, gets. simpl.
  destruct (od_get _ _); reflexivity.
Qed.

Lemma add_entity_new name ty p c s w :
  od_get (entity_id_of name ty) (entities w) = None →
  entities (exec (add_entity name ty p c s) w)
  = entities w ++
      [(entity_id_of name ty,
        mkEntity (entity_id_of name ty) name ty (or_empty p) c
                 (clock w (ticks w)) (clock w (S (ticks w))) s)]
  ∧ ticks (exec (add_entity name ty p c s) w) = S (S (ticks w))
  ∧ clock (exec (add_entity name ty p c s) w) = clock w.
Proof.
  intros H. unfold exec, add_entity, bind, gets. simpl. rewrite H. simpl.
  by rewrite od_set_absent.
Qed.

Lemma add_entity_existing name ty p c s w entity :
  od_get (entity_id_of name ty) (entities w) = Some entity →
  entities (exec (add_entity name ty p c s) w)
  = od_set (entity_id_of name ty)
      (mkEntity (ent_id entity) (ent_name entity) (ent_type entity)
         (or_empty p ∪ ent_properties entity)
         (py_max (ent_confidence entity) c)
         (ent_created_at entity) (clock w (ticks w)) (ent_source entity))
      (entities w).
Proof.
  intros H. unfold exec, add_entity, bind, gets. simpl. rewrite H. reflexivity.
Qed.

(** Python's [max] returns one of its arguments, the second exactly when it
    is strictly greater than the first. *)
Lemma py_max_cases (a b : float) :
  (PrimFloat.ltb a b = true ∧ py_max a b = b)
  ∨ (PrimFloat.ltb a b = false ∧ py_max a b = a).
Proof. unfold py_max. destruct (PrimFloat.ltb a b); auto. Qed.

Lemma SFcompare_antisym (x y : spec_float) :
  SFcompare y x = option_map CompOpp (SFcompare x y).
Proof.
  destruct x as [sx|sx| |sx mx ex], y as [sy|sy| |sy my ey]; simpl; try reflexivity;
    try (destruct sx; reflexivity); try (destruct sy; reflexivity);
    try (destruct sx, sy; reflexivity).
  destruct sx, sy; simpl; try reflexivity;
    rewrite (Z.compare_antisym ex ey); destruct (ex ?= ey); simpl; try reflexivity;
    pose proof (ZC4 my mx) as E;
    change (PosDef.Pos.compare_cont Eq my mx
            = CompOpp (PosDef.Pos.compare_cont Eq mx my)) in E;
    rewrite E; destruct (PosDef.Pos.compare_cont Eq mx my); reflexivity.
Qed.

Lemma SFcompare_refl (x : spec_float) : x ≠ S754_nan → SFcompare x x = Some Eq.
Proof.
  destruct x as [s|s| |s m e]; simpl; try done.
  - by destruct s.
  - intros _. rewrite Z.compare_refl.
    pose proof (Pcompare_refl m) as E.
    change (PosDef.Pos.compare_cont Eq m m = Eq) in E. rewrite E.
    by destruct s.
Qed.

(** On numbers, Python's [max] is the maximum. *)
Lemma py_max_upper (a b : float) :
  is_number a → is_number b →
  PrimFloat.leb a (py_max a b) = true ∧ PrimFloat.leb b (py_max a b) = true.
Proof.
  unfold is_number. intros Ha Hb. unfold py_max. rewrite ltb_spec.
  destruct (SFltb (Prim2SF a) (Prim2SF b)) eqn:E; rewrite !leb_spec;
    unfold SFltb, SFleb in *.
  - rewrite (SFcompare_refl _ Hb). split; [|done].
    by destruct (SFcompare (Prim2SF a) (Prim2SF b)) as [[]|].
  - rewrite (SFcompare_refl _ Ha). split; [done|].
    rewrite SFcompare_antisym.
    destruct (Prim2SF a) as [sx|sx| |sx mx ex], (Prim2SF b) as [sy|sy| |sy my ey];
      try done;
      destruct (SFcompare _ _) as [[]|] eqn:E'; simpl in *; try done.
Qed.

(** C1: two upserts of the same (name, type), the first one creating the
    entity, return the same id; afterwards the stored entity has the union
    of both property maps with the second call's values winning, the
    maximum of the two confidences, the creation time and the source tag of
    the first call, its id, name and type unchanged, and the update time
    read by the second call. *)
Theorem upsert_entity_twice
    (w : World) (name ty : string) (p1 p2 : option (gmap string value))
    (c1 c2 : float) (s1 s2 : string) :
  od_get (entity_id_of name ty) (entities w) = None →
  let w1 := exec (add_entity name ty p1 c1 s1) w in
  let w2 := exec (add_entity name ty p2 c2 s2) w1 in
  result (add_entity name ty p1 c1 s1) w = Ok (entity_id_of name ty)
  ∧ result (add_entity name ty p2 c2 s2) w1 = Ok (entity_id_of name ty)
  ∧ od_keys (entities w2) = od_keys (entities w1)
  ∧ ∃ e1 e2,
      od_get (entity_id_of name ty) (entities w1) = Some e1
      ∧ od_get (entity_id_of name ty) (entities w2) = Some e2
      ∧ ent_properties e2 = or_empty p2 ∪ or_empty p1
      ∧ (∀ k, ent_properties e2 !! k
              = match or_empty p2 !! k with
                | Some v => Some v
                | None => or_empty p1 !! k
                end)
      ∧ ent_confidence e2 = py_max c1 c2
      ∧ (ent_confidence e2 = c1 ∨ ent_confidence e2 = c2)
      ∧ (is_number c1 → is_number c2 →
         PrimFloat.leb c1 (ent_confidence e2) = true
         ∧ PrimFloat.leb c2 (ent_confidence e2) = true)
      ∧ ent_created_at e1 = clock w (ticks w)
      ∧ ent_created_at e2 = ent_created_at e1
      ∧ ent_source e1 = s1
      ∧ ent_source e2 = ent_source e1
      ∧ ent_id e2 = ent_id e1 ∧ ent_name e2 = ent_name e1
      ∧ ent_type e2 = ent_type e1
      ∧ ent_updated_at e1 = clock w (S (ticks w))
      ∧ ent_updated_at e2 = clock w (S (S (ticks w))).
Proof.
  intros Hnew w1 w2.
  destruct (add_entity_new name ty p1 c1 s1 w Hnew) as (Hents & Hticks & Hclock).
  fold w1 in Hents, Hticks, Hclock.
  set (e1 := mkEntity (entity_id_of name ty) name ty (or_empty p1) c1
                      (clock w (ticks w)) (clock w (S (ticks w))) s1) in *.
  assert (Hget1 : od_get (entity_id_of name ty) (entities w1) = Some e1).
  { rewrite Hents, <- (od_set_absent _ e1 _ Hnew). apply od_get_set_eq. }
  pose proof (add_entity_existing name ty p2 c2 s2 w1 e1 Hget1) as Hents2.
  fold w2 in Hents2.
  split; [apply add_entity_returns|].
  split; [apply add_entity_returns|].
  split; [rewrite Hents2; by apply od_keys_set_present with e1|].
  eexists e1, _. split; [exact Hget1|].
  split; [rewrite Hents2; apply od_get_set_eq|].
  simpl. rewrite Hticks, Hclock.
  split; [reflexivity|]. split.
  { intros k. rewrite lookup_union. unfold e1; simpl.
    destruct (or_empty p2 !! k), (or_empty p1 !! k); reflexivity. }
  split; [reflexivity|]. split.
  { destruct (py_max_cases c1 c2) as [[_ ->] | [_ ->]]; auto. }
  split; [apply py_max_upper|].
  repeat split; reflexivity.
Qed.

(** The witness of [upsert_entity_twice]: a manager with no data, upserting
    ("Foo", "concept") twice. *)
Lemma upsert_entity_twice_witness :
  od_get (entity_id_of "Foo" "concept") (entities (fresh_world ticking_clock)) = None
  ∧ result (add_entity "Foo" "concept" (Some {["seen" := VInt 2]}) 0.8 "text")
      (exec (add_entity "Foo" "concept" (Some {["seen" := VInt 1]}) 0.5 "manual")
            (fresh_world ticking_clock))
    = Ok (entity_id_of "Foo" "concept").
Proof.
  split; [reflexivity|].
  apply (upsert_entity_twice (fresh_world ticking_clock) "Foo" "concept"
           (Some {["seen" := VInt 1]}) (Some {["seen" := VInt 2]})
           0.5 0.8 "manual" "text").
  reflexivity.
Defined.

(** Whatever the store held, an upsert leaves a record under the derived id. *)
Lemma add_entity_stored name ty p c s w :
  ∃ e, od_get (entity_id_of name ty) (entities (exec (add_entity name ty p c s) w)) = Some e
       ∧ match od_get (entity_id_of name ty) (entities w) with
         | Some e0 => ent_name e = ent_name e0 ∧ ent_type e = ent_type e0
                      ∧ od_keys (entities (exec (add_entity name ty p c s) w))
                        = od_keys (entities w)
         | None => ent_name e = name ∧ ent_type e = ty
         end.
Proof.
  destruct (od_get (entity_id_of name ty) (entities w)) as [e0|] eqn:H.
  - rewrite (add_entity_existing _ _ _ _ _ _ _ H).
    eexists. split; [apply od_get_set_eq|]. simpl.
    repeat split. by apply od_keys_set_present with e0.
  - destruct (add_entity_new name ty p c s w H) as (-> & _ & _).
    rewrite <- (od_set_absent _ _ _ H).
    eexists. split; [apply od_get_set_eq|]. done.
Qed.

Lemma append_assoc (a b c : string) : ((a ++ b) ++ c)%string = (a ++ (b ++ c))%string.
Proof.
  induction a as [|x a IH]; [done|].
  change (String x ((a ++ b) ++ c) = String x (a ++ (b ++ c)))%string.
  by f_equal.
Qed.

(** C9: the entity id is not injective on (name, type).  The pairs
    ("a", "b_c") and ("a_b", "c") differ and get one id, like every pair of
    the shape (x, y_z) and (x_y, z); upserting the second after the first
    creates no entity and keeps the stored name and type, "a" and "b_c" in
    a store that did not hold the id; relation ids join source id, relation
    type and target id with the same separator and collide the same way. *)
Theorem entity_id_not_injective :
  ("a", "b_c") ≠ ("a_b", "c")
  ∧ entity_id_of "a" "b_c" = entity_id_of "a_b" "c"
  ∧ (∀ x y z : string,
       entity_id_of x (y ++ "_" ++ z) = entity_id_of (x ++ "_" ++ y) z)
  ∧ (∀ (w : World) p1 p2 c1 c2 s1 s2,
       let w1 := exec (add_entity "a" "b_c" p1 c1 s1) w in
       let w2 := exec (add_entity "a_b" "c" p2 c2 s2) w1 in
       result (add_entity "a_b" "c" p2 c2 s2) w1
       = result (add_entity "a" "b_c" p1 c1 s1) w
       ∧ od_keys (entities w2) = od_keys (entities w1)
       ∧ ∃ e1 e2,
           od_get (entity_id_of "a" "b_c") (entities w1) = Some e1
           ∧ od_get (entity_id_of "a_b" "c") (entities w2) = Some e2
           ∧ ent_name e2 = ent_name e1 ∧ ent_type e2 = ent_type e1
           ∧ match od_get (entity_id_of "a" "b_c") (entities w) with
             | None => ent_name e2 = "a" ∧ ent_type e2 = "b_c"
             | Some e0 => ent_name e2 = ent_name e0 ∧ ent_type e2 = ent_type e0
             end)
  ∧ (∀ s ty t : string,
       relation_id_of s ty t = md5_16 (s ++ "_" ++ ty ++ "_" ++ t))
  ∧ ("a", "b_c", "d") ≠ ("a_b", "c", "d")
  ∧ relation_id_of "a" "b_c" "d" = relation_id_of "a_b" "c" "d".
Proof.
  assert (Hid : entity_id_of "a" "b_c" = entity_id_of "a_b" "c") by reflexivity.
  split; [discriminate|]. split; [exact Hid|].
  split.
  { intros x y z. unfold entity_id_of. by rewrite !append_assoc. }
  split; [|split; [reflexivity | split; [discriminate | reflexivity]]].
  intros w p1 p2 c1 c2 s1 s2 w1 w2.
  rewrite !add_entity_returns. split; [by rewrite Hid|].
  destruct (add_entity_stored "a" "b_c" p1 c1 s1 w) as (e1 & Hget1 & Hold).
  fold w1 in Hget1, Hold.
  destruct (add_entity_stored "a_b" "c" p2 c2 s2 w1) as (e2 & Hget2 & Hnew).
  fold w2 in Hget2, Hnew.
  rewrite <- Hid in Hnew. rewrite Hget1 in Hnew.
  destruct Hnew as (Hn & Ht & Hk).
  split; [exact Hk|].
  exists e1, e2. split; [exact Hget1|]. split; [exact Hget2|].
  split; [exact Hn|]. split; [exact Ht|].
  destruct (od_get (entity_id_of "a" "b_c") (entities w)) as [e0|].
  - destruct Hold as (Hn0 & Ht0 & _). split; congruence.
  - destruct Hold as (Hn0 & Ht0). split; congruence.
Qed.

(** ** Similarity *)

Lemma jaccard_comm (a b : gset string) : jaccard a b = jaccard b a.
Proof.
  unfold jaccard.
  by rewrite (comm_L (∪) a b), (comm_L (∩) a b).
Qed.

Lemma string_eqb_comm (a b : string) : String.eqb a b = String.eqb b a.
Proof.
  destruct (String.eqb a b) eqn:E.
  - apply String.eqb_eq in E. subst. by rewrite String.eqb_refl.
  - apply String.eqb_neq in E. symmetry. apply String.eqb_neq. congruence.
Qed.

(** C4: the similarity score of (X, Y) is the score of (Y, X). *)
Theorem similarity_symmetric (X Y : KnowledgeEntity) :
  _calculate_similarity X Y = _calculate_similarity Y X.
Proof.
  unfold _calculate_similarity.
  rewrite (string_eqb_comm (ent_type X) (ent_type Y)).
  rewrite (jaccard_comm (list_to_set (split (lower (ent_name X))))).
  rewrite (jaccard_comm (dom (ent_properties X))).
  rewrite (andb_comm (nonempty (list_to_set (split (lower (ent_name X)))))).
  rewrite (andb_comm (nonempty (dom (ent_properties X)))).
  reflexivity.
Qed.

(** The score never exceeds 1. *)
Lemma similarity_clipped (X Y : KnowledgeEntity) :
  PrimFloat.ltb 1 (_calculate_similarity X Y) = false.
Proof.
  unfold _calculate_similarity, py_min.
  match goal with |- context [if PrimFloat.ltb 1 ?s then _ else _] =>
    destruct (PrimFloat.ltb 1 s) eqn:E end; [reflexivity | exact E].
Qed.

(** ** Export *)

Lemma overflow_only_ret {A} (a : A) : overflow_only (ret a).
Proof. intros w e. discriminate. Qed.

Lemma overflow_only_bind {A B} (m : M A) (k : A → M B) :
  overflow_only m → (∀ a, overflow_only (k a)) → overflow_only (bind m k).
Proof.
  intros Hm Hk w e. unfold bind.
  destruct (m w) as [[a|e'] w'] eqn:E.
  - apply Hk.
  - simpl. intros [= <-]. apply (Hm w). by rewrite E.
Qed.

Lemma overflow_only_foldM {A St} (body : St → A → M St) l s :
  (∀ s x, overflow_only (body s x)) → overflow_only (foldM body l s).
Proof.
  intros Hb. revert s. induction l as [|x l IH]; intros s; simpl.
  - apply overflow_only_ret.
  - apply overflow_only_bind; [apply Hb | intros s'; apply IH].
Qed.

Lemma overflow_only_now_minus_days days : overflow_only (now_minus_days days).
Proof.
  intros w e. unfold now_minus_days, bind, now, lift, timedelta_days, datetime_sub.
  simpl. destruct (_ <? Z.abs days); simpl; [by intros [= <-]|].
  destruct (_ || _); simpl; [by intros [= <-] | discriminate].
Qed.

Lemma overflow_only_count_recent {A} (stamp : A → datetime) days l :
  overflow_only (count_recent stamp days l).
Proof.
  apply overflow_only_foldM. intros n x.
  apply overflow_only_bind; [apply overflow_only_now_minus_days|].
  intros. apply overflow_only_ret.
Qed.

Lemma overflow_only_get_statistics : overflow_only get_statistics.
Proof.
  unfold get_statistics.
  repeat (apply overflow_only_bind; [by intros w e|]; intros ?).
  apply overflow_only_bind; [apply overflow_only_count_recent|]; intros ?.
  apply overflow_only_bind; [apply overflow_only_count_recent|]; intros ?.
  apply overflow_only_ret.
Qed.

Lemma export_supported_no_value_error format_type w msg :
  format_type = "json" ∨ format_type = "graphml" →
  result (export_graph format_type) w ≠ Raise (ValueError msg).
Proof.
  intros Hfmt H.
  assert (overflow_only (export_graph format_type)) as Hov.
  { unfold export_graph.
    apply overflow_only_bind; [by intros ? ?|]; intros t.
    destruct Hfmt as [-> | ->]; simpl.
    - apply overflow_only_bind; [by intros ? ?|]; intros t'.
      apply overflow_only_bind; [apply overflow_only_get_statistics|]; intros st.
      repeat (apply overflow_only_bind; [by intros ? ?|]; intros ?).
      apply overflow_only_ret.
    - repeat (apply overflow_only_bind; [by intros ? ?|]; intros ?).
      apply overflow_only_ret. }
  by specialize (Hov w _ H).
Qed.

Lemma export_unsupported_run format_type w :
  format_type ≠ "json" → format_type ≠ "graphml" →
  export_graph format_type w
  = (Raise (ValueError ("Unsupported export format: " ++ format_type)),
     set_ticks (S (ticks w)) w).
Proof.
  intros H1 H2. unfold export_graph, bind, now. simpl.
  apply String.eqb_neq in H1, H2. by rewrite H1, H2.
Qed.

(** C8: [export_graph] raises the error naming the format exactly when the
    format is neither "json" nor "graphml"; then no file is written and the
    four collections (and the persisted files) are as before. *)
Theorem export_unsupported_format (w : World) (format_type : string) :
  ((∃ msg, result (export_graph format_type) w = Raise (ValueError msg))
   ↔ format_type ≠ "json" ∧ format_type ≠ "graphml")
  ∧ (format_type ≠ "json" ∧ format_type ≠ "graphml" →
     let w' := exec (export_graph format_type) w in
     result (export_graph format_type) w
     = Raise (ValueError ("Unsupported export format: " ++ format_type))
     ∧ outputs w' = outputs w
     ∧ entities w' = entities w ∧ relations w' = relations w
     ∧ queries w' = queries w ∧ insights w' = insights w
     ∧ disk w' = disk w).
Proof.
  split.
  - split.
    + intros [msg H].
      destruct (decide (format_type = "json")) as [Hj|Hj];
        [by destruct (export_supported_no_value_error _ _ _ (or_introl Hj) H)|].
      destruct (decide (format_type = "graphml")) as [Hg|Hg];
        [by destruct (export_supported_no_value_error _ _ _ (or_intror Hg) H)|].
      by split.
    + intros [H1 H2]. eexists. unfold result.
      by rewrite export_unsupported_run.
  - intros [H1 H2] w'. unfold w', result, exec.
    by rewrite export_unsupported_run.
Qed.

(** The witness of [export_unsupported_format]: the format "xml". *)
Lemma export_unsupported_format_witness :
  result (export_graph "xml") (fresh_world ticking_clock)
  = Raise (ValueError "Unsupported export format: xml")
  ∧ outputs (exec (export_graph "xml") (fresh_world ticking_clock)) = [].
Proof.
  pose proof (proj2 (export_unsupported_format (fresh_world ticking_clock) "xml")) as H.
  destruct H as (Hr & Ho & _).
  - split; discriminate.
  - split; [exact Hr | exact Ho].
Defined.

(** Both supported formats write one file and return its path. *)
Example export_json_writes :
  result (export_graph "json") (fresh_world ticking_clock)
  = Ok "outputs/knowledge/knowledge_graph_export_20261104_100000.json"
  ∧ od_keys (outputs (exec (export_graph "json") (fresh_world ticking_clock)))
    = ["outputs/knowledge/knowledge_graph_export_20261104_100000.json"].
Proof. split; vm_compute; reflexivity. Qed.

Example export_graphml_writes :
  result (export_graph "graphml") (fresh_world ticking_clock)
  = Ok "outputs/knowledge/knowledge_graph_export_20261104_100000.graphml"
  ∧ od_keys (outputs (exec (export_graph "graphml") (fresh_world ticking_clock)))
    = ["outputs/knowledge/knowledge_graph_export_20261104_100000.graphml"].
Proof. split; vm_compute; reflexivity. Qed.

(** ** Retention sweep *)

Lemma cleanup_run days w :
  cleanup_old_data days w
  = match result (now_minus_days (effective_days days w)) w with
    | Ok cutoff =>
        let qs := List.filter (fun q => cutoff <=? timestamp q) (queries w) in
        let ins := List.filter (fun i => cutoff <=? ins_created_at i) (insights w) in
        let w1 := set_insights ins (set_queries qs (set_ticks (S (ticks w)) w)) in
        (Ok (mkCleanupResult
               (length (List.filter (fun q => timestamp q <? cutoff) (queries w)))
               (length (List.filter (fun i => ins_created_at i <? cutoff) (insights w)))
               (length qs) (length ins)),
         set_disk (snapshot w1) w1)
    | Raise e => (Raise e, set_ticks (S (ticks w)) w)
    end.
Proof.
  unfold cleanup_old_data, effective_days, result, now_minus_days, bind, gets,
    now, lift. simpl.
  destruct (timedelta_days _) as [delta|e]; simpl; [|done].
  destruct (datetime_sub _ _) as [cutoff|e]; simpl; done.
Qed.

Lemma now_minus_days_result d w :
  result (now_minus_days d) w
  = if 999999999 <? Z.abs d then Raise OverflowError
    else if (clock w (ticks w) - d * us_per_day <? 0)
            || (datetime_max <? clock w (ticks w) - d * us_per_day)
         then Raise OverflowError
         else Ok (clock w (ticks w) - d * us_per_day).
Proof.
  unfold result, now_minus_days, bind, now, lift, timedelta_days, datetime_sub.
  simpl. destruct (_ <? Z.abs d); simpl; [done|]. by destruct (_ || _).
Qed.

Lemma filter_leb_all {A} (stamp : A → Z) (cutoff : Z) (l : list A) :
  List.filter (fun x => cutoff <=? stamp x) l = l ↔ ∀ x, x ∈ l → cutoff ≤ stamp x.
Proof.
  induction l as [|x l IH]; simpl.
  - split; [intros _ y Hy; by apply elem_of_nil in Hy | done].
  - destruct (cutoff <=? stamp x) eqn:Hx.
    + apply Z.leb_le in Hx. split.
      * intros [= H]. pose proof (proj1 IH H) as H'.
        intros y [->|Hy]%elem_of_cons; auto.
      * intros H. f_equal. apply IH. intros y Hy. apply H. by right.
    + apply Z.leb_gt in Hx. split.
      * intros H. exfalso.
        pose proof (List.filter_length_le (fun x => cutoff <=? stamp x) l) as Hlen.
        rewrite H in Hlen. simpl in Hlen. lia.
      * intros H. specialize (H x (list_elem_of_here _ _)). lia.
Qed.

Lemma filter_leb_none {A} (stamp : A → Z) (cutoff : Z) (l : list A) :
  List.filter (fun x => cutoff <=? stamp x) l = [] ↔ ∀ x, x ∈ l → stamp x < cutoff.
Proof.
  induction l as [|x l IH]; simpl.
  - split; [intros _ y Hy; by apply elem_of_nil in Hy | done].
  - destruct (cutoff <=? stamp x) eqn:Hx.
    + apply Z.leb_le in Hx. split; [done|].
      intros H. specialize (H x (list_elem_of_here _ _)). lia.
    + apply Z.leb_gt in Hx. rewrite IH. split.
      * intros H y [->|Hy]%elem_of_cons; auto.
      * intros H y Hy. apply H. by right.
Qed.

Lemma elem_of_filter_leb {A} (stamp : A → Z) (cutoff : Z) (l : list A) (x : A) :
  x ∈ l → (x ∈ List.filter (fun x => cutoff <=? stamp x) l ↔ ¬ stamp x < cutoff).
Proof.
  intros Hx. rewrite !list_elem_of_In, filter_In, Z.leb_le, <- list_elem_of_In.
  split; [intros [_ H]; lia | intros H; split; [done | lia]].
Qed.

(** C6, as the code has it: [cleanup_old_data] never touches entities or
    relations, whatever [days] is and also when it fails; when it returns,
    the Query and Insight records kept are exactly those not strictly older
    than now minus [days], and the result is flushed.  With [days = 0] the
    collections end up empty exactly when every record is stamped strictly
    before the call's clock reading; with [days = 100000] nothing is removed
    exactly when no record is older than that. *)
Theorem cleanup_removes_strictly_older (w : World) (days : option Z) :
  let w' := exec (cleanup_old_data days) w in
  let t := clock w (ticks w) in
  entities w' = entities w ∧ relations w' = relations w
  ∧ match result (now_minus_days (effective_days days w)) w with
    | Ok cutoff =>
        cutoff = t - effective_days days w * us_per_day
        ∧ queries w' = List.filter (fun q => cutoff <=? timestamp q) (queries w)
        ∧ insights w' = List.filter (fun i => cutoff <=? ins_created_at i) (insights w)
        ∧ (∀ q, q ∈ queries w → (q ∈ queries w' ↔ ¬ timestamp q < cutoff))
        ∧ (∀ i, i ∈ insights w → (i ∈ insights w' ↔ ¬ ins_created_at i < cutoff))
        ∧ disk w' = snapshot w'
    | Raise e =>
        result (cleanup_old_data days) w = Raise e
        ∧ queries w' = queries w ∧ insights w' = insights w
    end
  ∧ (days = Some 0 → 0 ≤ t ≤ datetime_max →
     (queries w' = [] ↔ ∀ q, q ∈ queries w → timestamp q < t)
     ∧ (insights w' = [] ↔ ∀ i, i ∈ insights w → ins_created_at i < t))
  ∧ (days = Some 100000 → 100000 * us_per_day ≤ t ≤ datetime_max →
     (queries w' = queries w
      ↔ ∀ q, q ∈ queries w → t - 100000 * us_per_day ≤ timestamp q)
     ∧ (insights w' = insights w
        ↔ ∀ i, i ∈ insights w → t - 100000 * us_per_day ≤ ins_created_at i)).
Proof.
  intros w' t. unfold w', exec. unfold result at 2. rewrite cleanup_run.
  pose proof (now_minus_days_result (effective_days days w) w) as Hnow.
  destruct (result (now_minus_days (effective_days days w)) w) as [cutoff|e];
    simpl.
  - split; [done|]. split; [done|]. split.
    { split.
      { destruct (_ <? Z.abs _); [done|]. destruct (_ || _); [done|].
        by injection Hnow. }
      split; [done|]. split; [done|].
      split; [intros q Hq; by apply elem_of_filter_leb|].
      split; [intros i Hi; by apply elem_of_filter_leb | done]. }
    split.
    + intros -> Ht. simpl in Hnow.
      change (999999999 <? Z.abs 0) with false in Hnow. cbv iota in Hnow.
      replace (clock w (ticks w) - 0 * us_per_day) with t in Hnow
        by (unfold t; lia).
      destruct (t <? 0) eqn:E1; [apply Z.ltb_lt in E1; lia|].
      destruct (datetime_max <? t) eqn:E2; [apply Z.ltb_lt in E2; lia|].
      simpl in Hnow. injection Hnow as ->.
      split; apply filter_leb_none.
    + intros -> Ht. simpl in Hnow.
      change (999999999 <? Z.abs 100000) with false in Hnow. cbv iota in Hnow.
      fold t in Hnow.
      destruct (t - 100000 * us_per_day <? 0) eqn:E1; [apply Z.ltb_lt in E1; lia|].
      destruct (datetime_max <? t - 100000 * us_per_day) eqn:E2;
        [apply Z.ltb_lt in E2; unfold us_per_day in *; lia|].
      simpl in Hnow. injection Hnow as ->.
      split; apply filter_leb_all.
  - split; [done|]. split; [done|]. split; [done|].
    split.
    + intros -> Ht. exfalso. simpl in Hnow.
      change (999999999 <? Z.abs 0) with false in Hnow. cbv iota in Hnow.
      replace (clock w (ticks w) - 0 * us_per_day) with t in Hnow
        by (unfold t; lia).
      destruct (t <? 0) eqn:E1; [apply Z.ltb_lt in E1; lia|].
      destruct (datetime_max <? t) eqn:E2; [apply Z.ltb_lt in E2; lia|].
      discriminate.
    + intros -> Ht. exfalso. simpl in Hnow.
      change (999999999 <? Z.abs 100000) with false in Hnow. cbv iota in Hnow.
      fold t in Hnow.
      destruct (t - 100000 * us_per_day <? 0) eqn:E1; [apply Z.ltb_lt in E1; lia|].
      destruct (datetime_max <? t - 100000 * us_per_day) eqn:E2;
        [apply Z.ltb_lt in E2; unfold us_per_day in *; lia|].
      discriminate.
Qed.

(** The witness of [cleanup_removes_strictly_older]: a path query recorded
    one clock reading before a sweep with [days = 0] is removed. *)
Lemma cleanup_removes_strictly_older_witness :
  queries (exec (cleanup_old_data (Some 0))
                (exec (find_path "A" "C" 1) (fresh_world ticking_clock))) = [].
Proof.
  pose (w := exec (find_path "A" "C" 1) (fresh_world ticking_clock)).
  destruct (cleanup_removes_strictly_older w (Some 0)) as (_ & _ & _ & H0 & _).
  destruct (H0 eq_refl) as [Hq _].
  - vm_compute. split; discriminate.
  - apply Hq. intros q Hq'.
    apply list_elem_of_In in Hq'. destruct Hq' as [<-|[]].
    vm_compute. reflexivity.
Defined.

(** C6 as stated fails: on a clock that has not advanced since a Query and
    an Insight were recorded, the sweep with [days = 0] keeps both (their
    stamps are not strictly older than now). *)
Lemma cleanup_zero_keeps_current_records :
  let w := exec (add_entity "Foo" "concept" None 1 "manual" ;;;
                 analyze_patterns ;;; find_path "A" "C" 1)
                (fresh_world frozen_clock) in
  let w' := exec (cleanup_old_data (Some 0)) w in
  result (cleanup_old_data (Some 0)) w = Ok (mkCleanupResult 0 0 1 1)
  ∧ queries w' ≠ [] ∧ insights w' ≠ []
  ∧ queries w' = queries w ∧ insights w' = insights w.
Proof.
  vm_compute. repeat split; discriminate.
Qed.

(** ** Durability on return *)

Lemma add_entity_durable name ty p c s w :
  durable (exec (add_entity name ty p c s) w).
Proof.
  unfold durable, exec, add_entity, bind, gets. simpl.
  destruct (od_get _ _); reflexivity.
Qed.

Lemma add_relation_durable src tgt ty p c s w :
  durable (exec (add_relation src tgt ty p c s) w).
Proof.
  unfold durable, exec, add_relation, bind, gets. simpl.
  destruct (od_get _ _); reflexivity.
Qed.

Lemma analyze_patterns_durable w : durable (exec analyze_patterns w).
Proof.
  unfold durable, exec, analyze_patterns, bind, gets. simpl.
  destruct (max_by_count (Counter _)); simpl;
    destruct (max_by_count (Counter _)); simpl;
    destruct (max_by_count (node_degrees _)) as [[n d]|]; simpl;
    try destruct (od_get n _); reflexivity.
Qed.

Lemma cleanup_durable days w r :
  result (cleanup_old_data days) w = Ok r →
  durable (exec (cleanup_old_data days) w).
Proof.
  unfold durable, exec, result. rewrite cleanup_run.
  destruct (result (now_minus_days _) w); simpl; [done | discriminate].
Qed.

Lemma app_singleton_neq {A} (l : list A) (x : A) : l ++ [x] ≠ l.
Proof.
  intros H. apply (f_equal length) in H. rewrite length_app in H. simpl in H. lia.
Qed.

(** The three query methods append a Query record and return without a
    flush: from a durable world they reach one that is not durable. *)
Lemma query_relations_run src tgt ty c w :
  query_relations src tgt ty c w
  = (Ok (sorted_desc rel_confidence
           (List.filter (relation_matches src tgt ty c) (od_values (relations w)))),
     set_queries
       (queries w ++
          [mkQuery (md5_16 ("relations_" ++ isoformat (clock w (ticks w))))
             [FLit "source="; FOpt src; FLit ", target="; FOpt tgt;
              FLit ", type="; FOpt ty; FLit ", min_confidence="; FFloat c]
             "relation"
             [("source_id", opt_value src); ("target_id", opt_value tgt);
              ("relation_type", opt_value ty); ("min_confidence", VFloat c)]
             (clock w (S (ticks w)))])
       (set_ticks (S (S (ticks w))) w)).
Proof. reflexivity. Qed.

Lemma query_relations_not_durable src tgt ty c w :
  durable w → ¬ durable (exec (query_relations src tgt ty c) w).
Proof.
  unfold durable, exec. rewrite query_relations_run. simpl.
  intros -> [= H]. symmetry in H. by apply app_singleton_neq in H.
Qed.

(** One iteration of the loop of [query_entities] changes nothing: it
    returns the entities selected so far, or raises [re.error]. *)
Lemma query_entities_step_cases re ty pat c acc e w :
  (∃ acc', query_entities_step re ty pat c acc e w = (Ok acc', w))
  ∨ query_entities_step re ty pat c acc e w = (Raise ReError, w).
Proof.
  unfold query_entities_step, bind, ret, raise.
  destruct (differs ty (ent_type e)); [left; by eexists|].
  destruct pat as [p|]; [destruct (String.eqb p "")|].
  - destruct (PrimFloat.ltb _ _); left; by eexists.
  - destruct (re p (ent_name e)) as [[]|]; cbn [negb]; [| left; by eexists | by right].
    destruct (PrimFloat.ltb _ _); left; by eexists.
  - destruct (PrimFloat.ltb _ _); left; by eexists.
Qed.

Lemma query_entities_step_filter (matcher : string → string → bool) ty pat c acc e w :
  query_entities_step (fun p s => Some (matcher p s)) ty pat c acc e w
  = (Ok (if entity_matches matcher ty pat c e then acc ++ [e] else acc), w).
Proof.
  unfold query_entities_step, entity_matches, bind, ret, raise.
  destruct (differs ty (ent_type e)); [done|].
  destruct pat as [p|]; [destruct (String.eqb p "")|]; cbn [negb andb];
    try destruct (matcher p (ent_name e)); cbn [negb andb];
    first [done | by destruct (PrimFloat.ltb (ent_confidence e) c)].
Qed.

Lemma query_entities_step_returns re ty pat c acc e w :
  (∀ p, pat = Some p → p ≠ "" → is_Some (re p (ent_name e))) →
  ∃ acc', query_entities_step re ty pat c acc e w = (Ok acc', w).
Proof.
  intros Hre.
  destruct (query_entities_step_cases re ty pat c acc e w) as [H | H]; [done|].
  exfalso. revert H. unfold query_entities_step, bind, ret, raise.
  destruct (differs ty (ent_type e)); [done|].
  destruct pat as [p|]; [destruct (String.eqb p "") eqn:E|].
  - by destruct (PrimFloat.ltb _ _).
  - apply String.eqb_neq in E. destruct (Hre p eq_refl E) as [found ->].
    destruct found; cbn [negb]; [|done]. by destruct (PrimFloat.ltb _ _).
  - by destruct (PrimFloat.ltb _ _).
Qed.

(** The loop of [query_entities] changes nothing: it returns the entities
    selected, or raises [re.error]. *)
Lemma query_entities_loop re ty pat c l : ∀ acc w,
  (∃ results, foldM (query_entities_step re ty pat c) l acc w = (Ok results, w))
  ∨ foldM (query_entities_step re ty pat c) l acc w = (Raise ReError, w).
Proof.
  induction l as [|e l IH]; intros acc w; simpl; [left; by exists acc|].
  unfold bind.
  destruct (query_entities_step_cases re ty pat c acc e w) as [[acc' ->] | ->];
    [apply IH | by right].
Qed.

(** With calls of [re.search] that return, the loop is a filter. *)
Lemma query_entities_loop_filter (matcher : string → string → bool) ty pat c l :
  ∀ acc w,
  foldM (query_entities_step (fun p s => Some (matcher p s)) ty pat c) l acc w
  = (Ok (acc ++ List.filter (entity_matches matcher ty pat c) l), w).
Proof.
  induction l as [|e l IH]; intros acc w; simpl; [by rewrite app_nil_r|].
  unfold bind. rewrite query_entities_step_filter, IH.
  destruct (entity_matches matcher ty pat c e); [by rewrite <- app_assoc | done].
Qed.

Lemma query_entities_loop_returns re ty pat c l :
  (∀ p e, pat = Some p → p ≠ "" → In e l → is_Some (re p (ent_name e))) →
  ∀ acc w, ∃ results, foldM (query_entities_step re ty pat c) l acc w = (Ok results, w).
Proof.
  induction l as [|e l IH]; intros Hre acc w; simpl; [by exists acc|].
  unfold bind.
  destruct (query_entities_step_returns re ty pat c acc e w) as [acc' ->].
  { intros p Hp Hne. apply (Hre p e Hp Hne). by left. }
  apply IH. intros p e0 Hp Hne Hin. apply (Hre p e0 Hp Hne). by right.
Qed.

(** [query_entities] either returns, having read the clock twice and
    appended one Query record, or raises [re.error] with the world as it
    was. *)
Lemma query_entities_run re ty pat c w :
  (∃ results,
     query_entities re ty pat c w
     = (Ok (sorted_desc ent_confidence results),
        set_queries
          (queries w ++
             [mkQuery (md5_16 ("entities_" ++ isoformat (clock w (ticks w))))
                [FLit "type="; FOpt ty; FLit ", pattern="; FOpt pat;
                 FLit ", min_confidence="; FFloat c]
                "entity"
                [("entity_type", opt_value ty); ("name_pattern", opt_value pat);
                 ("min_confidence", VFloat c)]
                (clock w (S (ticks w)))])
          (set_ticks (S (S (ticks w))) w)))
  ∨ query_entities re ty pat c w = (Raise ReError, w).
Proof.
  destruct (query_entities_loop re ty pat c (od_values (entities w)) [] w)
    as [[results Hrun] | Hrun]; [left; exists results | right];
    unfold query_entities, bind at 1, gets; cbn [fst snd];
    unfold bind at 1; rewrite Hrun; reflexivity.
Qed.

Lemma query_entities_run_filter (matcher : string → string → bool) ty pat c w :
  query_entities (fun p s => Some (matcher p s)) ty pat c w
  = (Ok (sorted_desc ent_confidence
           (List.filter (entity_matches matcher ty pat c) (od_values (entities w)))),
     set_queries
       (queries w ++
          [mkQuery (md5_16 ("entities_" ++ isoformat (clock w (ticks w))))
             [FLit "type="; FOpt ty; FLit ", pattern="; FOpt pat;
              FLit ", min_confidence="; FFloat c]
             "entity"
             [("entity_type", opt_value ty); ("name_pattern", opt_value pat);
              ("min_confidence", VFloat c)]
             (clock w (S (ticks w)))])
       (set_ticks (S (S (ticks w))) w)).
Proof.
  unfold query_entities, bind at 1, gets. cbn [fst snd].
  unfold bind at 1. rewrite query_entities_loop_filter. reflexivity.
Qed.

Lemma query_entities_not_durable re ty pat c w :
  pattern_compiles re pat w →
  durable w → ¬ durable (exec (query_entities re ty pat c) w).
Proof.
  intros Hre.
  destruct (query_entities_loop_returns re ty pat c (od_values (entities w)))
    with (acc := @nil KnowledgeEntity) (w := w) as [results Hloop].
  { intros p e Hp Hne Hin. apply (Hre p e Hp Hne). by apply list_elem_of_In. }
  destruct (query_entities_run re ty pat c w) as [[results' Hrun] | Hrun].
  - unfold durable, exec. rewrite Hrun. simpl.
    intros -> [= H]. symmetry in H. by apply app_singleton_neq in H.
  - unfold query_entities, bind at 1, gets in Hrun. cbn [fst snd] in Hrun.
    unfold bind at 1 in Hrun. by rewrite Hloop in Hrun.
Qed.

Lemma find_path_not_durable src tgt depth w :
  durable w → ¬ durable (exec (find_path src tgt depth) w).
Proof.
  unfold durable, exec, find_path, bind, gets. simpl.
  intros -> [= H]. symmetry in H. by apply app_singleton_neq in H.
Qed.

(** C5 fails on the query path: after an upsert the world is durable; the
    entity query that follows appends a Query record in memory and returns
    with the persisted query file still empty.  The relation query and the
    path search do the same, while upsert, analysis and sweep flush. *)
Theorem query_returns_without_flush :
  let w := exec (add_entity "Foo" "concept" None 1 "manual")
                (fresh_world ticking_clock) in
  let w' := exec (query_entities (fun _ _ => Some true) None None 0) w in
  durable w
  ∧ length (queries w') = 1%nat
  ∧ queries_file (disk w') = Some []
  ∧ ¬ durable w'
  ∧ ¬ durable (exec (query_relations None None None 0) w)
  ∧ ¬ durable (exec (find_path "A" "B" 3) w)
  ∧ durable (exec (add_relation "A" "B" "uses" None 1 "manual") w')
  ∧ durable (exec analyze_patterns w')
  ∧ durable (exec (cleanup_old_data None) w').
Proof.
  intros w w'.
  assert (Hw : durable w) by apply add_entity_durable.
  split; [exact Hw|]. split; [reflexivity|]. split; [reflexivity|].
  split; [apply query_entities_not_durable; [by intros p e [=] | exact Hw]|].
  split; [by apply query_relations_not_durable|].
  split; [by apply find_path_not_durable|].
  split; [apply add_relation_durable|].
  split; [apply analyze_patterns_durable|].
  apply (cleanup_durable None w' (mkCleanupResult 0 0 1 0)).
  vm_compute. reflexivity.
Qed.

(** ** Counters *)

Section od_nodup.
Context {V : Type}.
Implicit Types (d : list (string * V)) (k : string) (v : V).

Lemma od_get_Some_elem k v d : od_get k d = Some v → (k, v) ∈ d.
Proof.
  induction d as [|[k' v'] d IH]; simpl; [done|].
  destruct (String.eqb k k') eqn:E.
  - apply String.eqb_eq in E. intros [= ->]. subst. left.
  - intros H. right. by apply IH.
Qed.

Lemma od_elem_get k v d : NoDup (od_keys d) → (k, v) ∈ d → od_get k d = Some v.
Proof.
  unfold od_keys. induction d as [|[k' v'] d IH]; simpl.
  - intros _ H. by apply elem_of_nil in H.
  - intros [Hk Hnd]%NoDup_cons [[= -> ->]|Hin]%elem_of_cons.
    + by rewrite String.eqb_refl.
    + destruct (String.eqb k k') eqn:E; [|by apply IH].
      apply String.eqb_eq in E. subst k'. exfalso. apply Hk.
      apply list_elem_of_fmap. by exists (k, v).
Qed.

Lemma od_set_nodup k v d : NoDup (od_keys d) → NoDup (od_keys (od_set k v d)).
Proof.
  intros Hnd. destruct (od_get k d) as [v0|] eqn:E.
  - by rewrite (od_keys_set_present _ _ _ _ E).
  - rewrite (od_set_absent _ _ _ E). unfold od_keys in *. rewrite map_app. simpl.
    apply NoDup_app. split; [done|]. split; [|apply NoDup_singleton].
    intros x Hx ->%list_elem_of_singleton. by apply od_get_None_not_in in E.
Qed.

Lemma od_set_not_nil k v d : od_set k v d ≠ [].
Proof. destruct d as [|[k' v'] d]; simpl; [done|]. by destruct (String.eqb k k'). Qed.
End od_nodup.

Lemma counter_incr_get_eq c k :
  od_get k (counter_incr c k) = Some (S (default O (od_get k c))).
Proof. unfold counter_incr. destruct (od_get k c); apply od_get_set_eq. Qed.

Lemma counter_incr_get_ne c k k' :
  k ≠ k' → od_get k' (counter_incr c k) = od_get k' c.
Proof. intros H. unfold counter_incr. destruct (od_get k c); by apply od_get_set_ne. Qed.

Lemma counter_incr_nodup c k : NoDup (od_keys c) → NoDup (od_keys (counter_incr c k)).
Proof. unfold counter_incr. destruct (od_get k c); apply od_set_nodup. Qed.

Lemma counter_incr_not_nil c k : counter_incr c k ≠ [].
Proof. unfold counter_incr. destruct (od_get k c); apply od_set_not_nil. Qed.

Lemma counter_fold_count l : ∀ c k,
  default O (od_get k (fold_left counter_incr l c))
  = (default O (od_get k c) + count_of k l)%nat.
Proof.
  unfold count_of. induction l as [|x l IH]; intros c k; simpl; [lia|].
  rewrite IH. destruct (String.eqb k x) eqn:E.
  - apply String.eqb_eq in E. subst x. rewrite counter_incr_get_eq. simpl. lia.
  - apply String.eqb_neq in E. by rewrite counter_incr_get_ne.
Qed.

Lemma counter_fold_nodup l : ∀ c,
  NoDup (od_keys c) → NoDup (od_keys (fold_left counter_incr l c)).
Proof.
  induction l as [|x l IH]; intros c H; simpl; [done|].
  by apply IH, counter_incr_nodup.
Qed.

Lemma counter_fold_not_nil l : ∀ c, c ≠ [] → fold_left counter_incr l c ≠ [].
Proof.
  induction l as [|x l IH]; intros c H; simpl; [done|].
  apply IH, counter_incr_not_nil.
Qed.

Lemma Counter_not_nil l : l ≠ [] → Counter l ≠ [].
Proof.
  destruct l as [|x l]; [done|]. intros _. unfold Counter. simpl.
  apply counter_fold_not_nil, counter_incr_not_nil.
Qed.

Lemma Counter_count l k : default O (od_get k (Counter l)) = count_of k l.
Proof. unfold Counter. by rewrite counter_fold_count. Qed.

Lemma Counter_elem l k n : (k, n) ∈ Counter l → n = count_of k l ∧ (0 < n)%nat.
Proof.
  intros H. apply od_elem_get in H; [|apply counter_fold_nodup, NoDup_nil_2].
  pose proof (Counter_count l k) as Hc. rewrite H in Hc. simpl in Hc.
  split; [done|].
  (* a key of the counter was incremented at least once *)
  revert H. unfold Counter.
  assert (∀ c, (∀ k n, od_get k c = Some n → (0 < n)%nat) →
               ∀ k n, od_get k (fold_left counter_incr l c) = Some n → (0 < n)%nat)
    as Hpos.
  { clear. induction l as [|x l IH]; intros c Hc k n; simpl; [apply Hc|].
    apply IH. intros k' n'. destruct (decide (x = k')) as [->|Hne].
    - rewrite counter_incr_get_eq. intros [= <-]. lia.
    - rewrite counter_incr_get_ne by done. apply Hc. }
  apply Hpos. intros k' n'. simpl. discriminate.
Qed.

Lemma count_of_pos_elem k l : (0 < count_of k l)%nat → k ∈ l.
Proof.
  unfold count_of. induction l as [|x l IH]; simpl; [lia|].
  destruct (String.eqb k x) eqn:E.
  - apply String.eqb_eq in E. subst. intros _. left.
  - intros H. right. by apply IH.
Qed.

Lemma max_by_count_fold (l : list (string * nat)) : ∀ x,
  let m := fold_left (fun best item =>
             if (snd best <? snd item)%nat then item else best) l x in
  (m = x ∨ m ∈ l) ∧ (snd x ≤ snd m)%nat ∧ ∀ y, y ∈ l → (snd y ≤ snd m)%nat.
Proof.
  induction l as [|y l IH]; intros x; simpl.
  - split; [by left|]. split; [lia|]. intros y Hy. by apply elem_of_nil in Hy.
  - destruct (snd x <? snd y)%nat eqn:E.
    + apply Nat.ltb_lt in E. destruct (IH y) as (Hm & Hle & Hall).
      split; [right; destruct Hm as [->|Hm]; [left | by right]|].
      split; [lia|]. intros z [->|Hz]%elem_of_cons; auto.
    + apply Nat.ltb_ge in E. destruct (IH x) as (Hm & Hle & Hall).
      split; [destruct Hm as [->|Hm]; [by left | right; by right]|].
      split; [lia|]. intros z [->|Hz]%elem_of_cons; [lia | auto].
Qed.

Lemma max_by_count_spec items m :
  max_by_count items = Some m → m ∈ items ∧ ∀ y, y ∈ items → (snd y ≤ snd m)%nat.
Proof.
  destruct items as [|x l]; simpl; [done|]. intros [= <-].
  destruct (max_by_count_fold l x) as (Hm & Hle & Hall).
  split.
  - destruct Hm as [->|Hm]; [left | by right].
  - intros y [->|Hy]%elem_of_cons; auto.
Qed.

Lemma max_by_count_not_nil items : items ≠ [] → is_Some (max_by_count items).
Proof. destruct items; [done|]. intros _. by eexists. Qed.

(** The first maximum of a counter is a most frequent element. *)
Lemma Counter_max_most_frequent l k n :
  max_by_count (Counter l) = Some (k, n) → n = count_of k l ∧ most_frequent k l.
Proof.
  intros H. apply max_by_count_spec in H as [Hin Hall].
  destruct (Counter_elem _ _ _ Hin) as [-> Hpos].
  split; [done|]. split; [by apply count_of_pos_elem|].
  intros k'. rewrite <- (Counter_count l k').
  destruct (od_get k' (Counter l)) as [n'|] eqn:E; simpl; [|lia].
  apply od_get_Some_elem in E. apply (Hall (k', n') E).
Qed.

Lemma node_degrees_Counter rels : node_degrees rels = Counter (endpoints rels).
Proof.
  unfold node_degrees, Counter, endpoints. generalize (@nil (string * nat)).
  induction rels as [|r rels IH]; intros c; simpl; [done|]. apply IH.
Qed.

(** ** Pattern analysis *)

(** C7, as the code has it: on a store with an entity and a relation the
    analysis emits, in this order, one insight for a most frequent entity
    type and one for a most frequent relation type, both with confidence
    0.9, and a third, with confidence 0.8, for the first node of highest
    degree only when that node's id is the id of a stored entity; the
    insights are appended to the collection. *)
Theorem analyze_patterns_insights (w : World) :
  entities w ≠ [] → relations w ≠ [] →
  ∃ (ety rty node : string) (i1 i2 : KnowledgeInsight) (rest : list KnowledgeInsight),
    result analyze_patterns w = Ok (i1 :: i2 :: rest)
    ∧ insights (exec analyze_patterns w) = insights w ++ i1 :: i2 :: rest
    ∧ most_frequent ety (map ent_type (od_values (entities w)))
    ∧ title i1 = entity_distribution_title
    ∧ description i1 !! 1%nat = Some (FLit ety)
    ∧ ins_confidence i1 = 0.9%float
    ∧ most_frequent rty (map rel_relation_type (od_values (relations w)))
    ∧ title i2 = relation_distribution_title
    ∧ description i2 !! 1%nat = Some (FLit rty)
    ∧ ins_confidence i2 = 0.9%float
    ∧ most_frequent node (endpoints (od_values (relations w)))
    ∧ max_by_count (node_degrees (od_values (relations w)))
      = Some (node, count_of node (endpoints (od_values (relations w))))
    ∧ match od_get node (entities w) with
      | Some entity =>
          ∃ i3, rest = [i3]
                ∧ title i3 = connectivity_title
                ∧ description i3 !! 1%nat = Some (FLit (ent_name entity))
                ∧ ins_confidence i3 = 0.8%float
      | None => rest = []
      end.
Proof.
  intros Hents Hrels.
  destruct (max_by_count_not_nil (Counter (map ent_type (od_values (entities w)))))
    as [[ety n1] H1].
  { apply Counter_not_nil. by destruct (entities w). }
  destruct (max_by_count_not_nil (Counter (map rel_relation_type (od_values (relations w)))))
    as [[rty n2] H2].
  { apply Counter_not_nil. by destruct (relations w). }
  destruct (max_by_count_not_nil (node_degrees (od_values (relations w))))
    as [[node n3] H3].
  { rewrite node_degrees_Counter. apply Counter_not_nil. by destruct (relations w). }
  pose proof (Counter_max_most_frequent _ _ _ H1) as [_ Hf1].
  pose proof (Counter_max_most_frequent _ _ _ H2) as [_ Hf2].
  pose proof H3 as H3'. rewrite node_degrees_Counter in H3'.
  apply Counter_max_most_frequent in H3' as [-> Hf3].
  exists ety, rty, node.
  unfold result, exec, analyze_patterns, bind, gets. simpl.
  rewrite H1. simpl. rewrite H2. simpl. rewrite H3. simpl.
  destruct (od_get node (entities w)) as [entity|] eqn:E; simpl.
  - do 3 eexists. split; [reflexivity|]. split; [reflexivity|].
    repeat (split; [done|]). eexists. by repeat split.
  - do 3 eexists. split; [reflexivity|]. split; [reflexivity|].
    by repeat (split; [done|]).
Qed.

(** A store whose only relation joins two ids that are not entity ids. *)
Lemma analyze_patterns_insights_witness :
  ∃ i1 i2 rest,
    result analyze_patterns
      (exec (add_entity "Foo" "concept" None 1 "manual" ;;;
             add_relation "p" "q" "uses" None 1 "manual")
            (fresh_world ticking_clock))
    = Ok (i1 :: i2 :: rest).
Proof.
  destruct (analyze_patterns_insights
              (exec (add_entity "Foo" "concept" None 1 "manual" ;;;
                     add_relation "p" "q" "uses" None 1 "manual")
                    (fresh_world ticking_clock)))
    as (ety & rty & node & i1 & i2 & rest & H & _).
  - vm_compute. discriminate.
  - vm_compute. discriminate.
  - by exists i1, i2, rest.
Defined.

(** C7 as stated fails: with one entity and one relation between ids that
    are no entity ids, the analysis emits the two distribution insights and
    none for the highest-degree node. *)
Lemma analyze_patterns_without_connectivity :
  let w := exec (add_entity "Foo" "concept" None 1 "manual" ;;;
                 add_relation "p" "q" "uses" None 1 "manual")
                (fresh_world ticking_clock) in
  length (entities w) = 1%nat ∧ length (relations w) = 1%nat
  ∧ match result analyze_patterns w with
    | Ok found =>
        map title found = [entity_distribution_title; relation_distribution_title]
        ∧ map ins_confidence found = [0.9%float; 0.9%float]
    | Raise _ => False
    end.
Proof. vm_compute. repeat split; reflexivity. Qed.

(** ** Path search *)

Section dfs_facts.
Context (rels : list KnowledgeRelation) (target_id : string) (max_depth : Z).
Implicit Types (st : gset string * list (list string)) (path : list string).

Lemma dfs_S fuel current_id path depth st :
  dfs (S fuel) rels target_id max_depth current_id path depth st
  = if max_depth <? depth then st
    else if String.eqb current_id target_id && (1 <? length path)%nat
    then (st.1, st.2 ++ [path])
    else if bool_decide (current_id ∈ st.1) then st
    else
      let st2 := dfs_loop fuel rels target_id max_depth current_id path depth rels
                          ({[current_id]} ∪ st.1, st.2) in
      (st2.1 ∖ {[current_id]}, st2.2).
Proof. reflexivity. Qed.

Lemma dfs_loop_nil fuel cur path depth st :
  dfs_loop fuel rels target_id max_depth cur path depth [] st = st.
Proof. reflexivity. Qed.

Lemma dfs_loop_take fuel cur path depth r l st :
  rel_source_id r = cur →
  dfs_loop fuel rels target_id max_depth cur path depth (r :: l) st
  = dfs_loop fuel rels target_id max_depth cur path depth l
      (dfs fuel rels target_id max_depth (rel_target_id r)
           (path ++ [rel_relation_type r; rel_target_id r]) (depth + 1) st).
Proof. intros <-. unfold dfs_loop. simpl. by rewrite String.eqb_refl. Qed.

Lemma dfs_loop_skip fuel cur path depth r l st :
  rel_source_id r ≠ cur →
  dfs_loop fuel rels target_id max_depth cur path depth (r :: l) st
  = dfs_loop fuel rels target_id max_depth cur path depth l st.
Proof.
  intros H. apply String.eqb_neq in H. unfold dfs_loop. simpl. by rewrite H.
Qed.

Lemma dfs_too_deep fuel cur path depth st :
  max_depth < depth →
  dfs (S fuel) rels target_id max_depth cur path depth st = st.
Proof. intros H. rewrite dfs_S. apply Z.ltb_lt in H. by rewrite H. Qed.

Lemma dfs_emit fuel path depth st :
  depth ≤ max_depth → (1 < length path)%nat →
  dfs (S fuel) rels target_id max_depth target_id path depth st
  = (st.1, st.2 ++ [path]).
Proof.
  intros H1 H2. rewrite dfs_S. apply Z.ltb_ge in H1. apply Nat.ltb_lt in H2.
  by rewrite H1, String.eqb_refl, H2.
Qed.

Lemma dfs_expand fuel cur path depth st :
  depth ≤ max_depth → cur ≠ target_id ∨ (length path ≤ 1)%nat → cur ∉ st.1 →
  dfs (S fuel) rels target_id max_depth cur path depth st
  = ((dfs_loop fuel rels target_id max_depth cur path depth rels
               ({[cur]} ∪ st.1, st.2)).1 ∖ {[cur]},
     (dfs_loop fuel rels target_id max_depth cur path depth rels
               ({[cur]} ∪ st.1, st.2)).2).
Proof.
  intros H1 H2 H3. rewrite dfs_S. apply Z.ltb_ge in H1. rewrite H1.
  assert (String.eqb cur target_id && (1 <? length path)%nat = false) as ->.
  { destruct H2 as [H2|H2].
    - apply String.eqb_neq in H2. by rewrite H2.
    - apply Nat.ltb_ge in H2. rewrite H2. apply andb_false_r. }
  by rewrite (bool_decide_eq_false_2 _ H3).
Qed.

(** [visited] is the same set after a call as before it: every id added is
    removed again, and [visited.remove] always finds its element. *)
Lemma dfs_visited fuel : ∀ cur path depth st,
  (dfs fuel rels target_id max_depth cur path depth st).1 = st.1.
Proof.
  induction fuel as [|fuel IH]; intros cur path depth st; [done|].
  rewrite dfs_S. destruct (max_depth <? depth); [done|].
  destruct (_ && _); [done|].
  destruct (bool_decide (cur ∈ st.1)) eqn:E; [done|].
  apply bool_decide_eq_false in E. cbv zeta. cbn [fst].
  assert (∀ l st', (dfs_loop fuel rels target_id max_depth cur path depth l st').1
                   = st'.1) as Hloop.
  { induction l as [|r l IHl]; intros st'; [done|].
    destruct (decide (rel_source_id r = cur)) as [Hr|Hr].
    - rewrite (dfs_loop_take _ _ _ _ _ _ _ Hr), IHl. apply IH.
    - by rewrite (dfs_loop_skip _ _ _ _ _ _ _ Hr), IHl. }
  rewrite Hloop. cbn [fst]. apply set_eq. intros x.
  rewrite elem_of_difference, elem_of_union, elem_of_singleton.
  split; [by intros [[->|Hx] Hne] | intros Hx; split; [by right | by intros ->]].
Qed.

(** Every path found ends at the target and has more than one element;
    paths found earlier are kept. *)
Lemma dfs_paths fuel : ∀ cur path depth st,
  last path = Some cur →
  Forall (fun p => last p = Some target_id ∧ (1 < length p)%nat) st.2 →
  Forall (fun p => last p = Some target_id ∧ (1 < length p)%nat)
         (dfs fuel rels target_id max_depth cur path depth st).2.
Proof.
  induction fuel as [|fuel IH]; intros cur path depth st Hlast Hst; [done|].
  rewrite dfs_S. destruct (max_depth <? depth); [done|].
  destruct (String.eqb cur target_id && (1 <? length path)%nat) eqn:E.
  - apply andb_true_iff in E as [E1 E2].
    apply String.eqb_eq in E1. apply Nat.ltb_lt in E2. subst cur.
    cbn [snd]. apply Forall_app. split; [done|]. by apply Forall_singleton.
  - destruct (bool_decide (cur ∈ st.1)); [done|]. cbv zeta. cbn [snd].
    assert (∀ l st',
      Forall (fun p => last p = Some target_id ∧ (1 < length p)%nat) st'.2 →
      Forall (fun p => last p = Some target_id ∧ (1 < length p)%nat)
        (dfs_loop fuel rels target_id max_depth cur path depth l st').2) as Hloop.
    { induction l as [|r l IHl]; intros st' Hst'; [done|].
      destruct (decide (rel_source_id r = cur)) as [Hr|Hr].
      - rewrite (dfs_loop_take _ _ _ _ _ _ _ Hr). apply IHl, IH; [|done].
        change [rel_relation_type r; rel_target_id r]
          with ([rel_relation_type r] ++ [rel_target_id r]).
        rewrite app_assoc. apply last_snoc.
      - rewrite (dfs_loop_skip _ _ _ _ _ _ _ Hr). by apply IHl. }
    by apply Hloop.
Qed.

(** More fuel than the depth bound needs changes nothing. *)
Lemma dfs_fuel_enough fuel1 : ∀ fuel2 cur path depth st,
  (Z.to_nat (max_depth + 1 - depth) < fuel1)%nat →
  (Z.to_nat (max_depth + 1 - depth) < fuel2)%nat →
  dfs fuel1 rels target_id max_depth cur path depth st
  = dfs fuel2 rels target_id max_depth cur path depth st.
Proof.
  induction fuel1 as [|fuel1 IH]; intros fuel2 cur path depth st H1 H2; [lia|].
  destruct fuel2 as [|fuel2]; [lia|].
  rewrite !dfs_S. destruct (max_depth <? depth) eqn:E; [done|].
  apply Z.ltb_ge in E.
  destruct (_ && _); [done|]. destruct (bool_decide _); [done|].
  assert (∀ l st',
    dfs_loop fuel1 rels target_id max_depth cur path depth l st'
    = dfs_loop fuel2 rels target_id max_depth cur path depth l st') as Hloop.
  { induction l as [|r l IHl]; intros st'; [done|].
    destruct (decide (rel_source_id r = cur)) as [Hr|Hr].
    - rewrite !(dfs_loop_take _ _ _ _ _ _ _ Hr), IHl. f_equal. apply IH; lia.
    - by rewrite !(dfs_loop_skip _ _ _ _ _ _ _ Hr), IHl. }
  cbv zeta. by rewrite Hloop.
Qed.
End dfs_facts.

Lemma find_path_result source_id target_id max_depth w :
  result (find_path source_id target_id max_depth) w
  = Ok (dfs (dfs_fuel max_depth) (od_values (relations w)) target_id max_depth
            source_id [source_id] 0 (∅, [])).2.
Proof. reflexivity. Qed.

(** Evaluation of [dfs] on a symbolic graph, one call or loop step at a
    time; the side conditions compare ids and depths. *)
Ltac dfs_side :=
  solve [ lia | congruence | simpl; lia | simpl; congruence
        | left; congruence | right; simpl; lia
        | simpl; rewrite ?elem_of_union, ?elem_of_singleton, ?elem_of_empty;
          intuition congruence ].

Ltac dfs_eval :=
  repeat first
    [ rewrite dfs_loop_nil
    | rewrite dfs_loop_take by dfs_side
    | rewrite dfs_loop_skip by dfs_side
    | rewrite dfs_too_deep by dfs_side
    | rewrite dfs_emit by dfs_side
    | rewrite dfs_expand by dfs_side
    | progress cbn [fst snd] ].

Lemma dfs_two_hops (A B C : string) (r1 r2 : KnowledgeRelation)
    (rels : list KnowledgeRelation) :
  joins r1 A "uses" B → joins r2 B "requires" C →
  rels = [r1; r2] ∨ rels = [r2; r1] →
  A ≠ B → B ≠ C →
  (dfs (dfs_fuel 2) rels C 2 A [A] 0 (∅, [])).2 = [[A; "uses"; B; "requires"; C]]
  ∧ (dfs (dfs_fuel 1) rels C 1 A [A] 0 (∅, [])).2 = [].
Proof.
  intros (Hs1 & Hy1 & Ht1) (Hs2 & Hy2 & Ht2) Hrels HAB HBC.
  change (dfs_fuel 2) with 4%nat. change (dfs_fuel 1) with 3%nat.
  split; destruct Hrels as [-> | ->];
    dfs_eval; rewrite ?Hs1, ?Hy1, ?Ht1, ?Hs2, ?Hy2, ?Ht2; dfs_eval; reflexivity.
Qed.

(** C2: with A -uses-> B and B -requires-> C as the only relations (in
    either order of insertion), the search from A to C finds exactly the
    path [A, uses, B, requires, C] within two hops and nothing within one;
    and whatever the store, a path is returned only if it ends at the target
    and has more than one element. *)
Theorem find_path_two_hops (w : World) (A B C : string) (r1 r2 : KnowledgeRelation) :
  joins r1 A "uses" B → joins r2 B "requires" C →
  od_values (relations w) = [r1; r2] ∨ od_values (relations w) = [r2; r1] →
  A ≠ B → B ≠ C →
  result (find_path A C 2) w = Ok [[A; "uses"; B; "requires"; C]]
  ∧ result (find_path A C 1) w = Ok []
  ∧ ∀ (w0 : World) (source_id target_id : string) (max_depth : Z),
      ∃ paths,
        result (find_path source_id target_id max_depth) w0 = Ok paths
        ∧ ∀ p, p ∈ paths → last p = Some target_id ∧ (1 < length p)%nat.
Proof.
  intros H1 H2 Hrels HAB HBC.
  destruct (dfs_two_hops A B C r1 r2 _ H1 H2 Hrels HAB HBC) as [Hd2 Hd1].
  rewrite !find_path_result, Hd2, Hd1.
  split; [done|]. split; [done|].
  intros w0 source_id target_id max_depth. eexists.
  split; [apply find_path_result|].
  apply Forall_forall, dfs_paths; [done | apply Forall_nil_2].
Qed.

(** The witness of [find_path_two_hops]: the two relations upserted into an
    empty store. *)
Lemma find_path_two_hops_witness :
  let w := exec (add_relation "A" "B" "uses" None 1 "manual" ;;;
                 add_relation "B" "C" "requires" None 1 "manual")
                (fresh_world ticking_clock) in
  result (find_path "A" "C" 2) w = Ok [["A"; "uses"; "B"; "requires"; "C"]]
  ∧ result (find_path "A" "C" 1) w = Ok [].
Proof.
  intros w.
  destruct (od_values (relations w)) as [|r1 [|r2 [|r3 l]]] eqn:E;
    try (vm_compute in E; discriminate).
  destruct (find_path_two_hops w "A" "B" "C" r1 r2) as (Hp2 & Hp1 & _).
  - vm_compute in E. injection E as <- <-. by repeat split.
  - vm_compute in E. injection E as <- <-. by repeat split.
  - by left.
  - discriminate.
  - discriminate.
  - by split.
Defined.

(** The depth bound is what ends the search: with more fuel than
    [dfs_fuel max_depth] the result is the same. *)
Lemma find_path_fuel_independent rels target_id max_depth source_id (extra : nat) :
  dfs (dfs_fuel max_depth + extra) rels target_id max_depth source_id [source_id] 0 (∅, [])
  = dfs (dfs_fuel max_depth) rels target_id max_depth source_id [source_id] 0 (∅, []).
Proof. apply dfs_fuel_enough; unfold dfs_fuel; lia. Qed.

(** ** The Reasoner and the Query collection *)

(** A loop whose body, under an invariant [I] of the world, returns a pure
    function of the loop state and appends [cost x] Query records. *)
Lemma foldM_inv {A St} (body : St → A → M St) (I : World → Prop)
    (step : St → A → St) (cost : A → nat) :
  (∀ s x w, I w →
     ∃ w', body s x w = (Ok (step s x), w') ∧ I w'
           ∧ length (queries w') = (length (queries w) + cost x)%nat) →
  ∀ l s w, I w →
    ∃ w', foldM body l s w = (Ok (fold_left step l s), w') ∧ I w'
          ∧ length (queries w') = (length (queries w) + list_sum (map cost l))%nat.
Proof.
  intros Hbody. induction l as [|x l IH]; intros s w HI; simpl.
  - exists w. split; [done|]. split; [done | lia].
  - destruct (Hbody s x w HI) as (w1 & Hrun & HI1 & Hq1).
    destruct (IH (step s x) w1 HI1) as (w2 & Hrun2 & HI2 & Hq2).
    exists w2. unfold bind. rewrite Hrun. split; [done|]. split; [done | lia].
Qed.

Lemma fold_left_append {A B} (f : A → list B) (l : list A) (acc : list B) :
  fold_left (fun acc x => acc ++ f x) l acc = acc ++ flat_map f l.
Proof.
  revert acc. induction l as [|x l IH]; intros acc; simpl.
  - by rewrite app_nil_r.
  - by rewrite IH, app_assoc.
Qed.


Lemma list_sum_length_flat_map {A B} (f : A → list B) (l : list A) :
  list_sum (map (fun x => length (f x)) l) = length (flat_map f l).
Proof.
  induction l as [|x l IH]; simpl; [done|]. by rewrite length_app, IH.
Qed.

(** One call of [query_relations]: the answer is a function of the
    relations, which it leaves alone with everything but the Query
    collection, which grows by one record. *)
Lemma query_relations_frame src tgt ty w :
  ∃ w', query_relations src tgt ty 0 w
        = (Ok (matching_relations (od_values (relations w)) src tgt ty), w')
        ∧ relations w' = relations w ∧ entities w' = entities w
        ∧ insights w' = insights w ∧ disk w' = disk w
        ∧ length (queries w') = S (length (queries w)).
Proof.
  eexists. rewrite query_relations_run. split; [reflexivity|]. simpl.
  repeat split. rewrite length_app. simpl. lia.
Qed.

Lemma check_chain_frame RR ty source acc target w :
  relations w = RR →
  ∃ w', check_chain ty source acc target w
        = (Ok (acc ++ List.filter (lacks_direct (od_values RR) ty)
                        (if negb (String.eqb target source)
                         then [(source, target)] else [])), w')
        ∧ relations w' = RR
        ∧ length (queries w')
          = (length (queries w) + if negb (String.eqb target source) then 1 else 0)%nat.
Proof.
  intros <-. unfold check_chain. destruct (negb (String.eqb target source)).
  - destruct (query_relations_frame (Some source) (Some target) (Some ty) w)
      as (w' & Hrun & Hrel & _ & _ & _ & Hq).
    exists w'. unfold bind. rewrite Hrun. clear Hrun.
    simpl. unfold lacks_direct. simpl.
    split; [|split; [done | lia]].
    destruct (matching_relations _ _ _ _); [done | by rewrite app_nil_r].
  - exists w. split; [by rewrite app_nil_r|]. split; [done | lia].
Qed.

Section scan.
Context (RR : list (string * KnowledgeRelation)) (relation_type : string).

Lemma filter_flat_map {A B} (P : B → bool) (f : A → list B) (l : list A) :
  flat_map (fun x => List.filter P (f x)) l = List.filter P (flat_map f l).
Proof.
  induction l as [|x l IH]; simpl; [done|]. by rewrite List.filter_app, IH.
Qed.

Lemma scans_foldM {A} body (cands : A → list (string * string)) :
  scans RR relation_type body cands →
  ∀ l, scans RR relation_type (fun acc (_ : unit) => foldM body l acc)
             (fun _ => flat_map cands l).
Proof.
  intros Hbody l acc [] w HR.
  destruct (foldM_inv body (fun w => relations w = RR)
              (fun acc x => acc ++ List.filter (lacks_direct (od_values RR) relation_type)
                                               (cands x))
              (fun x => length (cands x)) Hbody l acc w HR)
    as (w' & Hrun & HR' & Hq).
  exists w'. rewrite Hrun, fold_left_append, filter_flat_map.
  by rewrite list_sum_length_flat_map in Hq.
Qed.

Lemma scans_check_chain source :
  scans RR relation_type (check_chain relation_type source)
        (fun target => if negb (String.eqb target source)
                       then [(source, target)] else []).
Proof.
  intros acc target w HR.
  destruct (check_chain_frame RR relation_type source acc target w HR)
    as (w' & Hrun & HR' & Hq).
  exists w'. split; [done|]. split; [done|].
  rewrite Hq. by destruct (negb _).
Qed.

(** The three nested loops of [infer_transitive_relations]. *)
Lemma infer_scan_run g w :
  relations w = RR →
  ∃ w',
    foldM (fun acc source =>
      foldM (fun acc intermediate =>
        match od_get intermediate g with
        | Some targets => foldM (check_chain relation_type source) targets acc
        | None => ret acc
        end) (default [] (od_get source g)) acc)
      (od_keys g) [] w
    = (Ok (List.filter (lacks_direct (od_values RR) relation_type) (candidate_pairs g)),
       w')
    ∧ relations w' = RR
    ∧ length (queries w') = (length (queries w) + length (candidate_pairs g))%nat.
Proof.
  intros HR.
  refine (scans_foldM _
            (fun source =>
               flat_map (fun intermediate =>
                 match od_get intermediate g with
                 | Some targets =>
                     flat_map (fun target =>
                                 if negb (String.eqb target source)
                                 then [(source, target)] else []) targets
                 | None => []
                 end) (default [] (od_get source g)))
            _ (od_keys g) [] () w HR).
  intros acc source w1 HR1.
  refine (scans_foldM _
            (fun intermediate =>
               match od_get intermediate g with
               | Some targets =>
                   flat_map (fun target =>
                               if negb (String.eqb target source)
                               then [(source, target)] else []) targets
               | None => []
               end)
            _ (default [] (od_get source g)) acc () w1 HR1).
  intros acc2 intermediate w2 HR2.
  destruct (od_get intermediate g) as [targets|].
  - exact (scans_foldM _ _ (scans_check_chain source) targets acc2 () w2 HR2).
  - exists w2. simpl. rewrite app_nil_r. split; [done|]. split; [done | lia].
Qed.
End scan.

(** [add_relation] returns and leaves the Query collection alone. *)
Lemma add_relation_frame src tgt ty p c s w :
  ∃ w', add_relation src tgt ty p c s w = (Ok (relation_id_of src ty tgt), w')
        ∧ queries w' = queries w ∧ entities w' = entities w.
Proof.
  unfold add_relation, bind, gets. simpl.
  destruct (od_get _ _); simpl; eexists; (split; [reflexivity|]); by split.
Qed.

Lemma add_inferred_frame ty new : ∀ w,
  ∃ w', add_inferred ty new w = (Ok (), w')
        ∧ queries w' = queries w ∧ entities w' = entities w.
Proof.
  unfold add_inferred. induction new as [|[s t] new IH]; intros w; simpl.
  - by exists w.
  - destruct (add_relation_frame s t ty (Some inferred_properties) 0.6 "reasoning" w)
      as (w1 & Hrun & Hq1 & He1).
    destruct (IH w1) as (w2 & Hrun2 & Hq2 & He2).
    exists w2. unfold bind at 1 2. rewrite Hrun. simpl.
    split; [exact Hrun2|]. split; congruence.
Qed.

(** [infer_transitive_relations] in two phases: the scan, which only
    records queries, then the upserts of the pairs found. *)
Lemma infer_transitive_relations_run ty w :
  let g := relation_graph
             (matching_relations (od_values (relations w)) None None (Some ty)) in
  let new := List.filter (lacks_direct (od_values (relations w)) ty)
                         (candidate_pairs g) in
  ∃ w2,
    relations w2 = relations w
    ∧ length (queries w2) = (length (queries w) + 1 + length (candidate_pairs g))%nat
    ∧ infer_transitive_relations ty w = (Ok new, exec (add_inferred ty new) w2).
Proof.
  intros g new.
  destruct (query_relations_frame None None (Some ty) w)
    as (w1 & Hrun1 & Hrel1 & Hent1 & _ & _ & Hq1).
  destruct (infer_scan_run (relations w) ty g w1 Hrel1) as (w2 & Hrun2 & Hrel2 & Hq2).
  exists w2. split; [congruence|]. split; [lia|].
  unfold infer_transitive_relations, bind at 1. rewrite Hrun1.
  fold g. unfold bind at 1. rewrite Hrun2. fold new.
  fold (add_inferred ty new).
  destruct (add_inferred_frame ty new w2) as (w3 & Hrun3 & _).
  unfold bind, exec. by rewrite Hrun3.
Qed.





(** On a small store every Reasoner operation grows the Query collection. *)
Example reasoner_queries_grow :
  let w := exec (add_entity "parse" "function" None 1 "manual" ;;;
                 add_entity "parse tree" "function" None 1 "manual" ;;;
                 add_relation "A" "B" "calls" None 1 "manual" ;;;
                 add_relation "B" "C" "calls" None 1 "manual")
                (fresh_world ticking_clock) in
  length (queries w) = 0%nat
  ∧ length (queries (exec (infer_transitive_relations "calls") w)) = 2%nat
  ∧ length (queries (exec (find_similar_entities (entity_id_of "parse" "function") 0.4) w))
    = 1%nat
  ∧ length (queries (exec (recommend_relations (entity_id_of "parse" "function") 5) w))
    = 3%nat.
Proof. vm_compute. repeat split; reflexivity. Qed.

(** A pattern that does not compile: the entity query raises at the first
    entity of the requested type and records nothing; when no entity has the
    requested type [re.search] is never called and the query is recorded. *)
Example query_entities_bad_pattern :
  let re := fun p (_ : string) => if String.eqb p "(" then None else Some true in
  let w := exec (add_entity "Foo" "concept" None 1 "manual")
                (fresh_world ticking_clock) in
  query_entities re None (Some "(") 0 w = (Raise ReError, w)
  ∧ result (query_entities re (Some "library") (Some "(") 0) w = Ok []
  ∧ length (queries (exec (query_entities re (Some "library") (Some "(") 0) w)) = 1%nat.
Proof. repeat split; reflexivity. Qed.

(** ** Transitive inference *)

Lemma add_relation_new src tgt ty p c s w :
  od_get (relation_id_of src ty tgt) (relations w) = None →
  relations (exec (add_relation src tgt ty p c s) w)
  = relations w ++
      [(relation_id_of src ty tgt,
        mkRelation (relation_id_of src ty tgt) src tgt ty (or_empty p) c
                   (clock w (ticks w)) (clock w (S (ticks w))) s)].
Proof.
  intros H. unfold exec, add_relation, bind, gets. simpl. rewrite H. simpl.
  by rewrite od_set_absent.
Qed.

Lemma eqb_ne (a b : string) : a ≠ b → String.eqb a b = false.
Proof. apply String.eqb_neq. Qed.

(** Evaluation of the pure part of a scan on a store given by its
    relations, with the comparisons of ids taken from the context. *)
Ltac store_eval :=
  repeat first
    [ progress cbn [List.filter rel_source_id rel_target_id rel_relation_type
                    rel_confidence negb andb fst snd fold_right fold_left
                    insert_desc od_get od_set od_keys map flat_map app
                    default from_option id]
    | rewrite String.eqb_refl
    | match goal with
      | H : String.eqb _ _ = false |- _ => rewrite H
      | H : PrimFloat.ltb _ _ = false |- _ => rewrite H
      end
    | progress change (String.eqb "calls" "") with false
    | progress change (PrimFloat.ltb 0.6 0) with false
    | match goal with
      | |- context [if PrimFloat.ltb ?a ?b then _ else _] =>
          destruct (PrimFloat.ltb a b)
      end ].

Lemma first_scan (A B C : string) (r1 r2 : KnowledgeRelation)
    (R : list KnowledgeRelation) :
  joins r1 A "calls" B → joins r2 B "calls" C → visible r1 → visible r2 →
  R = [r1; r2] ∨ R = [r2; r1] →
  A ≠ "" → C ≠ "" → A ≠ B → B ≠ C → A ≠ C →
  candidate_pairs (relation_graph (matching_relations R None None (Some "calls")))
  = [(A, C)]
  ∧ lacks_direct R "calls" (A, C) = true.
Proof.
  intros H1 H2 V1 V2 HR HA HC HAB HBC HAC.
  destruct r1 as [i1 s1 t1 y1 p1 c1 ca1 ua1 so1], r2 as [i2 s2 t2 y2 p2 c2 ca2 ua2 so2].
  unfold joins, visible in *. simpl in H1, H2, V1, V2.
  destruct H1 as (-> & -> & ->), H2 as (-> & -> & ->).
  assert (EA : String.eqb A "" = false) by by apply eqb_ne.
  assert (EC : String.eqb C "" = false) by by apply eqb_ne.
  assert (EAB : String.eqb A B = false) by by apply eqb_ne.
  assert (EBA : String.eqb B A = false) by by apply eqb_ne.
  assert (EBC : String.eqb B C = false) by by apply eqb_ne.
  assert (ECB : String.eqb C B = false) by by apply eqb_ne.
  assert (EAC : String.eqb A C = false) by by apply eqb_ne.
  assert (ECA : String.eqb C A = false) by by apply eqb_ne.
  unfold lacks_direct, matching_relations, relation_matches, differs,
    candidate_pairs, relation_graph, graph_add, sorted_desc.
  split; destruct HR as [-> | ->]; store_eval; reflexivity.
Qed.

Section chains.
Context {A : Type} (key : A → float).

Lemma insert_desc_In x y (l : list A) : In y (insert_desc key x l) ↔ y = x ∨ In y l.
Proof.
  induction l as [|z l IH]; simpl; [intuition congruence|].
  destruct (PrimFloat.ltb _ _); simpl; [rewrite IH|]; intuition congruence.
Qed.

Lemma sorted_desc_In y (l : list A) : In y (sorted_desc key l) ↔ In y l.
Proof.
  unfold sorted_desc. induction l as [|x l IH]; simpl; [done|].
  rewrite insert_desc_In, IH. intuition congruence.
Qed.
End chains.

Lemma matching_relations_In R src tgt ty r :
  In r (matching_relations R src tgt ty)
  ↔ In r R ∧ relation_matches src tgt ty 0 r = true.
Proof. unfold matching_relations. by rewrite sorted_desc_In, filter_In. Qed.

Lemma graph_add_get g r s :
  od_get s (graph_add g r)
  = if String.eqb (rel_source_id r) s
    then Some (default [] (od_get s g) ++ [rel_target_id r])
    else od_get s g.
Proof.
  unfold graph_add. destruct (String.eqb (rel_source_id r) s) eqn:E.
  - apply String.eqb_eq in E. subst s.
    destruct (od_get (rel_source_id r) g); apply od_get_set_eq.
  - apply String.eqb_neq in E.
    destruct (od_get (rel_source_id r) g); by apply od_get_set_ne.
Qed.

(** Every edge of the adjacency map comes from a relation. *)
Lemma relation_graph_sound l : ∀ g s ts t,
  od_get s (fold_left graph_add l g) = Some ts → In t ts →
  (∃ r, In r l ∧ rel_source_id r = s ∧ rel_target_id r = t)
  ∨ (∃ ts0, od_get s g = Some ts0 ∧ In t ts0).
Proof.
  induction l as [|r l IH]; intros g s ts t Hget Hin; simpl in *.
  - right. by exists ts.
  - destruct (IH _ _ _ _ Hget Hin) as [(r' & Hr' & Hs & Ht) | (ts0 & Hget0 & Hin0)].
    + left. exists r'. split; [by right | done].
    + rewrite graph_add_get in Hget0.
      destruct (String.eqb (rel_source_id r) s) eqn:E.
      * apply String.eqb_eq in E. injection Hget0 as <-.
        apply in_app_or in Hin0 as [Hold | [<- | []]].
        -- right. destruct (od_get s g) as [ts1|]; [by exists ts1 | done].
        -- left. exists r. split; [by left | done].
      * right. by exists ts0.
Qed.

Lemma candidate_pairs_sound g s t :
  In (s, t) (candidate_pairs g) →
  ∃ i ts ts', od_get s g = Some ts ∧ In i ts ∧ od_get i g = Some ts'
              ∧ In t ts' ∧ t ≠ s.
Proof.
  unfold candidate_pairs. intros (s' & _ & H)%in_flat_map.
  apply in_flat_map in H as (i & Hi & H).
  destruct (od_get i g) as [ts'|] eqn:Ei; [|done].
  apply in_flat_map in H as (t' & Ht' & H).
  destruct (String.eqb t' s') eqn:E; simpl in H; [done|].
  destruct H as [[= -> ->]|[]]. apply String.eqb_neq in E.
  destruct (od_get s g) as [ts|] eqn:Es; [|done]. simpl in Hi.
  by exists i, ts, ts'.
Qed.

Lemma filter_nil {A} (P : A → bool) (l : list A) :
  (∀ x, In x l → P x = false) → List.filter P l = [].
Proof.
  induction l as [|x l IH]; intros H; simpl; [done|].
  rewrite (H x (or_introl eq_refl)). apply IH. intros y Hy. apply H. by right.
Qed.

(** When every chain of two relations already has its direct relation, the
    scan finds nothing to add. *)
Lemma closed_scan R ty :
  (∀ ra rb, In ra R → In rb R →
     rel_target_id ra = rel_source_id rb → rel_target_id rb ≠ rel_source_id ra →
     lacks_direct R ty (rel_source_id ra, rel_target_id rb) = false) →
  List.filter (lacks_direct R ty)
    (candidate_pairs (relation_graph (matching_relations R None None (Some ty))))
  = [].
Proof.
  intros Hclosed. apply filter_nil. intros [s t] Hin.
  apply candidate_pairs_sound in Hin as (i & ts & ts' & Hs & Hi & Hi' & Ht & Hne).
  unfold relation_graph in Hs, Hi'.
  destruct (relation_graph_sound _ _ _ _ _ Hs Hi)
    as [(ra & Hra & <- & <-) | (? & ? & _)]; [|done].
  destruct (relation_graph_sound _ _ _ _ _ Hi' Ht)
    as [(rb & Hrb & Hsrc & <-) | (? & ? & _)]; [|done].
  apply matching_relations_In in Hra as [Hra _].
  apply matching_relations_In in Hrb as [Hrb _].
  by apply Hclosed.
Qed.

Lemma add_inferred_one ty s t w :
  relations (exec (add_inferred ty [(s, t)]) w)
  = relations (exec (add_relation s t ty (Some inferred_properties) 0.6 "reasoning") w).
Proof.
  destruct (add_relation_frame s t ty (Some inferred_properties) 0.6 "reasoning" w)
    as (w' & Hrun & _).
  unfold exec, add_inferred. simpl. unfold bind. by rewrite Hrun.
Qed.

(** C3: with A -calls-> B and B -calls-> C as the only relations (A, B, C
    distinct ids, A and C not empty, both relations with a confidence that
    queries return), one call of [infer_transitive_relations "calls"] returns
    the single pair (A, C) and appends exactly one relation, A -calls-> C,
    with confidence 0.6, the properties inferred = true and inference_type =
    transitive, and source "reasoning"; a second call at once returns no pair
    and leaves the relations as they are. *)
Theorem infer_transitive_calls
    (w : World) (A B C k1 k2 : string) (r1 r2 : KnowledgeRelation) :
  joins r1 A "calls" B → joins r2 B "calls" C → visible r1 → visible r2 →
  relations w = [(k1, r1); (k2, r2)] ∨ relations w = [(k2, r2); (k1, r1)] →
  A ≠ "" → C ≠ "" → A ≠ B → B ≠ C → A ≠ C →
  relation_id_of A "calls" C ≠ k1 → relation_id_of A "calls" C ≠ k2 →
  let w1 := exec (infer_transitive_relations "calls") w in
  result (infer_transitive_relations "calls") w = Ok [(A, C)]
  ∧ (∃ r, relations w1 = relations w ++ [(relation_id_of A "calls" C, r)]
          ∧ joins r A "calls" C
          ∧ rel_confidence r = 0.6%float
          ∧ rel_properties r = inferred_properties
          ∧ rel_properties r !! "inferred" = Some (VBool true)
          ∧ rel_properties r !! "inference_type" = Some (VStr "transitive")
          ∧ rel_source r = "reasoning")
  ∧ result (infer_transitive_relations "calls") w1 = Ok []
  ∧ relations (exec (infer_transitive_relations "calls") w1) = relations w1.
Proof.
  intros H1 H2 V1 V2 Hstore HA HC HAB HBC HAC Hk1 Hk2 w1.
  assert (HR : od_values (relations w) = [r1; r2] ∨ od_values (relations w) = [r2; r1]).
  { destruct Hstore as [-> | ->]; [by left | by right]. }
  destruct (first_scan A B C r1 r2 _ H1 H2 V1 V2 HR HA HC HAB HBC HAC) as [Hc Hl].
  (* the first call *)
  destruct (infer_transitive_relations_run "calls" w) as (w2 & Hrel2 & _ & Hrun).
  cbv zeta in Hrun. rewrite Hc in Hrun. simpl List.filter in Hrun. rewrite Hl in Hrun.
  assert (Hnone : od_get (relation_id_of A "calls" C) (relations w2) = None).
  { rewrite Hrel2. apply eqb_ne in Hk1, Hk2.
    destruct Hstore as [Hs | Hs]; rewrite Hs; cbn [od_get]; by rewrite Hk1, Hk2. }
  assert (Hw1 : relations w1
                = relations w ++
                    [(relation_id_of A "calls" C,
                      mkRelation (relation_id_of A "calls" C) A C "calls"
                        inferred_properties 0.6 (clock w2 (ticks w2))
                        (clock w2 (S (ticks w2))) "reasoning")]).
  { unfold w1, exec. rewrite Hrun. simpl snd.
    rewrite add_inferred_one, (add_relation_new _ _ _ _ _ _ _ Hnone). by rewrite Hrel2. }
  split; [unfold result; by rewrite Hrun|].
  split; [eexists; split; [exact Hw1|]; by repeat split|].
  (* the second call *)
  destruct (infer_transitive_relations_run "calls" w1) as (w3 & Hrel3 & _ & Hrun3).
  cbv zeta in Hrun3.
  rewrite closed_scan in Hrun3.
  { unfold result. unfold exec at 1. rewrite Hrun3. split; [done|].
    cbn [snd]. unfold exec, add_inferred. simpl. exact Hrel3. }
  clear Hrun3 Hrun. intros ra rb Hra Hrb Hlink Hloop.
  rewrite Hw1 in Hra, Hrb |- *.
  destruct r1 as [i1 s1 t1 y1 p1 c1 ca1 ua1 so1], r2 as [i2 s2 t2 y2 p2 c2 ca2 ua2 so2].
  unfold joins, visible in *. simpl in H1, H2, V1, V2.
  destruct H1 as (-> & -> & ->), H2 as (-> & -> & ->).
  assert (EA : String.eqb A "" = false) by by apply eqb_ne.
  assert (EC : String.eqb C "" = false) by by apply eqb_ne.
  assert (EAB : String.eqb A B = false) by by apply eqb_ne.
  assert (EBA : String.eqb B A = false) by by apply eqb_ne.
  assert (EBC : String.eqb B C = false) by by apply eqb_ne.
  assert (ECB : String.eqb C B = false) by by apply eqb_ne.
  unfold lacks_direct, matching_relations, relation_matches, differs, sorted_desc.
  destruct Hstore as [Hs | Hs]; rewrite Hs in Hra, Hrb |- *;
    cbn [od_values map app] in Hra, Hrb |- *; simpl in Hra, Hrb;
    destruct Hra as [<- | [<- | [<- | []]]], Hrb as [<- | [<- | [<- | []]]];
    simpl in Hlink, Hloop; try congruence;
    store_eval; reflexivity.
Qed.

(** The witness of [infer_transitive_calls]: the two relations upserted into
    an empty store. *)
Lemma infer_transitive_calls_witness :
  let w := exec (add_relation "A" "B" "calls" None 1 "manual" ;;;
                 add_relation "B" "C" "calls" None 1 "manual")
                (fresh_world ticking_clock) in
  result (infer_transitive_relations "calls") w = Ok [("A", "C")]
  ∧ result (infer_transitive_relations "calls")
           (exec (infer_transitive_relations "calls") w) = Ok [].
Proof.
  intros w.
  destruct (relations w) as [|[k1 r1] [|[k2 r2] [|x l]]] eqn:E;
    try (vm_compute in E; discriminate).
  destruct (infer_transitive_calls w "A" "B" "C" k1 k2 r1 r2)
    as (Hfirst & _ & Hsecond & _).
  - vm_compute in E. injection E as <- <- <- <-. by repeat split.
  - vm_compute in E. injection E as <- <- <- <-. by repeat split.
  - vm_compute in E. injection E as <- <- <- <-. reflexivity.
  - vm_compute in E. injection E as <- <- <- <-. reflexivity.
  - left. exact E.
  - discriminate.
  - discriminate.
  - discriminate.
  - discriminate.
  - discriminate.
  - vm_compute in E. injection E as <- <- <- <-. vm_compute. discriminate.
  - vm_compute in E. injection E as <- <- <- <-. vm_compute. discriminate.
  - by split.
Defined.

(** The same scenario, run: the relation added is the third one and a
    second call adds none. *)
Example infer_transitive_calls_run :
  let w := exec (add_relation "A" "B" "calls" None 1 "manual" ;;;
                 add_relation "B" "C" "calls" None 1 "manual")
                (fresh_world ticking_clock) in
  let w1 := exec (infer_transitive_relations "calls") w in
  length (relations w) = 2%nat ∧ length (relations w1) = 3%nat
  ∧ length (relations (exec (infer_transitive_relations "calls") w1)) = 3%nat.
Proof. vm_compute. repeat split; reflexivity. Qed.

(** * Further properties of the store *)

(** ** Shape of the ids *)

Lemma le_bytes_length n : ∀ x, length (MD5.le_bytes n x) = n.
Proof. induction n as [|n IH]; intros x; simpl; [done | by rewrite IH]. Qed.

Lemma le_bytes_range n : ∀ x b, b ∈ MD5.le_bytes n x → 0 ≤ b < 256.
Proof.
  induction n as [|n IH]; intros x b; simpl.
  - intros H. by apply elem_of_nil in H.
  - intros [-> | H]%elem_of_cons; [|by apply IH in H].
    change 255 with (Z.ones 8). rewrite Z.land_ones by lia.
    apply Z.mod_pos_bound. lia.
Qed.

Lemma hex_length bs : String.length (MD5.hex bs) = (2 * length bs)%nat.
Proof. induction bs as [|b bs IH]; simpl; [done | rewrite IH; lia]. Qed.

Lemma hex_digit_is_hex n : 0 ≤ n < 16 → is_hex_char (MD5.hex_digit n) = true.
Proof.
  intros H.
  assert (n = 0 ∨ n = 1 ∨ n = 2 ∨ n = 3 ∨ n = 4 ∨ n = 5 ∨ n = 6 ∨ n = 7 ∨ n = 8
          ∨ n = 9 ∨ n = 10 ∨ n = 11 ∨ n = 12 ∨ n = 13 ∨ n = 14 ∨ n = 15)
    as Hn by lia.
  repeat (destruct Hn as [-> | Hn]; [reflexivity|]). by subst.
Qed.

Lemma hex_all_hex bs :
  (∀ b, b ∈ bs → 0 ≤ b < 256) → all_chars is_hex_char (MD5.hex bs) = true.
Proof.
  induction bs as [|b bs IH]; intros H; simpl; [done|].
  assert (0 ≤ b < 256) as Hb by (apply H; left).
  rewrite !hex_digit_is_hex, IH; [done | | |].
  - intros b' Hb'. apply H. by right.
  - change 15 with (Z.ones 4). rewrite Z.land_ones by lia.
    apply Z.mod_pos_bound. lia.
  - rewrite Z.shiftr_div_pow2 by lia. change (2 ^ 4) with 16.
    split; [apply Z.div_pos; lia | apply Z.div_lt_upper_bound; lia].
Qed.

Lemma substring_prefix_length n : ∀ s,
  (n ≤ String.length s)%nat → String.length (substring 0 n s) = n.
Proof.
  induction n as [|n IH]; intros s H.
  - by destruct s.
  - destruct s as [|c s]; simpl in *; [lia|]. rewrite IH; [done | lia].
Qed.

Lemma substring_prefix_all_chars P n : ∀ s,
  all_chars P s = true → all_chars P (substring 0 n s) = true.
Proof.
  induction n as [|n IH]; intros s H.
  - by destruct s.
  - destruct s as [|c s]; simpl in *; [done|].
    apply andb_true_iff in H as [-> H]. by rewrite IH.
Qed.

Lemma digest_length msg : length (MD5.digest msg) = 16%nat.
Proof. unfold MD5.digest. by rewrite !length_app, !le_bytes_length. Qed.

Lemma digest_range msg b : b ∈ MD5.digest msg → 0 ≤ b < 256.
Proof.
  unfold MD5.digest. rewrite !elem_of_app.
  intros [H | [H | [H | H]]]; by apply le_bytes_range in H.
Qed.

(** Every id the store derives, for entities and for relations, is a string
    of exactly 16 characters, each one of 0-9 and a-f; in particular no id is
    the empty string. *)
Theorem ids_are_16_hex_digits :
  (∀ s, String.length (md5_16 s) = 16%nat ∧ all_chars is_hex_char (md5_16 s) = true)
  ∧ (∀ name entity_type,
       String.length (entity_id_of name entity_type) = 16%nat
       ∧ all_chars is_hex_char (entity_id_of name entity_type) = true
       ∧ entity_id_of name entity_type ≠ "")
  ∧ (∀ source_id relation_type target_id,
       String.length (relation_id_of source_id relation_type target_id) = 16%nat
       ∧ all_chars is_hex_char (relation_id_of source_id relation_type target_id) = true
       ∧ relation_id_of source_id relation_type target_id ≠ "").
Proof.
  assert (H : ∀ s, String.length (md5_16 s) = 16%nat
                   ∧ all_chars is_hex_char (md5_16 s) = true).
  { intros s. unfold md5_16, MD5.hexdigest. split.
    - apply substring_prefix_length. rewrite hex_length, digest_length. lia.
    - apply substring_prefix_all_chars, hex_all_hex, digest_range. }
  assert (Hne : ∀ s, md5_16 s ≠ "").
  { intros s E. destruct (H s) as [Hl _]. by rewrite E in Hl. }
  split; [exact H|]. split.
  - intros name ty. unfold entity_id_of. destruct (H (name ++ "_" ++ ty)%string).
    by repeat split.
  - intros s ty t. unfold relation_id_of.
    destruct (H (s ++ "_" ++ ty ++ "_" ++ t)%string). by repeat split.
Qed.

(** ** Relation upsert *)

Lemma add_relation_returns src tgt ty p c s w :
  result (add_relation src tgt ty p c s) w = Ok (relation_id_of src ty tgt).
Proof.
  unfold result, add_relation, bind, gets. simpl.
  destruct (od_get _ _); reflexivity.
Qed.

Lemma add_relation_existing src tgt ty p c s w relation :
  od_get (relation_id_of src ty tgt) (relations w) = Some relation →
  relations (exec (add_relation src tgt ty p c s) w)
  = od_set (relation_id_of src ty tgt)
      (mkRelation (rel_id relation) (rel_source_id relation) (rel_target_id relation)
         (rel_relation_type relation)
         (or_empty p ∪ rel_properties relation)
         (py_max (rel_confidence relation) c)
         (rel_created_at relation) (clock w (ticks w)) (rel_source relation))
      (relations w).
Proof.
  intros H. unfold exec, add_relation, bind, gets. simpl. rewrite H. reflexivity.
Qed.

Lemma add_relation_ticks_new src tgt ty p c s w :
  od_get (relation_id_of src ty tgt) (relations w) = None →
  ticks (exec (add_relation src tgt ty p c s) w) = S (S (ticks w))
  ∧ clock (exec (add_relation src tgt ty p c s) w) = clock w.
Proof.
  intros H. unfold exec, add_relation, bind, gets. simpl. by rewrite H.
Qed.

(** Upserting the same (source, type, target) twice, the first call
    creating the relation: both calls return the same id, no second relation
    appears, and the stored relation keeps its endpoints, type, creation time
    and source tag, takes the union of the properties with the second
    call's values winning and the larger confidence, and is stamped with the
    second call's clock reading. *)
Theorem upsert_relation_twice
    (w : World) (src tgt ty : string) (p1 p2 : option (gmap string value))
    (c1 c2 : float) (s1 s2 : string) :
  od_get (relation_id_of src ty tgt) (relations w) = None →
  let w1 := exec (add_relation src tgt ty p1 c1 s1) w in
  let w2 := exec (add_relation src tgt ty p2 c2 s2) w1 in
  result (add_relation src tgt ty p1 c1 s1) w = Ok (relation_id_of src ty tgt)
  ∧ result (add_relation src tgt ty p2 c2 s2) w1 = Ok (relation_id_of src ty tgt)
  ∧ length (relations w1) = S (length (relations w))
  ∧ od_keys (relations w2) = od_keys (relations w1)
  ∧ ∃ r,
      od_get (relation_id_of src ty tgt) (relations w2) = Some r
      ∧ joins r src ty tgt
      ∧ rel_id r = relation_id_of src ty tgt
      ∧ rel_properties r = or_empty p2 ∪ or_empty p1
      ∧ rel_confidence r = py_max c1 c2
      ∧ rel_created_at r = clock w (ticks w)
      ∧ rel_updated_at r = clock w (S (S (ticks w)))
      ∧ rel_source r = s1.
Proof.
  intros Hnew w1 w2.
  pose proof (add_relation_new src tgt ty p1 c1 s1 w Hnew) as Hrels.
  destruct (add_relation_ticks_new src tgt ty p1 c1 s1 w Hnew) as [Hticks Hclock].
  fold w1 in Hrels, Hticks, Hclock.
  set (r1 := mkRelation (relation_id_of src ty tgt) src tgt ty (or_empty p1) c1
                        (clock w (ticks w)) (clock w (S (ticks w))) s1) in *.
  assert (Hget1 : od_get (relation_id_of src ty tgt) (relations w1) = Some r1).
  { rewrite Hrels, <- (od_set_absent _ r1 _ Hnew). apply od_get_set_eq. }
  pose proof (add_relation_existing src tgt ty p2 c2 s2 w1 r1 Hget1) as Hrels2.
  fold w2 in Hrels2.
  split; [apply add_relation_returns|]. split; [apply add_relation_returns|].
  split; [rewrite Hrels, length_app; simpl; lia|].
  split; [rewrite Hrels2; by apply od_keys_set_present with r1|].
  eexists. split; [rewrite Hrels2; apply od_get_set_eq|].
  simpl. rewrite Hticks, Hclock. by repeat split.
Qed.

Lemma upsert_relation_twice_witness :
  od_get (relation_id_of "A" "uses" "B") (relations (fresh_world ticking_clock)) = None
  ∧ od_keys (relations
       (exec (add_relation "A" "B" "uses" None 0.9 "text")
          (exec (add_relation "A" "B" "uses" None 0.5 "manual")
                (fresh_world ticking_clock))))
    = od_keys (relations
         (exec (add_relation "A" "B" "uses" None 0.5 "manual")
               (fresh_world ticking_clock))).
Proof.
  split; [reflexivity|].
  apply (upsert_relation_twice (fresh_world ticking_clock) "A" "B" "uses"
           None None 0.5 0.9 "manual" "text").
  reflexivity.
Defined.

(** ** What an upsert leaves alone *)

Lemma od_set_length_absent {V} k (v : V) d :
  od_get k d = None → length (od_set k v d) = S (length d).
Proof. intros H. rewrite (od_set_absent _ _ _ H), length_app. simpl. lia. Qed.

Lemma add_relation_get_other src tgt ty p c s w k :
  k ≠ relation_id_of src ty tgt →
  od_get k (relations (exec (add_relation src tgt ty p c s) w)) = od_get k (relations w).
Proof.
  intros Hk.
  destruct (od_get (relation_id_of src ty tgt) (relations w)) as [r0|] eqn:E.
  - rewrite (add_relation_existing _ _ _ _ _ _ _ _ E). apply od_get_set_ne. congruence.
  - rewrite (add_relation_new _ _ _ _ _ _ _ E), <- (od_set_absent _ _ _ E).
    apply od_get_set_ne. congruence.
Qed.

Lemma add_relation_stored src tgt ty p c s w :
  is_Some (od_get (relation_id_of src ty tgt)
             (relations (exec (add_relation src tgt ty p c s) w))).
Proof.
  destruct (od_get (relation_id_of src ty tgt) (relations w)) as [r0|] eqn:E.
  - rewrite (add_relation_existing _ _ _ _ _ _ _ _ E), od_get_set_eq. by eexists.
  - rewrite (add_relation_new _ _ _ _ _ _ _ E), <- (od_set_absent _ _ _ E), od_get_set_eq.
    by eexists.
Qed.

Lemma add_relation_rest src tgt ty p c s w :
  entities (exec (add_relation src tgt ty p c s) w) = entities w
  ∧ queries (exec (add_relation src tgt ty p c s) w) = queries w
  ∧ insights (exec (add_relation src tgt ty p c s) w) = insights w
  ∧ outputs (exec (add_relation src tgt ty p c s) w) = outputs w.
Proof.
  unfold exec, add_relation, bind, gets. simpl. by destruct (od_get _ _).
Qed.

(** [add_entity] writes to one record only: every entity stored under
    another id keeps its id, name, type, confidence, time stamps and source
    tag, and so does every relation, key by key and in order; queries,
    insights and exported files are as before; the store grows by one entity
    exactly when the id was new; and the files on disk hold the new state
    when the call returns.  Nothing is said of the property maps of the other
    records: a record that shares the dict of the upserted entity sees the
    update. *)
Theorem add_entity_frame (w : World) (name ty : string)
    (p : option (gmap string value)) (c : float) (s : string) :
  let w' := exec (add_entity name ty p c s) w in
  (∀ k, k ≠ entity_id_of name ty →
        option_map entity_header (od_get k (entities w'))
        = option_map entity_header (od_get k (entities w)))
  ∧ is_Some (od_get (entity_id_of name ty) (entities w'))
  ∧ length (entities w')
    = (if od_mem (entity_id_of name ty) (entities w)
       then length (entities w) else S (length (entities w)))
  ∧ headers relation_header (relations w') = headers relation_header (relations w)
  ∧ queries w' = queries w
  ∧ insights w' = insights w ∧ outputs w' = outputs w
  ∧ durable w'.
Proof.
  intros w'. unfold od_mem.
  assert (relations w' = relations w ∧ queries w' = queries w
          ∧ insights w' = insights w ∧ outputs w' = outputs w ∧ durable w') as Hrest.
  { unfold w', durable, exec, add_entity, bind, gets. simpl.
    by destruct (od_get (entity_id_of name ty) (entities w)). }
  destruct Hrest as (Hr & Hq & Hi & Ho & Hd).
  assert (∃ e, entities w' = od_set (entity_id_of name ty) e (entities w)) as [e Hents].
  { destruct (od_get (entity_id_of name ty) (entities w)) as [e0|] eqn:E.
    - eexists. apply (add_entity_existing name ty p c s w e0 E).
    - destruct (add_entity_new name ty p c s w E) as (Hents & _ & _). fold w' in Hents.
      rewrite <- (od_set_absent _ _ _ E) in Hents. by eexists. }
  split.
  { intros k Hk. rewrite Hents, od_get_set_ne; [done | congruence]. }
  split; [rewrite Hents, od_get_set_eq; by eexists|].
  split.
  { rewrite Hents. destruct (od_get (entity_id_of name ty) (entities w)) as [e0|] eqn:E.
    - by apply od_set_length_present with e0.
    - by apply od_set_length_absent. }
  split; [by rewrite Hr|]. done.
Qed.

(** [add_relation] writes to one record only, creates no entity and does
    not look at the entities at all (its endpoints need not be ids of stored
    entities): every relation stored under another id keeps its id,
    endpoints, type, confidence, time stamps and source tag, and so does
    every entity, key by key and in order; queries, insights and exported
    files are as before; the store grows by one relation exactly when the id
    was new; and the files on disk hold the new state when the call returns.
    Nothing is said of the property maps of the other records, which may
    share the dict of the upserted relation. *)
Theorem add_relation_frame_store (w : World) (src tgt ty : string)
    (p : option (gmap string value)) (c : float) (s : string) :
  let w' := exec (add_relation src tgt ty p c s) w in
  (∀ k, k ≠ relation_id_of src ty tgt →
        option_map relation_header (od_get k (relations w'))
        = option_map relation_header (od_get k (relations w)))
  ∧ is_Some (od_get (relation_id_of src ty tgt) (relations w'))
  ∧ length (relations w')
    = (if od_mem (relation_id_of src ty tgt) (relations w)
       then length (relations w) else S (length (relations w)))
  ∧ headers entity_header (entities w') = headers entity_header (entities w)
  ∧ queries w' = queries w
  ∧ insights w' = insights w ∧ outputs w' = outputs w
  ∧ durable w'.
Proof.
  intros w'. unfold od_mem.
  destruct (add_relation_rest src tgt ty p c s w) as (He & Hq & Hi & Ho).
  fold w' in He, Hq, Hi, Ho.
  split.
  { intros k Hk. unfold w'. by rewrite add_relation_get_other. }
  split; [apply add_relation_stored|].
  split.
  { destruct (od_get (relation_id_of src ty tgt) (relations w)) as [r0|] eqn:E.
    - unfold w'. rewrite (add_relation_existing _ _ _ _ _ _ _ _ E).
      by apply od_set_length_present with r0.
    - unfold w'. rewrite (add_relation_new _ _ _ _ _ _ _ E), <- (od_set_absent _ _ _ E).
      by apply od_set_length_absent. }
  split; [by rewrite He|]. repeat (split; [done|]). apply add_relation_durable.
Qed.

Lemma add_entity_frame_aux name ty p c s w :
  ∃ w', add_entity name ty p c s w = (Ok (entity_id_of name ty), w').
Proof.
  unfold add_entity, bind, gets. simpl. destruct (od_get _ _); by eexists.
Qed.

(** ** Records are stored under their own id *)

Section keyed.
Context {V : Type} (id_of : V → string).

Lemma keyed_by_id_nil : keyed_by_id id_of [].
Proof.
  split; [apply NoDup_nil_2|]. intros k v H. by apply elem_of_nil in H.
Qed.

Lemma od_set_elem k v k' v' (d : list (string * V)) :
  (k', v') ∈ od_set k v d → (k', v') = (k, v) ∨ (k', v') ∈ d.
Proof.
  induction d as [|[k0 v0] d IH]; simpl.
  - intros H%list_elem_of_singleton. by left.
  - destruct (String.eqb k k0) eqn:E.
    + apply String.eqb_eq in E. subst k0.
      intros [H | H]%elem_of_cons; [by left | right; by right].
    + intros [H | H]%elem_of_cons; [right; rewrite H; left|].
      destruct (IH H) as [? | ?]; [by left | right; by right].
Qed.

Lemma keyed_by_id_set k v (d : list (string * V)) :
  id_of v = k → keyed_by_id id_of d → keyed_by_id id_of (od_set k v d).
Proof.
  intros Hid [Hnd Hk]. split; [by apply od_set_nodup|].
  intros k' v' [[= -> ->] | H]%od_set_elem; [done | by apply Hk].
Qed.

(** Reading back the values of a dictionary keyed by id rebuilds it. *)
Lemma load_fold (d : list (string * V)) : ∀ acc,
  keyed_by_id id_of (acc ++ d) →
  fold_left (fun acc v => od_set (id_of v) v acc) (od_values d) acc = acc ++ d.
Proof.
  induction d as [|[k v] d IH]; intros acc H; simpl.
  - by rewrite app_nil_r.
  - destruct H as [Hnd Hk].
    assert (id_of v = k) as Hid.
    { apply Hk. apply elem_of_app. right. left. }
    assert (od_get k acc = None) as Hnone.
    { apply od_get_None_not_in. unfold od_keys in *. rewrite map_app in Hnd.
      apply NoDup_app in Hnd as (_ & Hdisj & _). intros Hin.
      apply (Hdisj k Hin). simpl. left. }
    rewrite Hid, (od_set_absent _ _ _ Hnone), IH.
    + by rewrite <- app_assoc.
    + rewrite <- app_assoc. by split.
Qed.
End keyed.

Lemma store_keyed_add_entity name ty p c s w :
  store_keyed w → store_keyed (exec (add_entity name ty p c s) w).
Proof.
  intros [He Hr]. split.
  - destruct (od_get (entity_id_of name ty) (entities w)) as [e0|] eqn:E.
    + rewrite (add_entity_existing _ _ _ _ _ _ _ E).
      apply keyed_by_id_set; [|done]. simpl.
      apply He. by apply od_get_Some_elem.
    + destruct (add_entity_new name ty p c s w E) as (-> & _).
      rewrite <- (od_set_absent _ _ _ E). by apply keyed_by_id_set.
  - unfold exec, add_entity, bind, gets. simpl. by destruct (od_get _ _).
Qed.

Lemma store_keyed_add_relation src tgt ty p c s w :
  store_keyed w → store_keyed (exec (add_relation src tgt ty p c s) w).
Proof.
  intros [He Hr]. split.
  - destruct (add_relation_frame src tgt ty p c s w) as (w' & Hrun & _ & He').
    unfold exec. rewrite Hrun. simpl. by rewrite He'.
  - destruct (od_get (relation_id_of src ty tgt) (relations w)) as [r0|] eqn:E.
    + rewrite (add_relation_existing _ _ _ _ _ _ _ _ E).
      apply keyed_by_id_set; [|done]. simpl.
      apply Hr. by apply od_get_Some_elem.
    + rewrite (add_relation_new _ _ _ _ _ _ _ E).
      rewrite <- (od_set_absent _ _ _ E). by apply keyed_by_id_set.
Qed.

Section preserving.
Context (I : World → Prop).

Lemma preserves_ret {A} (a : A) : preserves I (ret a).
Proof. by intros w H. Qed.

Lemma preserves_bind {A B} (m : M A) (k : A → M B) :
  preserves I m → (∀ a, preserves I (k a)) → preserves I (bind m k).
Proof.
  intros Hm Hk w H. unfold bind. specialize (Hm w H).
  destruct (m w) as [[a|e] w1]; simpl in *; [by apply Hk | done].
Qed.

Lemma preserves_foldM {A St} (body : St → A → M St) l :
  (∀ s x, preserves I (body s x)) → ∀ s, preserves I (foldM body l s).
Proof.
  intros Hb. induction l as [|x l IH]; intros s; simpl.
  - apply preserves_ret.
  - apply preserves_bind; [apply Hb | apply IH].
Qed.

Lemma preserves_gets {A} (f : World → A) : preserves I (gets f).
Proof. by intros w H. Qed.
End preserving.

(** A property of the entities and relations only is kept by whatever
    changes neither. *)
Lemma preserves_query_relations (I : World → Prop) src tgt ty c :
  (∀ w w', entities w' = entities w → relations w' = relations w → I w → I w') →
  preserves I (query_relations src tgt ty c).
Proof. intros HI w H. rewrite query_relations_run. simpl. by apply (HI w). Qed.

Lemma store_keyed_store w w' :
  entities w' = entities w → relations w' = relations w →
  store_keyed w → store_keyed w'.
Proof. unfold store_keyed. by intros -> ->. Qed.

Lemma preserves_store_keyed_infer ty :
  preserves store_keyed (infer_transitive_relations ty).
Proof.
  unfold infer_transitive_relations.
  apply preserves_bind;
    [apply preserves_query_relations, store_keyed_store|]; intros rels.
  apply preserves_bind.
  - apply preserves_foldM. intros acc source.
    apply preserves_foldM. intros acc' intermediate.
    destruct (od_get intermediate _); [|apply preserves_ret].
    apply preserves_foldM. intros acc'' target. unfold check_chain.
    destruct (negb _); [|apply preserves_ret].
    apply preserves_bind;
      [apply preserves_query_relations, store_keyed_store|]; intros existing.
    destruct existing; apply preserves_ret.
  - intros new. apply preserves_bind; [|intros; apply preserves_ret].
    apply preserves_foldM. intros [] [s t].
    apply preserves_bind; [|intros; apply preserves_ret].
    intros w H. by apply store_keyed_add_relation.
Qed.

Lemma preserves_store_keyed_find_similar entity_id threshold :
  preserves store_keyed (find_similar_entities entity_id threshold).
Proof.
  unfold find_similar_entities.
  apply preserves_bind; [apply preserves_gets|]; intros ents.
  destruct (od_get entity_id ents); [|apply preserves_ret].
  apply preserves_bind; [|intros; apply preserves_ret].
  apply preserves_foldM. intros acc [other_id other_entity].
  destruct (String.eqb _ _); [apply preserves_ret|].
  destruct (PrimFloat.leb _ _); [|apply preserves_ret].
  apply preserves_bind;
    [apply preserves_query_relations, store_keyed_store|]; intros existing.
  apply preserves_bind; [|intros; apply preserves_ret].
  destruct existing; [|apply preserves_ret].
  apply preserves_bind; [|intros; apply preserves_ret].
  intros w H. by apply store_keyed_add_relation.
Qed.

(** The store built by the public operations keeps every record under the id
    the record carries, without duplicate keys: a manager without data starts
    that way, and the operations that write entities or relations
    ([add_entity], [add_relation], [infer_transitive_relations],
    [find_similar_entities]) keep it so. *)
Theorem store_stays_keyed_by_id :
  (∀ clk, store_keyed (fresh_world clk))
  ∧ (∀ w name ty p c s,
       store_keyed w → store_keyed (exec (add_entity name ty p c s) w))
  ∧ (∀ w src tgt ty p c s,
       store_keyed w → store_keyed (exec (add_relation src tgt ty p c s) w))
  ∧ (∀ w ty,
       store_keyed w → store_keyed (exec (infer_transitive_relations ty) w))
  ∧ (∀ w entity_id threshold,
       store_keyed w
       → store_keyed (exec (find_similar_entities entity_id threshold) w)).
Proof.
  split; [intros clk; split; apply keyed_by_id_nil|].
  split; [intros; by apply store_keyed_add_entity|].
  split; [intros; by apply store_keyed_add_relation|].
  split; [intros w ty H; by apply preserves_store_keyed_infer|].
  intros w entity_id threshold H. by apply preserves_store_keyed_find_similar.
Qed.

Lemma store_stays_keyed_by_id_witness :
  store_keyed (exec (add_entity "Foo" "concept" None 1 "manual")
                    (fresh_world ticking_clock)).
Proof.
  destruct store_stays_keyed_by_id as (Hfresh & Hadd & _).
  apply Hadd, Hfresh.
Defined.

(** ** Save and reload *)

(** Start-up after a flush restores the store: when the files hold the
    state in memory and every record is stored under its own id, a manager
    constructed on those files ([__init__], which loads them) has the same
    entities, relations, queries and insights, keys and order included. *)
Theorem reload_restores_store (w : World) :
  durable w → store_keyed w →
  let w' := exec __init__ w in
  result __init__ w = Ok ()
  ∧ entities w' = entities w ∧ relations w' = relations w
  ∧ queries w' = queries w ∧ insights w' = insights w
  ∧ disk w' = disk w.
Proof.
  intros Hd [Hke Hkr] w'. unfold durable in Hd.
  unfold w', result, exec, __init__, _load_data, bind, gets, modify. simpl.
  rewrite Hd. simpl.
  rewrite (load_fold ent_id (entities w) []), (load_fold rel_id (relations w) [])
    by done.
  by repeat split.
Qed.

(** The witness of [reload_restores_store]: a store with an entity and a
    relation, as left by their upserts. *)
Lemma reload_restores_store_witness :
  let w := exec (add_entity "Foo" "concept" None 1 "manual" ;;;
                 add_relation "A" "B" "uses" None 1 "manual")
                (fresh_world ticking_clock) in
  entities (exec __init__ w) = entities w ∧ relations (exec __init__ w) = relations w.
Proof.
  intros w.
  destruct (reload_restores_store w) as (_ & He & Hr & _).
  - unfold w, exec, bind.
    destruct (add_entity_frame_aux "Foo" "concept" None 1 "manual"
                (fresh_world ticking_clock)) as (w1 & Hrun).
    rewrite Hrun. apply add_relation_durable.
  - unfold w, exec, bind.
    destruct (add_entity_frame_aux "Foo" "concept" None 1 "manual"
                (fresh_world ticking_clock)) as (w1 & Hrun).
    rewrite Hrun.
    assert (store_keyed (fresh_world ticking_clock)) as H0
      by (split; apply keyed_by_id_nil).
    pose proof (store_keyed_add_entity "Foo" "concept" None 1%float "manual" _ H0) as H1.
    unfold exec in H1. rewrite Hrun in H1. by apply store_keyed_add_relation.
  - by split.
Defined.

(** ** Query results *)

Lemma float_ltb_asym (a b : float) :
  PrimFloat.ltb a b = true → PrimFloat.ltb b a = false.
Proof.
  rewrite !ltb_spec. unfold SFltb. rewrite (SFcompare_antisym (Prim2SF a)).
  by destruct (SFcompare (Prim2SF a) (Prim2SF b)) as [[]|].
Qed.

Section sorting.
Context {A : Type} (key : A → float).

Lemma insert_desc_perm x (l : list A) : insert_desc key x l ≡ₚ x :: l.
Proof.
  induction l as [|y l IH]; simpl; [done|].
  destruct (PrimFloat.ltb _ _); [|done].
  rewrite IH. apply Permutation_swap.
Qed.

Lemma sorted_desc_perm (l : list A) : sorted_desc key l ≡ₚ l.
Proof.
  unfold sorted_desc. induction l as [|x l IH]; simpl; [done|].
  by rewrite insert_desc_perm, IH.
Qed.

Lemma insert_desc_descending x (l : list A) :
  descending key l → descending key (insert_desc key x l).
Proof.
  induction l as [|y l IH]; intros Hl; [done|].
  cbn [insert_desc]. destruct (PrimFloat.ltb (key x) (key y)) eqn:E.
  - assert (descending key l) as Hl'.
    { destruct l; [done|]. by destruct Hl. }
    specialize (IH Hl').
    destruct l as [|z l]; cbn [insert_desc] in *.
    + split; [by apply float_ltb_asym | done].
    + destruct Hl as [Hyz _].
      destruct (PrimFloat.ltb (key x) (key z)).
      * by split.
      * split; [by apply float_ltb_asym | done].
  - by split.
Qed.

Lemma sorted_desc_descending (l : list A) : descending key (sorted_desc key l).
Proof.
  unfold sorted_desc. induction l as [|x l IH]; simpl; [done|].
  by apply insert_desc_descending.
Qed.
End sorting.

Lemma differs_false filter_value actual :
  differs filter_value actual = false ↔ passes filter_value actual.
Proof.
  unfold differs, passes. destruct filter_value as [s|].
  - destruct (String.eqb s "") eqn:E1; simpl.
    + apply String.eqb_eq in E1. split; [|done]. intros _ s' [= <-] H. done.
    + apply String.eqb_neq in E1. destruct (String.eqb actual s) eqn:E2; simpl.
      * apply String.eqb_eq in E2. split; [|done]. by intros _ s' [= <-] _.
      * apply String.eqb_neq in E2. split; [done|]. intros H.
        by specialize (H s eq_refl E1).
  - split; [|done]. by intros _ s.
Qed.

Lemma relation_matches_true src tgt ty c r :
  relation_matches src tgt ty c r = true
  ↔ passes src (rel_source_id r) ∧ passes tgt (rel_target_id r)
    ∧ passes ty (rel_relation_type r)
    ∧ PrimFloat.ltb (rel_confidence r) c = false.
Proof.
  unfold relation_matches.
  rewrite !andb_true_iff, !negb_true_iff, !differs_false. tauto.
Qed.

(** [query_relations] never fails and returns exactly the stored relations
    that pass every filter given (a filter that is [None] or the empty
    string is no filter) and whose confidence is not below the floor, each as
    often as it is stored; when no stored confidence is NaN they come in
    descending order of confidence; a filter that matches nothing gives the
    empty list. *)
Theorem query_relations_result (w : World) (src tgt ty : option string) (c : float) :
  ∃ found,
    result (query_relations src tgt ty c) w = Ok found
    ∧ found ≡ₚ List.filter (relation_matches src tgt ty c) (od_values (relations w))
    ∧ ((∀ r, r ∈ od_values (relations w) → is_number (rel_confidence r))
       → descending rel_confidence found)
    ∧ (∀ r, r ∈ found
            ↔ r ∈ od_values (relations w)
              ∧ passes src (rel_source_id r) ∧ passes tgt (rel_target_id r)
              ∧ passes ty (rel_relation_type r)
              ∧ PrimFloat.ltb (rel_confidence r) c = false)
    ∧ ((∀ r, r ∈ od_values (relations w) → relation_matches src tgt ty c r = false)
       → found = []).
Proof.
  eexists. unfold result. rewrite query_relations_run. cbn [fst].
  split; [reflexivity|]. split; [apply sorted_desc_perm|].
  split; [intros _; apply sorted_desc_descending|]. split.
  - intros r. rewrite sorted_desc_perm, !list_elem_of_In, filter_In.
    by rewrite relation_matches_true.
  - intros H. rewrite filter_nil; [done|].
    intros r Hr. apply H. by apply list_elem_of_In.
Qed.

(** [query_entities], for a name pattern that compiles (every call of
    [re.search] returns, with the answer [re_search] gives), returns exactly
    the stored
    entities of the requested type (when one is given), whose name the
    pattern matches (when one is given) and whose confidence is not below the
    floor; when no stored confidence is NaN they come in descending order of
    confidence.  It changes no entity. *)
Theorem query_entities_result (re_search : string → string → bool) (w : World)
    (entity_type name_pattern : option string) (c : float) :
  ∃ found,
    result (query_entities (fun p s => Some (re_search p s))
                           entity_type name_pattern c) w = Ok found
    ∧ ((∀ e, e ∈ od_values (entities w) → is_number (ent_confidence e))
       → descending ent_confidence found)
    ∧ (∀ e, e ∈ found
            ↔ e ∈ od_values (entities w)
              ∧ passes entity_type (ent_type e)
              ∧ (∀ p, name_pattern = Some p → p ≠ "" → re_search p (ent_name e) = true)
              ∧ PrimFloat.ltb (ent_confidence e) c = false)
    ∧ entities (exec (query_entities (fun p s => Some (re_search p s))
                                     entity_type name_pattern c) w)
      = entities w.
Proof.
  eexists. unfold result, exec. rewrite query_entities_run_filter. cbn [fst snd].
  split; [reflexivity|]. split; [intros _; apply sorted_desc_descending|].
  split; [|done].
  intros e. rewrite sorted_desc_perm, !list_elem_of_In, filter_In.
  unfold entity_matches.
  rewrite !andb_true_iff, !negb_true_iff, differs_false.
  assert ((match name_pattern with
           | Some p => negb (String.eqb p "") && negb (re_search p (ent_name e))
           | None => false
           end = false)
          ↔ ∀ p, name_pattern = Some p → p ≠ "" → re_search p (ent_name e) = true)
    as ->; [|tauto].
  destruct name_pattern as [p|]; [|by split].
  destruct (String.eqb p "") eqn:E1; simpl.
  - apply String.eqb_eq in E1. split; [|done]. by intros _ p' [= <-] H.
  - apply String.eqb_neq in E1. rewrite negb_false_iff. split.
    + by intros H p' [= <-] _.
    + intros H. by apply H.
Qed.

(** ** Paths are walks *)

Lemma is_walk_extend rels : ∀ n path cur ty b,
  (length path ≤ n)%nat → is_walk rels path → last path = Some cur →
  (∃ r, r ∈ rels ∧ joins r cur ty b) →
  is_walk rels (path ++ [ty; b]).
Proof.
  induction n as [|n IH]; intros path cur ty b Hlen Hw Hlast Hr.
  - destruct path; [done | simpl in Hlen; lia].
  - destruct path as [|a [|ty' [|b' rest]]]; try done.
    + simpl in Hlast. injection Hlast as ->. simpl. by split.
    + destruct Hw as [Hstep Hw]. split; [done|].
      apply (IH (b' :: rest) cur); [simpl in *; lia | done | done | done].
Qed.

Section dfs_walks.
Context (rels : list KnowledgeRelation) (source_id target_id : string) (max_depth : Z).

Lemma dfs_walks fuel : ∀ cur path depth st,
  path_inv rels source_id path cur depth → Forall (path_found rels source_id target_id max_depth) st.2 →
  Forall (path_found rels source_id target_id max_depth) (dfs fuel rels target_id max_depth cur path depth st).2.
Proof.
  induction fuel as [|fuel IH]; intros cur path depth st Hinv Hst; [done|].
  rewrite dfs_S. destruct (max_depth <? depth) eqn:Ed; [done|].
  apply Z.ltb_ge in Ed.
  destruct (String.eqb cur target_id && (1 <? length path)%nat) eqn:E.
  - apply andb_true_iff in E as [E1 E2].
    apply String.eqb_eq in E1. apply Nat.ltb_lt in E2. subst cur.
    destruct Hinv as (Hh & Hl & Hw & Hlen).
    cbn [snd]. apply Forall_app. split; [done|]. apply Forall_singleton.
    split; [done|]. split; [done|]. split; [done|]. split; [lia|].
    rewrite Hlen, Z.add_comm, Z.odd_add_mul_2. done.
  - destruct (bool_decide (cur ∈ st.1)); [done|]. cbv zeta. cbn [snd].
    assert (∀ l st', (∀ r, r ∈ l → r ∈ rels) → Forall (path_found rels source_id target_id max_depth) st'.2 →
      Forall (path_found rels source_id target_id max_depth)
        (dfs_loop fuel rels target_id max_depth cur path depth l st').2) as Hloop.
    { induction l as [|r l IHl]; intros st' Hsub Hst'; [done|].
      assert (∀ r', r' ∈ l → r' ∈ rels) as Hsub' by (intros; apply Hsub; by right).
      destruct (decide (rel_source_id r = cur)) as [Hr|Hr].
      - rewrite (dfs_loop_take _ _ _ _ _ _ _ _ _ _ Hr). apply IHl; [done|].
        apply IH; [|done].
        destruct Hinv as (Hh & Hl & Hw & Hlen).
        split; [by destruct path|].
        split.
        { change [rel_relation_type r; rel_target_id r]
            with ([rel_relation_type r] ++ [rel_target_id r]).
          rewrite app_assoc. apply last_snoc. }
        split.
        { apply (is_walk_extend rels (length path) path cur); [done..|].
          exists r. split; [apply Hsub; left | done]. }
        rewrite length_app. simpl. lia.
      - rewrite (dfs_loop_skip _ _ _ _ _ _ _ _ _ _ Hr). by apply IHl. }
    by apply Hloop.
Qed.
End dfs_walks.

Lemma dfs_loop_no_match fuel rels target_id max_depth cur path depth l st :
  (∀ r, r ∈ l → rel_source_id r ≠ cur) →
  dfs_loop fuel rels target_id max_depth cur path depth l st = st.
Proof.
  induction l as [|r l IH]; intros H; [done|].
  rewrite dfs_loop_skip by (apply H; left). apply IH. intros r' Hr'. apply H. by right.
Qed.

(** Every path [find_path] returns is a walk of the store: it starts at
    [source_id], ends at [target_id], each of its steps (node, relation type,
    node) is a stored relation, and it has between one and [max_depth] hops.
    In particular a bound of zero or less gives no path. *)
Theorem find_path_sound (w : World) (source_id target_id : string) (max_depth : Z) :
  ∃ paths,
    result (find_path source_id target_id max_depth) w = Ok paths
    ∧ (∀ p, p ∈ paths →
         head p = Some source_id ∧ last p = Some target_id
         ∧ is_walk (od_values (relations w)) p
         ∧ 3 ≤ Z.of_nat (length p) ≤ 2 * max_depth + 1
         ∧ Z.odd (Z.of_nat (length p)) = true)
    ∧ (max_depth ≤ 0 → paths = [])
    ∧ ((∀ r, r ∈ od_values (relations w) → rel_source_id r ≠ source_id) → paths = []).
Proof.
  eexists. split; [apply find_path_result|].
  assert (Hall : ∀ p,
    p ∈ (dfs (dfs_fuel max_depth) (od_values (relations w)) target_id max_depth
             source_id [source_id] 0 (∅, [])).2 →
    head p = Some source_id ∧ last p = Some target_id
    ∧ is_walk (od_values (relations w)) p
    ∧ 3 ≤ Z.of_nat (length p) ≤ 2 * max_depth + 1
    ∧ Z.odd (Z.of_nat (length p)) = true).
  { apply Forall_forall, dfs_walks; [|apply Forall_nil_2]. by repeat split. }
  split; [exact Hall|]. split.
  - intros Hd.
    destruct (dfs _ _ _ _ _ _ _ _).2 as [|p ps] eqn:E; [done|].
    destruct (Hall p) as (_ & _ & _ & Hlen & _); [left | lia].
  - intros Hnone. unfold dfs_fuel. rewrite dfs_S.
    destruct (max_depth <? 0); [done|].
    change (1 <? length [source_id])%nat with false. rewrite andb_false_r.
    rewrite bool_decide_eq_false_2 by apply not_elem_of_empty.
    cbv zeta. cbn [snd fst]. by rewrite dfs_loop_no_match.
Qed.

(** ** Every simple walk is found *)

Section dfs_complete.
Context (rels : list KnowledgeRelation) (target_id : string) (max_depth : Z).

Lemma dfs_loop_app fuel cur path depth l1 l2 st :
  dfs_loop fuel rels target_id max_depth cur path depth (l1 ++ l2) st
  = dfs_loop fuel rels target_id max_depth cur path depth l2
      (dfs_loop fuel rels target_id max_depth cur path depth l1 st).
Proof. unfold dfs_loop. apply fold_left_app. Qed.

Lemma dfs_loop_visited fuel cur path depth l : ∀ st,
  (dfs_loop fuel rels target_id max_depth cur path depth l st).1 = st.1.
Proof.
  induction l as [|r l IH]; intros st; [done|].
  destruct (decide (rel_source_id r = cur)) as [Hr|Hr].
  - rewrite (dfs_loop_take _ _ _ _ _ _ _ _ _ _ Hr), IH. apply dfs_visited.
  - by rewrite (dfs_loop_skip _ _ _ _ _ _ _ _ _ _ Hr), IH.
Qed.

(** Paths found earlier stay in [paths]. *)
Lemma dfs_mono fuel : ∀ cur path depth st p,
  p ∈ st.2 → p ∈ (dfs fuel rels target_id max_depth cur path depth st).2.
Proof.
  induction fuel as [|fuel IH]; intros cur path depth st p Hp; [done|].
  rewrite dfs_S. destruct (max_depth <? depth); [done|].
  destruct (_ && _); [cbn [snd]; apply elem_of_app; by left|].
  destruct (bool_decide _); [done|]. cbv zeta. cbn [snd].
  assert (∀ l st', p ∈ st'.2 →
            p ∈ (dfs_loop fuel rels target_id max_depth cur path depth l st').2)
    as Hloop.
  { induction l as [|r l IHl]; intros st' Hp'; [done|].
    destruct (decide (rel_source_id r = cur)) as [Hr|Hr].
    - rewrite (dfs_loop_take _ _ _ _ _ _ _ _ _ _ Hr). by apply IHl, IH.
    - rewrite (dfs_loop_skip _ _ _ _ _ _ _ _ _ _ Hr). by apply IHl. }
  by apply Hloop.
Qed.

Lemma dfs_loop_mono fuel cur path depth l : ∀ st p,
  p ∈ st.2 → p ∈ (dfs_loop fuel rels target_id max_depth cur path depth l st).2.
Proof.
  induction l as [|r l IH]; intros st p Hp; [done|].
  destruct (decide (rel_source_id r = cur)) as [Hr|Hr].
  - rewrite (dfs_loop_take _ _ _ _ _ _ _ _ _ _ Hr). by apply IH, dfs_mono.
  - rewrite (dfs_loop_skip _ _ _ _ _ _ _ _ _ _ Hr). by apply IH.
Qed.

Lemma dfs_complete steps : ∀ fuel cur path depth st,
  steps ≠ [] → chain_from cur steps → (∀ r, r ∈ steps → r ∈ rels) →
  last (map rel_target_id steps) = Some target_id →
  depth + Z.of_nat (length steps) ≤ max_depth →
  (Z.to_nat (max_depth + 1 - depth) < fuel)%nat →
  NoDup (cur :: map rel_target_id (removelast steps)) →
  (∀ n, n ∈ cur :: map rel_target_id (removelast steps) → n ∉ st.1) →
  (∀ n, n ∈ map rel_target_id (removelast steps) → n ≠ target_id) →
  cur ≠ target_id ∨ (length path ≤ 1)%nat →
  path ++ flat_map (fun r => [rel_relation_type r; rel_target_id r]) steps
  ∈ (dfs fuel rels target_id max_depth cur path depth st).2.
Proof.
  induction steps as [|r steps IH];
    intros fuel cur path depth st Hne Hchain Hin Hlast Hdepth Hfuel Hnd Hvis Hmid Hroot;
    [done|].
  destruct Hchain as [Hsrc Hchain].
  destruct fuel as [|fuel]; [lia|].
  assert (Hlen : 0 ≤ Z.of_nat (length steps)) by lia.
  simpl length in Hdepth.
  rewrite dfs_expand; [|lia | done | apply Hvis; left]. cbn [snd].
  assert (r ∈ rels) as Hr by (apply Hin; left).
  apply list_elem_of_split in Hr as (l1 & l2 & Hsplit).
  rewrite Hsplit at 2. rewrite dfs_loop_app.
  set (st' := dfs_loop fuel rels target_id max_depth cur path depth l1
                ({[cur]} ∪ st.1, st.2)).
  assert (Hst' : st'.1 = {[cur]} ∪ st.1) by apply dfs_loop_visited.
  rewrite (dfs_loop_take _ _ _ _ _ _ _ _ _ _ Hsrc). apply dfs_loop_mono.
  destruct steps as [|r2 steps].
  - (* the last step reaches the target *)
    simpl in Hlast. injection Hlast as Ht. simpl. rewrite Ht.
    simpl in Hdepth. destruct fuel as [|fuel]; [lia|].
    rewrite dfs_emit; [|lia | rewrite length_app; simpl; lia].
    cbn [snd]. apply elem_of_app. right. by apply list_elem_of_singleton.
  - (* an intermediate node *)
    change (flat_map _ (r :: r2 :: steps))
      with ([rel_relation_type r; rel_target_id r]
            ++ flat_map (fun r => [rel_relation_type r; rel_target_id r]) (r2 :: steps)).
    rewrite app_assoc.
    change (removelast (r :: r2 :: steps)) with (r :: removelast (r2 :: steps))
      in Hnd, Hvis, Hmid.
    cbn [map] in Hnd, Hvis, Hmid.
    apply NoDup_cons in Hnd as [Hcur Hnd].
    apply IH.
    + done.
    + done.
    + intros r' Hr'. apply Hin. by right.
    + exact Hlast.
    + cbn [length] in Hdepth |- *. lia.
    + cbn [length] in Hdepth. lia.
    + exact Hnd.
    + intros n Hn. rewrite Hst'. intros [->%elem_of_singleton | Hn']%elem_of_union.
      * by apply Hcur.
      * apply (Hvis n); [by right | done].
    + intros n Hn. apply Hmid. by right.
    + left. apply Hmid. left.
Qed.
End dfs_complete.

(** [find_path] misses no simple walk: for every chain of one to
    [max_depth] stored relations that leaves [source_id] and ends at
    [target_id], visits no node twice before its end and does not pass
    through [target_id] on the way, the path of that chain is among the
    paths returned. *)
Theorem find_path_complete (w : World) (source_id target_id : string)
    (max_depth : Z) (steps : list KnowledgeRelation) :
  steps ≠ [] → chain_from source_id steps →
  (∀ r, r ∈ steps → r ∈ od_values (relations w)) →
  last (map rel_target_id steps) = Some target_id →
  Z.of_nat (length steps) ≤ max_depth →
  NoDup (source_id :: map rel_target_id (removelast steps)) →
  (∀ n, n ∈ map rel_target_id (removelast steps) → n ≠ target_id) →
  ∃ paths,
    result (find_path source_id target_id max_depth) w = Ok paths
    ∧ path_of source_id steps ∈ paths.
Proof.
  intros Hne Hchain Hin Hlast Hdepth Hnd Hmid.
  eexists. split; [apply find_path_result|].
  apply (dfs_complete _ _ _ steps (dfs_fuel max_depth) source_id [source_id] 0 (∅, []));
    try done.
  - unfold dfs_fuel. lia.
  - right. simpl. lia.
Qed.

(** The witness of [find_path_complete]: the two-step chain A -> B -> C. *)
Lemma find_path_complete_witness :
  let w := exec (add_relation "A" "B" "uses" None 1 "manual" ;;;
                 add_relation "B" "C" "requires" None 1 "manual")
                (fresh_world ticking_clock) in
  ∃ paths, result (find_path "A" "C" 3) w = Ok paths
           ∧ ["A"; "uses"; "B"; "requires"; "C"] ∈ paths.
Proof.
  intros w.
  destruct (od_values (relations w)) as [|r1 [|r2 [|r3 l]]] eqn:E;
    try (vm_compute in E; discriminate).
  assert (Hr : r1 ∈ od_values (relations w) ∧ r2 ∈ od_values (relations w)).
  { rewrite E. split; [left | right; left]. }
  destruct Hr as [Hr1 Hr2].
  vm_compute in E. injection E as <- <-.
  match type of Hr1 with ?a ∈ _ => set (r1 := a) in * end.
  match type of Hr2 with ?a ∈ _ => set (r2 := a) in * end.
  destruct (find_path_complete w "A" "C" 3 [r1; r2]) as (paths & Hres & Hp).
  - discriminate.
  - by repeat split.
  - intros r [-> | [-> | H]%elem_of_cons]%elem_of_cons; [done | done |].
    by apply elem_of_nil in H.
  - reflexivity.
  - simpl. lia.
  - simpl. apply NoDup_cons. split.
    + intros H%list_elem_of_singleton. discriminate.
    + apply NoDup_singleton.
  - intros n H%list_elem_of_singleton. subst n. discriminate.
  - exists paths. by split.
Defined.

(** ** What the sweep reports *)

Lemma filter_split_length {A} (stamp : A → Z) (cutoff : Z) (l : list A) :
  (length (List.filter (fun x => (stamp x <? cutoff)%Z) l)
   + length (List.filter (fun x => (cutoff <=? stamp x)%Z) l))%nat = length l.
Proof.
  induction l as [|x l IH]; simpl; [done|].
  destruct (stamp x <? cutoff) eqn:E1, (cutoff <=? stamp x) eqn:E2; simpl; lia.
Qed.

(** The counts [cleanup_old_data] returns add up: the queries removed and
    the queries remaining are together the queries there were, the remaining
    count is the size of the collection after the call, and likewise for the
    insights.  When the call fails nothing was removed. *)
Theorem cleanup_counts (w : World) (days : option Z) :
  let w' := exec (cleanup_old_data days) w in
  match result (cleanup_old_data days) w with
  | Ok r =>
      (cleaned_queries r + remaining_queries r)%nat = length (queries w)
      ∧ remaining_queries r = length (queries w')
      ∧ (cleaned_insights r + remaining_insights r)%nat = length (insights w)
      ∧ remaining_insights r = length (insights w')
      ∧ durable w'
  | Raise e =>
      e = OverflowError ∧ queries w' = queries w ∧ insights w' = insights w
      ∧ disk w' = disk w
  end.
Proof.
  intros w'. unfold w', result, exec. rewrite cleanup_run.
  pose proof (overflow_only_now_minus_days (effective_days days w) w) as Hov.
  unfold result in *.
  destruct (now_minus_days (effective_days days w) w) as [[cutoff|e] w1]; simpl in *.
  - split; [apply filter_split_length|]. split; [done|].
    split; [apply filter_split_length|]. by split.
  - split; [by apply Hov|]. by repeat split.
Qed.

(** ** Statistics *)

Lemma od_set_sum k (v : nat) (d : list (string * nat)) :
  (list_sum (od_values (od_set k v d)) + default O (od_get k d))%nat
  = (list_sum (od_values d) + v)%nat.
Proof.
  unfold od_values. induction d as [|[k' n] d IH]; simpl; [lia|].
  destruct (String.eqb k k'); simpl; lia.
Qed.

Lemma counter_incr_sum c k :
  list_sum (od_values (counter_incr c k)) = S (list_sum (od_values c)).
Proof.
  unfold counter_incr.
  destruct (od_get k c) as [n|] eqn:E.
  - pose proof (od_set_sum k (S n) c) as H. rewrite E in H. simpl in H. lia.
  - pose proof (od_set_sum k 1%nat c) as H. rewrite E in H. simpl in H. lia.
Qed.

Lemma counter_fold_sum l : ∀ c,
  list_sum (od_values (fold_left counter_incr l c))
  = (list_sum (od_values c) + length l)%nat.
Proof.
  induction l as [|x l IH]; intros c; simpl; [lia|].
  rewrite IH, counter_incr_sum. lia.
Qed.

(** The counts of a counter add up to the number of items counted. *)
Lemma Counter_sum l : list_sum (od_values (Counter l)) = length l.
Proof. unfold Counter. by rewrite counter_fold_sum. Qed.

Lemma Counter_length l : (length (Counter l) ≤ length l)%nat.
Proof.
  rewrite <- (Counter_sum l).
  assert (∀ d : list (string * nat),
            (∀ k n, (k, n) ∈ d → (0 < n)%nat) →
            (length d ≤ list_sum (od_values d))%nat) as H.
  { induction d as [|[k n] d IH]; intros Hpos; simpl; [lia|].
    assert (0 < n)%nat by (apply (Hpos k); left).
    assert (length d ≤ list_sum (od_values d))%nat.
    { apply IH. intros k' n' Hin. apply (Hpos k'). by right. }
    unfold od_values in *. lia. }
  apply H. intros k n Hin. by apply Counter_elem in Hin as [_ ?].
Qed.

Lemma max_le_sum (l : list nat) : (fold_right Nat.max O l ≤ list_sum l)%nat.
Proof. induction l as [|x l IH]; simpl; lia. Qed.

Lemma endpoints_length rels : length (endpoints rels) = (2 * length rels)%nat.
Proof. unfold endpoints. induction rels as [|r rels IH]; simpl; lia. Qed.

Lemma count_recent_le {A} (stamp : A → datetime) days (l : list A) : ∀ n0 w n,
  fst (foldM (fun n x =>
                cutoff <- now_minus_days days ;;
                ret (if cutoff <? stamp x then S n else n)) l n0 w) = Ok n →
  (n0 ≤ n ≤ n0 + length l)%nat.
Proof.
  induction l as [|x l IH]; intros n0 w n; simpl.
  - intros [= <-]. lia.
  - unfold bind at 1 2.
    destruct (now_minus_days days w) as [[cutoff|e] w1]; simpl; [|done].
    intros H. apply IH in H. destruct (cutoff <? stamp x); lia.
Qed.

Lemma now_minus_days_world d w :
  snd (now_minus_days d w) = set_ticks (S (ticks w)) w.
Proof.
  unfold now_minus_days, bind, now, lift.
  destruct (timedelta_days d) as [delta|]; [|done].
  cbn [fst snd]. by destruct (datetime_sub (clock w (ticks w)) delta).
Qed.

Lemma get_statistics_frame w :
  entities (snd (get_statistics w)) = entities w
  ∧ relations (snd (get_statistics w)) = relations w
  ∧ queries (snd (get_statistics w)) = queries w
  ∧ insights (snd (get_statistics w)) = insights w
  ∧ disk (snd (get_statistics w)) = disk w
  ∧ outputs (snd (get_statistics w)) = outputs w.
Proof.
  assert (Hframe : preserves (fun w0 =>
            entities w0 = entities w ∧ relations w0 = relations w
            ∧ queries w0 = queries w ∧ insights w0 = insights w
            ∧ disk w0 = disk w ∧ outputs w0 = outputs w) get_statistics).
  { unfold get_statistics.
    repeat (apply preserves_bind; [apply preserves_gets|]; intros ?).
    assert (∀ A (stamp : A → datetime) d l,
              preserves (fun w0 =>
                entities w0 = entities w ∧ relations w0 = relations w
                ∧ queries w0 = queries w ∧ insights w0 = insights w
                ∧ disk w0 = disk w ∧ outputs w0 = outputs w)
                (count_recent stamp d l)) as Hc.
    { intros A stamp d l. apply preserves_foldM. intros n x.
      apply preserves_bind; [|intros; apply preserves_ret].
      intros w0 H0. by rewrite now_minus_days_world. }
    apply preserves_bind; [apply Hc|]; intros ?.
    apply preserves_bind; [apply Hc|]; intros ?.
    apply preserves_ret. }
  by apply Hframe.
Qed.

(** [get_statistics] changes none of the four collections and no file.
    When it returns, its totals are the sizes of the collections, the
    per-type counts add up to the totals, the recent counts do not exceed
    them, and the degree figures obey the handshake bound: at most two nodes
    per relation, no degree above twice the number of relations.  It can only
    fail with an [OverflowError] of the date arithmetic. *)
Theorem get_statistics_consistent (w : World) :
  let w' := exec get_statistics w in
  entities w' = entities w ∧ relations w' = relations w
  ∧ queries w' = queries w ∧ insights w' = insights w
  ∧ disk w' = disk w ∧ outputs w' = outputs w
  ∧ match result get_statistics w with
    | Ok st =>
        st_entities_total st = length (entities w)
        ∧ st_relations_total st = length (relations w)
        ∧ st_queries_total st = length (queries w)
        ∧ st_insights_total st = length (insights w)
        ∧ list_sum (od_values (st_entities_types st)) = st_entities_total st
        ∧ list_sum (od_values (st_relations_types st)) = st_relations_total st
        ∧ (st_queries_recent_24h st ≤ st_queries_total st)%nat
        ∧ (st_insights_recent_7d st ≤ st_insights_total st)%nat
        ∧ (st_connected_nodes st ≤ 2 * st_relations_total st)%nat
        ∧ (st_max_degree st ≤ 2 * st_relations_total st)%nat
    | Raise e => e = OverflowError
    end.
Proof.
  intros w'. unfold w', exec.
  destruct (get_statistics_frame w) as (He & Hr & Hq & Hi & Hd & Ho).
  repeat (split; [done|]).
  pose proof (overflow_only_get_statistics w) as Hov.
  unfold result. destruct (get_statistics w) as [[st|e] w1] eqn:Erun; simpl in *;
    [|by apply Hov].
  unfold get_statistics, bind at 1 2 3 4, gets in Erun.
  unfold bind at 1 in Erun.
  destruct (count_recent timestamp 1 (queries w) w) as [[n1|e1] w2] eqn:E1; [|done].
  unfold bind at 1 in Erun.
  destruct (count_recent ins_created_at 7 (insights w) w2) as [[n2|e2] w3] eqn:E2;
    [|done].
  injection Erun as <- <-.
  cbn [st_entities_total st_relations_total st_queries_total st_insights_total
       st_entities_types st_relations_types st_queries_recent_24h
       st_insights_recent_7d st_connected_nodes st_max_degree].
  assert (Hlen : ∀ V (d : list (string * V)), length (od_values d) = length d).
  { intros V d. unfold od_values. apply length_map. }
  split; [done|]. split; [done|]. split; [done|]. split; [done|].
  split; [by rewrite Counter_sum, length_map, Hlen|].
  split; [by rewrite Counter_sum, length_map, Hlen|].
  split.
  { pose proof (count_recent_le timestamp 1 (queries w) O w n1) as H.
    unfold count_recent in E1. rewrite E1 in H. specialize (H eq_refl). lia. }
  split.
  { pose proof (count_recent_le ins_created_at 7 (insights w) O w2 n2) as H.
    unfold count_recent in E2. rewrite E2 in H. specialize (H eq_refl). lia. }
  rewrite node_degrees_Counter.
  pose proof (Counter_length (endpoints (od_values (relations w)))) as Hl.
  pose proof (max_le_sum (od_values (Counter (endpoints (od_values (relations w))))))
    as Hm.
  rewrite Counter_sum in Hm. rewrite endpoints_length, Hlen in Hl, Hm.
  split; lia.
Qed.

(** ** Analysis on small stores *)

(** [analyze_patterns] never fails.  It returns at most three insights, all
    of kind "pattern", appends exactly those to the insight collection,
    flushes, and leaves entities, relations and queries alone.  On an empty
    store it returns nothing; without relations it returns at most the
    entity-type insight, and without entities at most the relation-type
    insight. *)
Theorem analyze_patterns_total (w : World) :
  let w' := exec analyze_patterns w in
  ∃ found,
    result analyze_patterns w = Ok found
    ∧ insights w' = insights w ++ found
    ∧ (length found ≤ 3)%nat
    ∧ Forall (fun i => insight_type i = "pattern") found
    ∧ entities w' = entities w ∧ relations w' = relations w
    ∧ queries w' = queries w
    ∧ durable w'
    ∧ (entities w = [] → relations w = [] → found = [])
    ∧ (relations w = [] → entities w ≠ [] →
       map title found = [entity_distribution_title])
    ∧ (entities w = [] → map title found = [] ∨ map title found = [relation_distribution_title]).
Proof.
  intros w'. unfold w', result, exec, durable, analyze_patterns, bind, gets. simpl.
  destruct (max_by_count (Counter (map ent_type (od_values (entities w)))))
    as [[ety n1]|] eqn:E1; simpl;
  destruct (max_by_count (Counter (map rel_relation_type (od_values (relations w)))))
    as [[rty n2]|] eqn:E2; simpl;
  destruct (max_by_count (node_degrees (od_values (relations w))))
    as [[node n3]|] eqn:E3; simpl;
  try destruct (od_get node (entities w)) as [entity|] eqn:E4; simpl;
  eexists; (split; [reflexivity|]); (split; [reflexivity|]);
  (split; [simpl; lia|]);
  (split; [repeat constructor|]);
  (split; [reflexivity|]); (split; [reflexivity|]);
  (split; [reflexivity|]); (split; [reflexivity|]);
  (split; [intros He Hr; rewrite ?He, ?Hr in *; simpl in *; try done|]);
  (split; [intros Hr He; rewrite ?Hr in *; simpl in *; try done|]);
  try (intros He; rewrite ?He in *; simpl in *; try done; auto).
  exfalso.
  destruct (max_by_count_not_nil (Counter (map ent_type (od_values (entities w)))))
    as [x Hx]; [apply Counter_not_nil; by destruct (entities w) | congruence].
Qed.

(** ** What an export writes *)

Lemma graphml_content_length ents rels :
  length (graphml_content ents rels) = (5 + 5 * length ents + 4 * length rels)%nat.
Proof.
  unfold graphml_content. rewrite !length_app. simpl.
  assert (length (concat (map graphml_node ents)) = 5 * length ents)%nat as ->.
  { induction ents as [|e ents IH]; simpl; [done|]. rewrite IH. lia. }
  assert (length (concat (map graphml_edge rels)) = 4 * length rels)%nat as ->.
  { induction rels as [|r rels IH]; simpl; [done|]. rewrite IH. lia. }
  lia.
Qed.

Lemma export_json_run w :
  export_graph "json" w
  = let path := ("outputs/knowledge/knowledge_graph_export_"
                 ++ strftime_Ymd_HMS (clock w (ticks w)) ++ ".json")%string in
    match get_statistics (set_ticks (S (S (ticks w))) w) with
    | (Ok st, w2) =>
        (Ok path,
         set_outputs
           (od_set path
              (JsonExport (isoformat (clock w (S (ticks w)))) "1.0" st
                 (od_values (entities w2)) (od_values (relations w2)) (insights w2))
              (outputs w2)) w2)
    | (Raise e, w2) => (Raise e, w2)
    end.
Proof.
  unfold export_graph, bind at 1 2 3, now. cbn [fst snd String.eqb Ascii.eqb Bool.eqb].
  change (set_ticks (S (ticks (set_ticks (S (ticks w)) w))) (set_ticks (S (ticks w)) w))
    with (set_ticks (S (S (ticks w))) w).
  by destruct (get_statistics (set_ticks (S (S (ticks w))) w)) as [[st|e] w2].
Qed.

(** [export_graph] writes at most one file and only at the very end: when
    it fails, for whatever reason, the export directory is as before.  The
    graphml export always succeeds, writes under the returned path a
    document of five lines per entity, four per relation and five of frame,
    and the json export, when it returns, writes a document holding exactly
    the stored entities, relations and insights.  No export changes any of
    the four collections or the persisted files. *)
Theorem export_graph_writes (w : World) (format_type : string) :
  let w' := exec (export_graph format_type) w in
  entities w' = entities w ∧ relations w' = relations w
  ∧ queries w' = queries w ∧ insights w' = insights w ∧ disk w' = disk w
  ∧ match result (export_graph format_type) w with
    | Raise _ => outputs w' = outputs w
    | Ok path =>
        path = ("outputs/knowledge/knowledge_graph_export_"
                ++ strftime_Ymd_HMS (clock w (ticks w)) ++ "." ++ format_type)%string
        ∧ ∃ doc,
            outputs w' = od_set path doc (outputs w)
            ∧ od_get path (outputs w') = Some doc
            ∧ match doc with
              | JsonExport _ version _ ents rels ins =>
                  format_type = "json" ∧ version = "1.0"
                  ∧ ents = od_values (entities w)
                  ∧ rels = od_values (relations w) ∧ ins = insights w
              | GraphMLExport lines =>
                  format_type = "graphml"
                  ∧ lines = graphml_content (od_values (entities w))
                                            (od_values (relations w))
                  ∧ length lines
                    = (5 + 5 * length (entities w) + 4 * length (relations w))%nat
              end
    end
  ∧ (format_type = "graphml" → ∃ path, result (export_graph format_type) w = Ok path).
Proof.
  intros w'.
  destruct (String.eqb format_type "json") eqn:Ej.
  { apply String.eqb_eq in Ej. subst format_type.
    destruct (get_statistics_frame (set_ticks (S (S (ticks w))) w))
      as (He & Hr & Hq & Hi & Hd & Ho).
    unfold w', result, exec in *. rewrite export_json_run. cbv zeta.
    destruct (get_statistics (set_ticks (S (S (ticks w))) w)) as [[st|e] w2];
      cbn [fst snd] in *.
    - cbn [entities relations queries insights disk outputs set_outputs].
      rewrite He, Hr, Hi, Hq, Hd, Ho. cbn [entities relations queries insights disk
                                            outputs set_ticks].
      repeat (split; [done|]). split; [|discriminate].
      split; [done|]. eexists. split; [reflexivity|].
      split; [apply od_get_set_eq | by repeat split].
    - rewrite He, Hr, Hi, Hq, Hd, Ho. repeat (split; [done|]). discriminate. }
  destruct (String.eqb format_type "graphml") eqn:Eg.
  { apply String.eqb_eq in Eg. subst format_type.
    assert (length (graphml_content (od_values (entities w)) (od_values (relations w)))
            = 5 + 5 * length (entities w) + 4 * length (relations w))%nat as Hlen.
    { rewrite graphml_content_length. unfold od_values. by rewrite !length_map. }
    unfold w', result, exec. cbn.
    repeat (split; [done|]). split; [|intros _; by eexists].
    split; [done|]. eexists. split; [reflexivity|].
    split; [apply od_get_set_eq|].
    split; [done|]. split; [done|]. exact Hlen. }
  apply String.eqb_neq in Ej, Eg.
  unfold w', result, exec. rewrite (export_unsupported_run _ _ Ej Eg). cbn.
  repeat (split; [done|]). by intros ->.
Qed.

(** ** What transitive inference finds and what it writes *)

Lemma od_get_Some_key {V} k (v : V) d : od_get k d = Some v → In k (od_keys d).
Proof.
  unfold od_keys. induction d as [|[k' v'] d IH]; simpl; [done|].
  destruct (String.eqb k k') eqn:E.
  - apply String.eqb_eq in E. by left.
  - intros H. right. by apply IH.
Qed.

(** Every relation is an edge of the adjacency map. *)
Lemma relation_graph_complete l : ∀ g r,
  In r l →
  ∃ ts, od_get (rel_source_id r) (fold_left graph_add l g) = Some ts
        ∧ In (rel_target_id r) ts.
Proof.
  assert (Hkeep : ∀ l g s ts t,
            od_get s g = Some ts → In t ts →
            ∃ ts', od_get s (fold_left graph_add l g) = Some ts' ∧ In t ts').
  { clear l. induction l as [|r l IH]; intros g s ts t Hget Hin; simpl.
    - by exists ts.
    - destruct (String.eqb (rel_source_id r) s) eqn:E.
      + apply (IH _ s (ts ++ [rel_target_id r]) t).
        * by rewrite graph_add_get, E, Hget.
        * apply in_or_app. by left.
      + apply (IH _ s ts t); [|done]. by rewrite graph_add_get, E. }
  induction l as [|r0 l IH]; intros g r Hin; simpl in *; [done|].
  destruct Hin as [-> | Hin]; [|by apply IH].
  apply (Hkeep l _ _ (default [] (od_get (rel_source_id r) g) ++ [rel_target_id r])).
  - by rewrite graph_add_get, String.eqb_refl.
  - apply in_or_app. right. by left.
Qed.

Lemma candidate_pairs_complete g s i t ts ts' :
  od_get s g = Some ts → In i ts → od_get i g = Some ts' → In t ts' → t ≠ s →
  In (s, t) (candidate_pairs g).
Proof.
  intros Hs Hi Hi' Ht Hne. unfold candidate_pairs.
  apply in_flat_map. exists s. split; [by apply od_get_Some_key with ts|].
  apply in_flat_map. exists i. rewrite Hs. split; [done|]. rewrite Hi'.
  apply in_flat_map. exists t. split; [done|].
  apply String.eqb_neq in Hne. rewrite Hne. by left.
Qed.

Lemma listed_matches ty r :
  relation_matches None None (Some ty) 0 r = true ↔ listed ty r.
Proof.
  rewrite relation_matches_true. unfold listed, visible, passes.
  split; [tauto|]. intros [H1 H2]. by repeat split.
Qed.

Lemma lacks_direct_true R ty s t :
  lacks_direct R ty (s, t) = true ↔ ¬ has_direct R ty s t.
Proof.
  unfold lacks_direct, has_direct. cbn [fst snd].
  destruct (matching_relations R (Some s) (Some t) (Some ty)) as [|r l] eqn:E.
  - split; [|done]. intros _ (r & Hr & Hm).
    assert (In r (matching_relations R (Some s) (Some t) (Some ty))) as Hin.
    { apply matching_relations_In. split; [by apply list_elem_of_In | done]. }
    by rewrite E in Hin.
  - split; [done|]. intros H. exfalso. apply H. exists r.
    assert (In r (matching_relations R (Some s) (Some t) (Some ty))) as Hin
      by (rewrite E; by left).
    apply matching_relations_In in Hin as [Hin Hm].
    split; [by apply list_elem_of_In | done].
Qed.

(** The chains the scan examines are exactly the two-step chains of listed
    relations that do not return to their start. *)
Lemma candidate_pairs_chains R ty s t :
  In (s, t) (candidate_pairs (relation_graph (matching_relations R None None (Some ty))))
  ↔ t ≠ s ∧ two_step_chain R ty s t.
Proof.
  split.
  - intros (i & ts & ts' & Hs & Hi & Hi' & Ht & Hne)%candidate_pairs_sound.
    split; [done|]. unfold relation_graph in Hs, Hi'.
    destruct (relation_graph_sound _ _ _ _ _ Hs Hi)
      as [(ra & Hra & Hsa & Hta) | (? & ? & _)]; [|done].
    destruct (relation_graph_sound _ _ _ _ _ Hi' Ht)
      as [(rb & Hrb & Hsb & Htb) | (? & ? & _)]; [|done].
    apply matching_relations_In in Hra as [Hra Hma].
    apply matching_relations_In in Hrb as [Hrb Hmb].
    exists ra, rb. rewrite !list_elem_of_In.
    split; [done|]. split; [done|].
    split; [by apply listed_matches|]. split; [by apply listed_matches|].
    split; [done|]. split; [congruence | done].
  - intros (Hne & ra & rb & Hra & Hrb & Hla & Hlb & Hsa & Hlink & Htb).
    apply list_elem_of_In in Hra, Hrb.
    assert (In ra (matching_relations R None None (Some ty))) as Hma.
    { apply matching_relations_In. split; [done | by apply listed_matches]. }
    assert (In rb (matching_relations R None None (Some ty))) as Hmb.
    { apply matching_relations_In. split; [done | by apply listed_matches]. }
    destruct (relation_graph_complete _ [] ra Hma) as (ts & Hs & Hi).
    destruct (relation_graph_complete _ [] rb Hmb) as (ts' & Hi' & Ht).
    apply (candidate_pairs_complete _ s (rel_target_id ra) t ts ts'); try done.
    + by rewrite <- Hsa.
    + by rewrite Hlink.
    + by rewrite <- Htb.
Qed.

(** [infer_transitive_relations] never fails, and the pairs it returns are
    exactly those joined by a chain of two relations of the type (with a
    confidence not below zero) that does not return to its start and for
    which the store, as it was before the call, has no direct relation of the
    type. *)
Theorem infer_transitive_pairs (w : World) (ty : string) :
  ∃ new,
    result (infer_transitive_relations ty) w = Ok new
    ∧ ∀ s t, (s, t) ∈ new
             ↔ t ≠ s
               ∧ two_step_chain (od_values (relations w)) ty s t
               ∧ ¬ has_direct (od_values (relations w)) ty s t.
Proof.
  destruct (infer_transitive_relations_run ty w) as (w2 & _ & _ & Hrun).
  cbv zeta in Hrun. eexists. unfold result. rewrite Hrun. cbn [fst].
  split; [reflexivity|]. intros s t.
  rewrite list_elem_of_In, filter_In, candidate_pairs_chains, lacks_direct_true.
  tauto.
Qed.



Section scan_frame.
Context (I : World → Prop).
Hypothesis query_keeps : ∀ src tgt ty c, preserves I (query_relations src tgt ty c).


End scan_frame.



(** ** Similar entities *)




(** ** Recommendations *)

(** A loop whose body keeps an invariant [I] of the world and an invariant
    [Q] of the loop state returns, and keeps both. *)
Lemma foldM_state {A St} (body : St → A → M St) (I : World → Prop) (Q : St → Prop)
    (l : list A) :
  (∀ s x w, In x l → I w → Q s → ∃ s' w', body s x w = (Ok s', w') ∧ I w' ∧ Q s') →
  ∀ s w, I w → Q s → ∃ s' w', foldM body l s w = (Ok s', w') ∧ I w' ∧ Q s'.
Proof.
  induction l as [|x l IH]; intros Hbody s w HI HQ; simpl.
  - by exists s, w.
  - destruct (Hbody s x w (or_introl eq_refl) HI HQ) as (s1 & w1 & Hrun & HI1 & HQ1).
    destruct (IH (fun s x w Hx => Hbody s x w (or_intror Hx)) s1 w1 HI1 HQ1)
      as (s2 & w2 & Hrun2 & HI2 & HQ2).
    exists s2, w2. unfold bind. by rewrite Hrun.
Qed.

Lemma in_firstn {A} (x : A) n : ∀ l, In x (firstn n l) → In x l.
Proof.
  induction n as [|n IH]; intros [|y l]; simpl; try done.
  intros [-> | H]; [by left | right; by apply IH].
Qed.

Lemma descending_firstn {A} (key : A → float) n : ∀ l,
  descending key l → descending key (firstn n l).
Proof.
  induction n as [|n IH]; intros [|x l]; simpl; try done.
  intros H. specialize (IH l).
  destruct l as [|y l]; [by destruct n|].
  destruct H as [Hxy Hd]. specialize (IH Hd).
  destruct n as [|n]; [done|]. cbn [firstn] in *. by split.
Qed.

Lemma in_slice_to {A} (x : A) n l : In x (slice_to n l) → In x l.
Proof. unfold slice_to. destruct (n <? 0); apply in_firstn. Qed.

Lemma descending_slice_to {A} (key : A → float) n l :
  descending key l → descending key (slice_to n l).
Proof. unfold slice_to. destruct (n <? 0); apply descending_firstn. Qed.

Lemma slice_to_length {A} n (l : list A) :
  0 ≤ n → Z.of_nat (length (slice_to n l)) ≤ n.
Proof.
  intros Hn. unfold slice_to.
  destruct (n <? 0) eqn:E; [apply Z.ltb_lt in E; lia|].
  rewrite length_firstn. lia.
Qed.

Lemma slice_to_nil {A} n : slice_to n (@nil A) = [].
Proof. unfold slice_to. destruct (n <? 0); apply firstn_nil. Qed.

Lemma recommend_relations_run entity_id max_recommendations w :
  ∃ recommendations w',
    recommend_relations entity_id max_recommendations w
    = (Ok (slice_to max_recommendations (sorted_desc rec_confidence recommendations)),
       w')
    ∧ (entities w' = entities w ∧ relations w' = relations w
       ∧ insights w' = insights w ∧ outputs w' = outputs w ∧ disk w' = disk w)
    ∧ (∀ r, In r recommendations →
         ∃ entity, od_get entity_id (entities w) = Some entity
                   ∧ well_founded_recommendation w entity_id entity r)
    ∧ (od_get entity_id (entities w) = None → recommendations = [] ∧ w' = w).
Proof.
  unfold recommend_relations, bind at 1, gets. cbn [fst snd].
  destruct (od_get entity_id (entities w)) as [entity|] eqn:Eent.
  2:{ exists [], w. split; [unfold ret, sorted_desc; cbn [fold_right]; by rewrite slice_to_nil|].
      split; [done|]. split; [by intros r []|]. done. }
  set (suggested := default ["related_to"] (od_get (ent_type entity) type_based_relations)).
  set (I := fun w0 : World =>
              entities w0 = entities w ∧ relations w0 = relations w
              ∧ insights w0 = insights w ∧ outputs w0 = outputs w ∧ disk w0 = disk w).
  set (Q := fun acc : list Recommendation =>
              ∀ r, In r acc → well_founded_recommendation w entity_id entity r).
  match goal with |- context [foldM ?b _ _] => set (body := b) end.
  destruct (foldM_state body I Q (entities w)) with (s := @nil Recommendation) (w := w)
    as (recs & w' & Hrun & HI & HQ).
  - intros acc [other_id other_entity] w0 Hother HI0 HQ0. unfold body.
    destruct (String.eqb other_id entity_id) eqn:Eid; [by exists acc, w0|].
    apply String.eqb_neq in Eid.
    match goal with |- context [foldM ?b _ _] => set (inner := b) end.
    apply (foldM_state inner I Q suggested); [|done|done].
    intros acc' relation_type w1 Hty HI1 HQ1. unfold inner.
    destruct (query_relations_frame (Some entity_id) (Some other_id)
                (Some relation_type) w1) as (w2 & Hrun2 & Hr2 & He2 & Hi2 & Hd2 & _).
    assert (outputs w2 = outputs w1) as Ho2.
    { pose proof (query_relations_run (Some entity_id) (Some other_id)
                    (Some relation_type) 0 w1) as Hq.
      rewrite Hrun2 in Hq. apply (f_equal snd) in Hq. cbn [snd] in Hq. by rewrite Hq. }
    assert (I w2) as HI2.
    { destruct HI1 as (? & ? & ? & ? & ?). repeat split; congruence. }
    unfold bind. rewrite Hrun2.
    destruct (matching_relations (od_values (relations w1)) (Some entity_id)
                (Some other_id) (Some relation_type)) as [|r0 rest] eqn:Ematch;
      [|by exists acc', w2].
    destruct (PrimFloat.ltb 0.5 _) eqn:Econf; [|by exists acc', w2].
    eexists _, w2. split; [reflexivity|]. split; [done|].
    intros r [Hr | [<- | []]]%in_app_or; [by apply HQ1|].
    unfold well_founded_recommendation. cbn [rec_source_id rec_target_id
      rec_relation_type rec_confidence rec_reason].
    split; [done|]. split; [done|].
    split; [by apply list_elem_of_In|]. split; [done|].
    split.
    { apply lacks_direct_true. unfold lacks_direct. cbn [fst snd].
      destruct HI1 as (_ & <- & _). by rewrite Ematch. }
    exists other_entity. split; [by apply list_elem_of_In | done].
  - done.
  - by intros r [].
  - exists recs, w'. unfold bind. rewrite Hrun. cbn [fst snd].
    split; [done|]. split; [done|].
    split; [intros r Hr; exists entity; split; [done | by apply HQ]|]. done.
Qed.

(** [recommend_relations] never fails and only reads the store.  Every
    recommendation it returns starts at the entity given, points at another
    stored entity, has a relation type suggested for the entity's type and a
    confidence, computed from the two entities, strictly above 0.5, and
    names a pair for which the store holds no relation of that type.  The
    list is in descending order of confidence and, for a bound that is not
    negative, no longer than the bound; for an id that is not in the store
    it is empty and nothing at all changes. *)
Theorem recommend_relations_result (w : World) (entity_id : string)
    (max_recommendations : Z) :
  let w' := exec (recommend_relations entity_id max_recommendations) w in
  ∃ recs,
    result (recommend_relations entity_id max_recommendations) w = Ok recs
    ∧ descending rec_confidence recs
    ∧ (0 ≤ max_recommendations → Z.of_nat (length recs) ≤ max_recommendations)
    ∧ (∀ r, r ∈ recs →
         ∃ entity, od_get entity_id (entities w) = Some entity
                   ∧ well_founded_recommendation w entity_id entity r)
    ∧ entities w' = entities w ∧ relations w' = relations w
    ∧ insights w' = insights w ∧ outputs w' = outputs w ∧ disk w' = disk w
    ∧ (od_get entity_id (entities w) = None → recs = [] ∧ w' = w).
Proof.
  intros w'.
  destruct (recommend_relations_run entity_id max_recommendations w)
    as (recommendations & w1 & Hrun & (He & Hr & Hi & Ho & Hd) & Hwf & Hnone).
  assert (w' = w1) as -> by (unfold w', exec; by rewrite Hrun).
  eexists. unfold result. rewrite Hrun. cbn [fst].
  split; [reflexivity|].
  split; [apply descending_slice_to, sorted_desc_descending|].
  split; [apply slice_to_length|].
  split.
  { intros r Hin%list_elem_of_In%in_slice_to. apply Hwf. by apply sorted_desc_In in Hin. }
  repeat (split; [done|]).
  intros Hn. destruct (Hnone Hn) as [-> ->]. split; [|done].
  apply slice_to_nil.
Qed.
